(** * QSS: the Quadratic-Separable Solver

    A shallow embedding of [qss/proximal.py] and of [QSS.solve] from
    [qss/qss.py], with the properties of the separable proximal operators, of
    the driver [apply_prox_ops], of [get_subdifferential] and of the ADMM
    iteration.

    Number model.  numpy's float64 values are idealised as rationals [Q]:
    rounding, infinities and NaN are outside the model.  Division is [Qdiv],
    so a quotient by zero (inf or nan in IEEE arithmetic) is [0] here; a
    statement whose content depends on a quotient assumes what makes the
    divisor nonzero.  Numeric results are compared with [==] ([Qeq]) unless
    the code returns the very same numeral.

    Memory model.  numpy arrays are mutable buffers.  A [heap] is the list of
    all buffers allocated so far and a [loc] indexes it; a Python value is
    either an immediate number or a reference to a buffer.  The temporaries of
    an arithmetic expression are unreachable once the expression has been
    evaluated, so only the array an expression evaluates to is allocated.
    Arrays are one-dimensional.  Index ranges are pairs of natural numbers:
    the negative indices of Python are not modelled.

    Exceptions.  A computation returns [Ok] or raises one of the exceptions
    of [exn].

    Layout.  First the model: the heap monad, numpy arithmetic, the operators
    of [proximal.py], the same framework in the words of its specification
    (module [Spec]), the collaborators of [solve] as an interface, [solve], a
    small instance of the interface and concrete inputs.  Then the
    properties. *)

From Stdlib Require Import QArith Qminmax Qabs Lqa.
From stdpp Require Import base tactics option list strings.

Local Open Scope Q_scope.

(** ** Arrays, values and exceptions *)

Abbreviation ndarray := (list Q).
Abbreviation loc := nat.
Abbreviation heap := (list (list Q)).

(** A Python value held in a variable: a number, or a reference to an array. *)
Inductive value :=
| Num (q : Q)
| Ref (l : loc).

(** An operand of an arithmetic expression once it has been read. *)
Inductive npv :=
| Sc (q : Q)
| Ar (a : ndarray).

Inductive exn :=
| KeyError            (* lookup of an unknown name in a dict *)
| ValueError          (* operands could not be broadcast together *)
| TypeError           (* array operation on a plain number *)
| IndexError          (* index out of bounds *)
| UnboundLocalError   (* local variable read before assignment *)
| InvalidRef.         (* reference outside the heap: never built by the code *)

Inductive res (A : Type) :=
| Ok (a : A)
| Raise (e : exn).
Arguments Ok {A} a.
Arguments Raise {A} e.

(** ** The state-and-exception monad of heap computations *)

Definition M (A : Type) : Type := heap -> res (A * heap).

Definition ret {A} (a : A) : M A := fun h => Ok (a, h).

Definition bind {A B} (m : M A) (k : A -> M B) : M B :=
  fun h => match m h with
           | Ok (a, h') => k a h'
           | Raise e => Raise e
           end.

Definition raise {A} (e : exn) : M A := fun _ => Raise e.

Definition lift {A} (r : res A) : M A :=
  fun h => match r with
           | Ok a => Ok (a, h)
           | Raise e => Raise e
           end.

Declare Scope heap_scope.
Delimit Scope heap_scope with heap.
Notation "x <- c ;; k" := (bind c (fun x => k))
  (at level 100, c at next level, right associativity) : heap_scope.
Notation "c ;;; k" := (bind c (fun _ => k))
  (at level 100, right associativity) : heap_scope.
Local Open Scope heap_scope.

Definition get (l : loc) : M ndarray :=
  fun h => match h !! l with
           | Some a => Ok (a, h)
           | None => Raise InvalidRef
           end.

Definition put (l : loc) (a : ndarray) : M unit :=
  fun h => if (l <? length h)%nat then Ok (tt, <[l:=a]> h) else Raise InvalidRef.

Definition alloc (a : ndarray) : M loc :=
  fun h => Ok (length h, h ++ [a]).

Definition load (v : value) : M npv :=
  match v with
  | Num q => ret (Sc q)
  | Ref l => a <- get l ;; ret (Ar a)
  end.

Definition store (v : npv) : M value :=
  match v with
  | Sc q => ret (Num q)
  | Ar a => l <- alloc a ;; ret (Ref l)
  end.

(** Subscripting is defined on arrays only. *)
Definition as_array (v : value) : M loc :=
  match v with
  | Ref l => ret l
  | Num _ => raise TypeError
  end.

(** ** numpy arithmetic on read operands *)

Definition Qltb (x y : Q) : bool := negb (Qle_bool y x).

(** Elementwise binary operation on two one-dimensional arrays, with numpy's
    broadcasting rule: equal lengths, or one operand of length one. *)
Definition broadcast2 (f : Q -> Q -> Q) (a b : ndarray) : res ndarray :=
  if (length a =? length b)%nat then Ok (zip_with f a b)
  else if (length a =? 1)%nat then Ok (map (f (hd 0 a)) b)
  else if (length b =? 1)%nat then Ok (map (fun x => f x (hd 0 b)) a)
  else Raise ValueError.

Definition np_binop (f : Q -> Q -> Q) (x y : npv) : res npv :=
  match x, y with
  | Sc p, Sc q => Ok (Sc (f p q))
  | Sc p, Ar b => Ok (Ar (map (f p) b))
  | Ar a, Sc q => Ok (Ar (map (fun x => f x q) a))
  | Ar a, Ar b => match broadcast2 f a b with
                  | Ok c => Ok (Ar c)
                  | Raise e => Raise e
                  end
  end.

Definition np_map (f : Q -> Q) (x : npv) : npv :=
  match x with
  | Sc q => Sc (f q)
  | Ar a => Ar (map f a)
  end.

(** [a[start:end]] for natural [start], [end]: out-of-range bounds are
    clipped, and the slice is empty when [end <= start]. *)
Definition slice (s e : nat) (a : ndarray) : ndarray := take (e - s) (drop s a).

(** ** proximal.py: the proximal operators *)

(** [prox_zero]: returns its argument (the same object). *)
Definition prox_zero (rho v : value) : M value := ret v.

(** [prox_abs]: [np.maximum(v - 1 / rho, 0) - np.maximum(-v - 1 / rho, 0)]. *)
Definition prox_abs (rho v : value) : M value :=
  r <- load rho ;;
  a <- load v ;;
  i1 <- lift (np_binop Qdiv (Sc 1) r) ;;
  t1 <- lift (np_binop Qminus a i1) ;;
  m1 <- lift (np_binop Qmax t1 (Sc 0)) ;;
  i2 <- lift (np_binop Qdiv (Sc 1) r) ;;
  t2 <- lift (np_binop Qminus (np_map Qopp a) i2) ;;
  m2 <- lift (np_binop Qmax t2 (Sc 0)) ;;
  out <- lift (np_binop Qminus m1 m2) ;;
  store out.

(** [prox_indge0]: [y = v; y[np.where(v < 0)] = 0; return y].  [y] is an
    alias of [v]: the argument is overwritten. *)
Definition prox_indge0 (rho v : value) : M value :=
  match v with
  | Ref l =>
      a <- get l ;;
      put l (map (fun x => if Qltb x 0 then 0 else x) a) ;;;
      ret (Ref l)
  | Num _ => raise TypeError
  end.

(** [prox_indbox01]: [v[v >= 1] = 1; v[v <= 0] = 0; return v], two masked
    assignments into the argument. *)
Definition prox_indbox01 (rho v : value) : M value :=
  match v with
  | Ref l =>
      a <- get l ;;
      put l (map (fun x => if Qle_bool 1 x then 1 else x) a) ;;;
      a' <- get l ;;
      put l (map (fun x => if Qle_bool x 0 then 0 else x) a') ;;;
      ret (Ref l)
  | Num _ => raise TypeError
  end.

(** [prox_is_zero]: [np.zeros(len(v))], a fresh array. *)
Definition prox_is_zero (rho v : value) : M value :=
  match v with
  | Ref l =>
      a <- get l ;;
      l' <- alloc (repeat 0 (length a)) ;;
      ret (Ref l')
  | Num _ => raise TypeError
  end.

(** The table [prox_ops]. *)
Definition prox_ops (name : string) : option (value -> value -> M value) :=
  if String.eqb name "zero" then Some prox_zero
  else if String.eqb name "abs" then Some prox_abs
  else if String.eqb name "indge0" then Some prox_indge0
  else if String.eqb name "indbox01" then Some prox_indbox01
  else if String.eqb name "is_zero" then Some prox_is_zero
  else None.

(** ** proximal.py: separable terms *)

(** The optional [args] dict of a term. *)
Record term_args := {
  weight : option Q;
  scale : option Q;
  shift : option Q
}.

(** An entry of [g_list]: [{"g": name, "args": {...}, "range": (start, end)}]. *)
Record term := {
  g : string;
  args : option term_args;
  range : nat * nat
}.

Definition arg_or (d : Q) (field : term_args -> option Q) (t : term) : Q :=
  match args t with
  | Some a => match field a with Some w => w | None => d end
  | None => d
  end.

(** [x[start:end] = rhs] on the buffer at [l]: [rhs] must have the shape of
    the slice or be broadcast to it. *)
Definition assign_slice (l : loc) (s e : nat) (rhs : npv) : M unit :=
  x <- get l ;;
  let k := length (slice s e x) in
  match rhs with
  | Sc q => put l (take s x ++ repeat q k ++ drop (s + k) x)
  | Ar r =>
      if (length r =? k)%nat then put l (take s x ++ r ++ drop (s + k) x)
      else if (length r =? 1)%nat
           then put l (take s x ++ repeat (hd 0 r) k ++ drop (s + k) x)
           else raise ValueError
  end.

(** The body of the loop of [apply_prox_ops] for one term (lines 113-134),
    in the order Python evaluates it.  [new_rho] and the argument of the
    operator are passed by reference, so they are allocated; [new_scale] is
    only read. *)
Definition prox_term (rho : Q) (equil_scaling : value) (t : term) (x : value)
  : M unit :=
  let weight := arg_or 1 weight t in
  let scale := arg_or 1 scale t in
  let shift := arg_or 0 shift t in
  let '(start_index, end_index) := range t in
  le <- as_array equil_scaling ;;
  eqv <- get le ;;
  let new_scale := map (fun d => d * scale) (slice start_index end_index eqv) in
  new_rho <- alloc (map (fun n => rho / (weight * n ^ 2)) new_scale) ;;
  match prox_ops (g t) with
  | None => raise KeyError
  | Some prox =>
      lx <- as_array x ;;
      xv <- get lx ;;
      w <- lift (broadcast2 Qmult new_scale (slice start_index end_index xv)) ;;
      v <- alloc (map (fun y => y - shift) w) ;;
      pv <- prox (Ref new_rho) (Ref v) ;;
      p <- load pv ;;
      rhs <- lift (np_binop Qdiv (np_map (fun y => y + shift) p) (Ar new_scale)) ;;
      assign_slice lx start_index end_index rhs
  end.

(** [apply_prox_ops(rho, equil_scaling, g_list, x)]. *)
Fixpoint apply_prox_ops (rho : Q) (equil_scaling : value) (g_list : list term)
  (x : value) : M value :=
  match g_list with
  | [] => ret x
  | t :: rest =>
      prox_term rho equil_scaling t x ;;;
      apply_prox_ops rho equil_scaling rest x
  end.

(** ** proximal.py: get_subdifferential

    The function only reads [x] and [target] and returns a fresh array, so it
    is a function of the contents of its arguments. *)

Fixpoint foldM {A B} (f : A -> B -> res A) (l : list B) (a : A) : res A :=
  match l with
  | [] => Ok a
  | b :: l' => match f a b with
               | Ok a' => foldM f l' a'
               | Raise e => Raise e
               end
  end.

(** The body of the inner loop at index [i]. *)
Definition subdiff_at (x target output : ndarray) (i : nat) : res ndarray :=
  match x !! i with
  | None => Raise IndexError
  | Some xi =>
      if Qeq_bool xi 0 then
        match target !! i with
        | None => Raise IndexError
        | Some ti =>
            if Qltb 1 ti then Ok (<[i:=-(1)]> output)
            else if Qltb ti (-(1)) then Ok (<[i:=1]> output)
            else Ok (<[i:=- ti]> output)
        end
      else if Qltb 0 xi then Ok (<[i:=1]> output)
      else if Qltb xi 0 then Ok (<[i:=-(1)]> output)
      else Ok output
  end.

Definition subdiff_term (x target output : ndarray) (t : term) : res ndarray :=
  let '(start_index, end_index) := range t in
  if String.eqb (g t) "abs"
  then foldM (subdiff_at x target) (seq start_index (end_index - start_index)) output
  else Ok output.

Definition get_subdifferential (g_list : list term) (x target : ndarray)
  : res ndarray :=
  foldM (subdiff_term x target) g_list (repeat 0 (length x)).

(** ** The proximal framework as the specification words it

    Pure functions on array contents, written after the description of the
    Separable Term Registry: the five term kinds with their closed-form
    proximal operators, and the driver [applyProximalAll].  The code above is
    compared with them below. *)

Module Spec.

Inductive kind := Zero | Abs | IndicatorNonneg | IndicatorBox01 | IndicatorZero.

Definition kind_of (name : string) : option kind :=
  if String.eqb name "zero" then Some Zero
  else if String.eqb name "abs" then Some Abs
  else if String.eqb name "indge0" then Some IndicatorNonneg
  else if String.eqb name "indbox01" then Some IndicatorBox01
  else if String.eqb name "is_zero" then Some IndicatorZero
  else None.

(** [max(v - 1/penalty, 0) - max(-v - 1/penalty, 0)]. *)
Definition soft_threshold (penalty v : Q) : Q :=
  Qmax (v - 1 / penalty) 0 - Qmax (- v - 1 / penalty) 0.

(** The soft-threshold [S_k] by cases. *)
Definition shrink (k v : Q) : Q :=
  if Qltb k v then v - k else if Qltb v (- k) then v + k else 0.

Definition clamp01 (v : Q) : Q := Qmax 0 (Qmin 1 v).

(** The proximal operator of a kind at one coordinate. *)
Definition proximal1 (k : kind) (penalty v : Q) : Q :=
  match k with
  | Zero => v
  | Abs => soft_threshold penalty v
  | IndicatorNonneg => Qmax v 0
  | IndicatorBox01 => clamp01 v
  | IndicatorZero => 0
  end.

(** [proximal(penalty, v)], with one penalty per coordinate. *)
Definition proximal (k : kind) (penalty v : ndarray) : ndarray :=
  match k with
  | Zero => v
  | Abs => zip_with soft_threshold penalty v
  | IndicatorNonneg => map (fun y => Qmax y 0) v
  | IndicatorBox01 => map clamp01 v
  | IndicatorZero => repeat 0 (length v)
  end.

(** One term of [applyProximalAll]: the new contents of [x]. *)
Definition term_update (penalty : Q) (equilScale : ndarray) (t : term)
  (x : ndarray) : ndarray :=
  let weight := arg_or 1 weight t in
  let scale := arg_or 1 scale t in
  let shift := arg_or 0 shift t in
  let '(s, e) := range t in
  match kind_of (g t) with
  | None => x
  | Some k =>
      let localScale := map (fun d => d * scale) (slice s e equilScale) in
      let localPenalty := map (fun n => penalty / (weight * n ^ 2)) localScale in
      let v := map (fun y => y - shift) (zip_with Qmult localScale (slice s e x)) in
      let p := proximal k localPenalty v in
      let out := zip_with Qdiv (map (fun y => y + shift) p) localScale in
      take s x ++ out ++ drop (s + length out) x
  end.

Definition applyProximalAll (penalty : Q) (equilScale : ndarray)
  (terms : list term) (x : ndarray) : ndarray :=
  fold_left (fun y t => term_update penalty equilScale t y) terms x.

(** Vectors of equal length: sum, difference, multiple. *)
Definition vadd (u v : ndarray) : ndarray := zip_with Qplus u v.
Definition vsub (u v : ndarray) : ndarray := zip_with Qminus u v.
Definition vscale (c : Q) (v : ndarray) : ndarray := map (Qmult c) v.

(** [clip(a, lo, hi)]. *)
Definition clip (a lo hi : Q) : Q := Qmin (Qmax a lo) hi.

Definition sign (x : Q) : Q :=
  if Qltb 0 x then 1 else if Qltb x 0 then -(1) else 0.

(** Coordinate [i] lies in the range of the term. *)
Definition covers (t : term) (i : nat) : Prop :=
  (fst (range t) <= i < snd (range t))%nat.

End Spec.

(** ** Notions used to state what [get_subdifferential] returns *)

(** The value the inner loop writes at a coordinate holding [xi], with target
    [ti]. *)
Definition subdiff_value (xi ti : Q) : Q :=
  if Qeq_bool xi 0 then
    if Qltb 1 ti then -(1) else if Qltb ti (-(1)) then 1 else - ti
  else if Qltb 0 xi then 1 else -(1).

Definition subdiff_entry (x target : ndarray) (i : nat) : Q :=
  match x !! i, target !! i with
  | Some xi, Some ti => subdiff_value xi ti
  | _, _ => 0
  end.

(** Coordinate [i] lies in the range of some abs-kind term of the list. *)
Definition abs_covered (g_list : list term) (i : nat) : Prop :=
  exists t, t ∈ g_list /\ g t = "abs" /\ Spec.covers t i.

(** ** qss.py: the collaborators of [QSS.solve]

    [precondition], [matrix], [polish] and [util] of the package, the sparse
    matrices of scipy, the factorization of qdldl and the norms of numpy are
    called by [solve] but are not part of the verified sources.  They are the
    fields of an interface; each is a function of the contents of its
    arguments that returns fresh results and raises nothing.  The
    factorization handle is the one object [solve] mutates through a
    collaborator ([F.update]); [solve] holds the only reference to it, so the
    handle is threaded as a value. *)

Class Backend := {
  matrix : Type;
  factor : Type;
  shape0 : matrix -> nat;                       (* M.shape[0] *)
  nnz : matrix -> nat;                          (* M.nnz *)
  sp_identity : nat -> matrix;                  (* sp.sparse.identity(n) *)
  sp_diags : ndarray -> matrix;                 (* sp.sparse.diags(v) *)
  mscale : Q -> matrix -> matrix;               (* c * M *)
  madd : matrix -> matrix -> matrix;            (* M + N *)
  msub : matrix -> matrix -> matrix;            (* M - N *)
  ruiz : matrix -> ndarray -> Q -> matrix -> ndarray ->
         matrix * ndarray * Q * matrix * ndarray * ndarray * Q;
  build_kkt : matrix -> matrix -> Q -> Q -> nat -> nat -> matrix;
  ir_solve : matrix -> factor -> ndarray -> ndarray;
  Solver : matrix -> factor;                    (* qdldl.Solver(M) *)
  F_solve : factor -> ndarray -> ndarray;       (* F.solve(rhs) *)
  F_update : factor -> matrix -> factor;        (* F.update(M) *)
  polish : list term -> ndarray -> matrix -> ndarray -> Q -> matrix ->
           ndarray -> ndarray -> Q -> nat -> ndarray;
  evaluate_objective : matrix -> ndarray -> Q -> list term -> ndarray -> Q ->
                       ndarray -> Q;
  evaluate_stop_crit : ndarray -> ndarray -> ndarray -> ndarray -> nat -> Q ->
                       Q -> Q -> bool;
  norm_inf : ndarray -> Q;                      (* np.linalg.norm(v, ord=np.inf) *)
  norm : ndarray -> Q;                          (* np.linalg.norm(v) *)
  sqrt : Q -> Q                                 (* np.sqrt *)
}.

(** [max_iter]: [np.inf] or any other number that is no iteration count
    ([Unbounded]), or an integer. *)
Inductive iter_cap :=
| Unbounded
| Cap (n : Z).

Section Solve.
Context {B : Backend}.

(** The [data] dict. *)
Record problem := {
  data_P : matrix;
  data_q : ndarray;
  data_r : Q;
  data_A : matrix;
  data_b : ndarray;
  data_g : list term
}.

(** The attributes of a [QSS] object, as [__init__] sets them. *)
Record QSS := {
  _data : problem;
  _eps_abs : Q;
  _eps_rel : Q;
  _alpha : Q;
  _rho : Q;
  _max_iter : iter_cap;
  _precond : bool;
  _reg : bool;
  _use_iter_refinement : bool;
  _polish : bool;
  _verbose : bool
}.

(** The locals of [solve] that are fixed once the main loop starts. *)
Record env := {
  P : matrix;
  q : ndarray;
  r : Q;
  A : matrix;
  b : ndarray;
  g_list : list term;
  alpha : Q;
  dim : nat;
  constr_dim : nat;
  has_constr : bool;
  equil_scaling : loc;
  obj_scale : Q
}.

(** The locals the main loop assigns. *)
Record frame := {
  iter_num : Z;
  rho : Q;
  xk : loc;
  zk : loc;
  uk : loc;
  xk1 : loc;
  zk1 : loc;
  uk1 : loc;
  nuk1 : loc;
  quad_kkt : matrix;
  quad_kkt_reg : option matrix;      (* bound only when there are constraints *)
  F : factor
}.

Definition eps30 : Q := 1 # 1000000000000000000000000000000.   (* 1e-30 *)
Definition reg_eps : Q := - (1 # 10000000).                     (* -1e-7 *)

(** Lines 105-120: [iter_num += 1] and the x-update. *)
Definition x_update (self : QSS) (e : env) (st : frame) : M frame :=
  zv <- get (zk st) ;;
  uv <- get (uk st) ;;
  d <- lift (broadcast2 Qminus zv uv) ;;
  rhs <- lift (broadcast2 Qplus (map Qopp (q e)) (map (Qmult (rho st)) d)) ;;
  if has_constr e then
    let kkt_solve :=
      if _use_iter_refinement self
      then ir_solve (quad_kkt st) (F st) (rhs ++ b e)
      else F_solve (F st) (rhs ++ b e) in
    x1 <- alloc (take (dim e) kkt_solve) ;;
    nu1 <- alloc (drop (dim e) kkt_solve) ;;
    ret {| iter_num := iter_num st + 1; rho := rho st; xk := xk st; zk := zk st;
           uk := uk st; xk1 := x1; zk1 := zk1 st; uk1 := uk1 st; nuk1 := nu1;
           quad_kkt := quad_kkt st; quad_kkt_reg := quad_kkt_reg st; F := F st |}
  else
    x1 <- alloc (F_solve (F st) rhs) ;;
    ret {| iter_num := iter_num st + 1; rho := rho st; xk := xk st; zk := zk st;
           uk := uk st; xk1 := x1; zk1 := zk1 st; uk1 := uk1 st; nuk1 := nuk1 st;
           quad_kkt := quad_kkt st; quad_kkt_reg := quad_kkt_reg st; F := F st |}.

(** Lines 122-125: the z-update.  The argument of [apply_prox_ops] is the
    fresh array the expression evaluates to. *)
Definition z_update (e : env) (st : frame) : M frame :=
  xv <- get (xk1 st) ;;
  zv <- get (zk st) ;;
  uv <- get (uk st) ;;
  s1 <- lift (broadcast2 Qplus (map (Qmult (alpha e)) xv)
                               (map (Qmult (1 - alpha e)) zv)) ;;
  s2 <- lift (broadcast2 Qplus s1 uv) ;;
  w <- alloc s2 ;;
  z <- apply_prox_ops (rho st / obj_scale e) (Ref (equil_scaling e)) (g_list e) (Ref w) ;;
  z1 <- as_array z ;;
  ret {| iter_num := iter_num st; rho := rho st; xk := xk st; zk := zk st;
         uk := uk st; xk1 := xk1 st; zk1 := z1; uk1 := uk1 st; nuk1 := nuk1 st;
         quad_kkt := quad_kkt st; quad_kkt_reg := quad_kkt_reg st; F := F st |}.

(** Lines 127-128: the u-update, read from the heap after the z-update. *)
Definition u_update (e : env) (st : frame) : M frame :=
  uv <- get (uk st) ;;
  xv <- get (xk1 st) ;;
  zv <- get (zk st) ;;
  z1v <- get (zk1 st) ;;
  a1 <- lift (broadcast2 Qplus uv (map (Qmult (alpha e)) xv)) ;;
  a2 <- lift (broadcast2 Qplus a1 (map (Qmult (1 - alpha e)) zv)) ;;
  a3 <- lift (broadcast2 Qminus a2 z1v) ;;
  u1 <- alloc a3 ;;
  ret {| iter_num := iter_num st; rho := rho st; xk := xk st; zk := zk st;
         uk := uk st; xk1 := xk1 st; zk1 := zk1 st; uk1 := u1; nuk1 := nuk1 st;
         quad_kkt := quad_kkt st; quad_kkt_reg := quad_kkt_reg st; F := F st |}.

(** Lines 105-128: the three updates of one iteration. *)
Definition admm_updates (self : QSS) (e : env) (st : frame) : M frame :=
  st1 <- x_update self e st ;;
  st2 <- z_update e st1 ;;
  u_update e st2.

(** Lines 149-154: the test that ends the loop. *)
Definition should_stop (self : QSS) (e : env) (st : frame)
  (xv zv z1v u1v : ndarray) : bool :=
  match _max_iter self with
  | Cap n => (iter_num st =? n)%Z
  | Unbounded => false
  end
  || ((iter_num st mod 10 =? 0)%Z
      && evaluate_stop_crit xv zv z1v u1v (dim e) (rho st)
           (_eps_abs self) (_eps_rel self)).

(** Lines 166-175: polishing and the returned pair. *)
Definition finish (self : QSS) (e : env) (st : frame) : M (Q * loc) :=
  z1 <- (if _polish self then
           z1v <- get (zk1 st) ;;
           eqv <- get (equil_scaling e) ;;
           alloc (polish (g_list e) z1v (P e) (q e) (r e) (A e) (b e) eqv
                    (obj_scale e) (dim e))
         else ret (zk1 st)) ;;
  z1v <- get z1 ;;
  eqv <- get (equil_scaling e) ;;
  sol <- lift (broadcast2 Qmult eqv z1v) ;;
  out <- alloc sol ;;
  ret (evaluate_objective (P e) (q e) (r e) (g_list e) z1v (obj_scale e) eqv,
       out).

(** Lines 180-191: the candidate penalty as computed. *)
Definition raw_candidate (st : frame) (r_prim r_dual : Q) (xv z1v u1v : ndarray)
  : Q :=
  rho st * sqrt (r_prim / (r_dual + eps30)
                 * norm (map (Qmult (rho st)) u1v)
                 / (Qmax (norm_inf xv) (norm_inf z1v) + eps30)).

(** Lines 193-195: a candidate equal to zero is replaced by [rho]. *)
Definition rho_candidate (st : frame) (r_prim r_dual : Q) (xv z1v u1v : ndarray)
  : Q :=
  let new_rho_candidate := raw_candidate st r_prim r_dual xv z1v u1v in
  if Qeq_bool new_rho_candidate 0 then rho st else new_rho_candidate.

(** Lines 202-212: [M - rho_vec + new_rho_vec], the matrix [M] with the
    penalty on its leading diagonal block moved from [old_rho] to [new_rho]. *)
Definition shift_penalty (e : env) (old_rho new_rho : Q) (m : matrix) : matrix :=
  let rho_vec :=
    sp_diags (map (Qmult old_rho) (repeat 1 (dim e)) ++ repeat 0 (constr_dim e)) in
  let new_rho_vec :=
    sp_diags (map (Qmult new_rho) (repeat 1 (dim e)) ++ repeat 0 (constr_dim e)) in
  madd (msub m rho_vec) new_rho_vec.

(** Lines 177-217: the penalty update of one iteration. *)
Definition update_rho (e : env) (st : frame) (r_prim r_dual : Q) : M frame :=
  if (iter_num st mod 10 =? 0)%Z then
    xv <- get (xk1 st) ;;
    z1v <- get (zk1 st) ;;
    u1v <- get (uk1 st) ;;
    let new_rho_candidate := rho_candidate st r_prim r_dual xv z1v u1v in
    if Qltb 5 (new_rho_candidate / rho st) || Qltb 5 (rho st / new_rho_candidate)
    then
      u1 <- alloc (map (fun u => u * rho st / new_rho_candidate) u1v) ;;
      let kkt := shift_penalty e (rho st) new_rho_candidate (quad_kkt st) in
      if has_constr e then
        match quad_kkt_reg st with
        | None => raise UnboundLocalError
        | Some kkt_reg =>
            let kkt_reg' := shift_penalty e (rho st) new_rho_candidate kkt_reg in
            ret {| iter_num := iter_num st; rho := new_rho_candidate;
                   xk := xk st; zk := zk st; uk := uk st; xk1 := xk1 st;
                   zk1 := zk1 st; uk1 := u1; nuk1 := nuk1 st;
                   quad_kkt := kkt; quad_kkt_reg := Some kkt_reg';
                   F := F_update (F st) kkt_reg' |}
        end
      else
        ret {| iter_num := iter_num st; rho := new_rho_candidate;
               xk := xk st; zk := zk st; uk := uk st; xk1 := xk1 st;
               zk1 := zk1 st; uk1 := u1; nuk1 := nuk1 st;
               quad_kkt := kkt; quad_kkt_reg := quad_kkt_reg st;
               F := F_update (F st) kkt |}
    else ret st
  else ret st.

(** Lines 219-221: [xk = xk1; zk = zk1; uk = uk1]. *)
Definition rebind (st : frame) : frame :=
  {| iter_num := iter_num st; rho := rho st; xk := xk1 st; zk := zk1 st;
     uk := uk1 st; xk1 := xk1 st; zk1 := zk1 st; uk1 := uk1 st;
     nuk1 := nuk1 st; quad_kkt := quad_kkt st;
     quad_kkt_reg := quad_kkt_reg st; F := F st |}.

Inductive step :=
| Return (result : Q * loc)
| Continue (st : frame).

(** One pass through the body of [while True].  Status lines are not
    modelled (nor [obj_val], which only they use). *)
Definition iteration (self : QSS) (e : env) (st : frame) : M step :=
  st1 <- admm_updates self e st ;;
  xv <- get (xk1 st1) ;;
  zv <- get (zk st1) ;;
  z1v <- get (zk1 st1) ;;
  u1v <- get (uk1 st1) ;;
  d1 <- lift (broadcast2 Qminus xv z1v) ;;
  let r_prim := norm_inf d1 in
  d2 <- lift (broadcast2 Qminus zv z1v) ;;
  let r_dual := norm_inf (map (Qmult (rho st1)) d2) in
  if should_stop self e st1 xv zv z1v u1v then
    res <- finish self e st1 ;;
    ret (Return res)
  else
    st2 <- update_rho e st1 r_prim r_dual ;;
    ret (Continue (rebind st2)).

(** The main loop, for at most [fuel] iterations; [None] when they are used
    up before the loop returns. *)
Fixpoint main_loop (fuel : nat) (self : QSS) (e : env) (st : frame)
  : M (option (Q * loc)) :=
  match fuel with
  | O => ret None
  | S fuel' =>
      s <- iteration self e st ;;
      match s with
      | Return res => ret (Some res)
      | Continue st' => main_loop fuel' self e st'
      end
  end.

(** Lines 41-95: the locals before the main loop. *)
Definition setup (self : QSS) : M (env * frame) :=
  let d := _data self in
  let dim := shape0 (data_P d) in
  let has_constr := negb (nnz (data_A d) =? 0)%nat in
  let constr_dim := if has_constr then shape0 (data_A d) else O in
  xk <- alloc (repeat 0 dim) ;;
  zk <- alloc (repeat 0 dim) ;;
  uk <- alloc (repeat 0 dim) ;;
  xk1 <- alloc (repeat 0 dim) ;;
  zk1 <- alloc (repeat 0 dim) ;;
  uk1 <- alloc (repeat 0 dim) ;;
  nuk1 <- alloc (repeat 0 dim) ;;
  ones <- alloc (repeat 1 dim) ;;
  pre <- (if _precond self then
            let '(P', q', r', A', b', scaling, c) :=
              ruiz (data_P d) (data_q d) (data_r d) (data_A d) (data_b d) in
            l <- alloc scaling ;;
            ret (P', q', r', A', b', l, c)
          else
            ret (data_P d, data_q d, data_r d, data_A d, data_b d, ones, 1)) ;;
  let '(P, q, r, A, b, equil_scaling, obj_scale) := pre in
  let e := {| P := P; q := q; r := r; A := A; b := b; g_list := data_g d;
              alpha := _alpha self; dim := dim; constr_dim := constr_dim;
              has_constr := has_constr; equil_scaling := equil_scaling;
              obj_scale := obj_scale |} in
  let st kkt kkt_reg f :=
    {| iter_num := 0; rho := _rho self; xk := xk; zk := zk; uk := uk;
       xk1 := xk1; zk1 := zk1; uk1 := uk1; nuk1 := nuk1;
       quad_kkt := kkt; quad_kkt_reg := kkt_reg; F := f |} in
  if has_constr then
    let kkt := build_kkt P A 0 (_rho self) dim constr_dim in
    let kkt_reg := build_kkt P A reg_eps (_rho self) dim constr_dim in
    ret (e, st kkt (Some kkt_reg) (Solver kkt_reg))
  else
    let kkt := madd P (mscale (_rho self) (sp_identity dim)) in
    ret (e, st kkt None (Solver kkt)).

(** [QSS.solve], for at most [fuel] iterations of the main loop. *)
Definition solve_in (fuel : nat) (self : QSS) : M (option (Q * loc)) :=
  es <- setup self ;;
  main_loop fuel self (fst es) (snd es).

(** [solve] on a fresh interpreter state: the objective and the contents of
    the returned array. *)
Definition solve (fuel : nat) (self : QSS) : res (option (Q * ndarray)) :=
  match solve_in fuel self [] with
  | Raise ex => Raise ex
  | Ok (None, _) => Ok None
  | Ok (Some (obj, l), h) =>
      match h !! l with
      | Some a => Ok (Some (obj, a))
      | None => Raise InvalidRef
      end
  end.

End Solve.

(** ** A small instance of the interface

    Diagonal matrices, stored as their diagonal; a factorization is the
    diagonal itself and a solve divides by it.  The norm of a vector is the
    largest absolute value of its entries for both [norm_inf] and [norm], and
    [sqrt] is the identity: enough to run the model on concrete problems. *)

Definition max_abs (v : ndarray) : Q := fold_right (fun x m => Qmax (Qabs x) m) 0 v.

Definition dot (u v : ndarray) : Q := fold_right Qplus 0 (zip_with Qmult u v).

(** Divide by the diagonal; entries beyond the diagonal are left as they are. *)
Definition diag_solve (f rhs : ndarray) : ndarray :=
  zip_with Qdiv rhs (f ++ repeat 1 (length rhs - length f)).

#[local] Instance diag_backend : Backend := {|
  matrix := list Q;
  factor := list Q;
  shape0 := fun m => length m;
  nnz := fun m => length (filter (fun x => Qeq_bool x 0 = false) m);
  sp_identity := fun n => repeat 1 n;
  sp_diags := fun v => v;
  mscale := fun c m => map (Qmult c) m;
  madd := fun m n => zip_with Qplus m n;
  msub := fun m n => zip_with Qminus m n;
  ruiz := fun P q r A b => (P, q, r, A, b, repeat 1 (length P), 1);
  build_kkt := fun P A reg rho dim constr_dim =>
    map (fun p => p + rho) P ++ repeat reg constr_dim;
  ir_solve := fun kkt f rhs => diag_solve f rhs;
  Solver := fun m => m;
  F_solve := diag_solve;
  F_update := fun f m => m;
  polish := fun g z P q r A b scaling c dim => z;
  evaluate_objective := fun P q r g z c scaling =>
    (1 # 2) * dot z (zip_with Qmult P z) + dot q z + r;
  evaluate_stop_crit := fun x z z1 u dim rho eps_abs eps_rel =>
    Qle_bool (max_abs (zip_with Qminus x z1)) eps_abs
    && Qle_bool (rho * max_abs (zip_with Qminus z z1)) eps_abs;
  norm_inf := max_abs;
  norm := max_abs;
  sqrt := fun x => x
|}.

(** The nonnegative quadratic program [P = I_2], [q = (-1, -1)], [r = 0], no
    constraints, one term [indge0] on [[0, 2)]. *)
Definition nonneg_qp : problem := {|
  data_P := [1; 1];
  data_q := [-(1); -(1)];
  data_r := 0;
  data_A := [];
  data_b := [];
  data_g := [{| g := "indge0"; args := None; range := (0, 2)%nat |}]
|}.

Definition nonneg_solver (cap : iter_cap) : QSS := {|
  _data := nonneg_qp;
  _eps_abs := 1 # 10000;
  _eps_rel := 1 # 10000;
  _alpha := 14 # 10;
  _rho := 1 # 10;
  _max_iter := cap;
  _precond := false;
  _reg := true;
  _use_iter_refinement := true;
  _polish := false;
  _verbose := false
|}.


(** ** Solver instances and problems compared by the properties *)

(** Two solver instances that differ at most in the [reg] flag. *)
Definition same_but_reg {B : Backend} (s1 s2 : QSS) : Prop :=
  _data s1 = _data s2 /\ _eps_abs s1 = _eps_abs s2
  /\ _eps_rel s1 = _eps_rel s2 /\ _alpha s1 = _alpha s2 /\ _rho s1 = _rho s2
  /\ _max_iter s1 = _max_iter s2 /\ _precond s1 = _precond s2
  /\ _use_iter_refinement s1 = _use_iter_refinement s2
  /\ _polish s1 = _polish s2 /\ _verbose s1 = _verbose s2.

(** The solver [self] on the same problem with [b] replaced. *)
Definition with_b {B : Backend} (b' : ndarray) (self : QSS) : QSS :=
  {| _data := {| data_P := data_P (_data self); data_q := data_q (_data self);
                 data_r := data_r (_data self); data_A := data_A (_data self);
                 data_b := b'; data_g := data_g (_data self) |};
     _eps_abs := _eps_abs self; _eps_rel := _eps_rel self;
     _alpha := _alpha self; _rho := _rho self; _max_iter := _max_iter self;
     _precond := _precond self; _reg := _reg self;
     _use_iter_refinement := _use_iter_refinement self;
     _polish := _polish self; _verbose := _verbose self |}.

(** A linear solve returns a vector as long as its right-hand side. *)
Definition solves_preserve_length {B : Backend} : Prop :=
  (forall f rhs, length (F_solve f rhs) = length rhs)
  /\ (forall kkt f rhs, length (ir_solve kkt f rhs) = length rhs).

(** Every term names an entry of the table [prox_ops]. *)
Definition known_terms (g_list : list term) : Prop :=
  Forall (fun t => is_Some (Spec.kind_of (g t))) g_list.

(** Every buffer of [h] is in [h'] with the same contents. *)
Definition extends (h h' : heap) : Prop :=
  forall j, (j < length h)%nat -> h' !! j = h !! j.

(** The penalty, the previous iterates and the KKT system are the same in
    both frames. *)
Definition same_base {B : Backend} (st st' : frame) : Prop :=
  rho st' = rho st /\ zk st' = zk st /\ uk st' = uk st
  /\ quad_kkt st' = quad_kkt st /\ quad_kkt_reg st' = quad_kkt_reg st
  /\ F st' = F st.

(** [polish] returns a vector as long as the iterate it is given. *)
Definition polish_preserves_length {B : Backend} : Prop :=
  forall g_list z P q r A b scaling c n,
    length (polish g_list z P q r A b scaling c n) = length z.

(** The iterate [solve] un-scales when the loop ends with [z] in [zk1]. *)
Definition final_iterate {B : Backend} (self : QSS) (e : env)
  (scaling z : ndarray) : ndarray :=
  if _polish self
  then polish (g_list e) z (P e) (q e) (r e) (A e) (b e) scaling (obj_scale e) (dim e)
  else z.

(** The problem the main loop works on: the result of [ruiz], or the data
    with an all-ones scaling and objective scale one. *)
Definition preconditioned {B : Backend} (self : QSS)
  : matrix * ndarray * Q * matrix * ndarray * ndarray * Q :=
  let d := _data self in
  if _precond self
  then ruiz (data_P d) (data_q d) (data_r d) (data_A d) (data_b d)
  else (data_P d, data_q d, data_r d, data_A d, data_b d,
        repeat 1 (shape0 (data_P d)), 1).

(** The shapes [solve] relies on: [q] and the scaling have the dimension of
    [P], every term names a known operator, and the collaborators return
    vectors of the length they are given. *)
Definition well_shaped {B : Backend} (self : QSS) : Prop :=
  let '(_, q', _, _, _, scaling, _) := preconditioned self in
  length q' = shape0 (data_P (_data self))
  /\ length scaling = shape0 (data_P (_data self))
  /\ known_terms (data_g (_data self))
  /\ solves_preserve_length
  /\ (_polish self = true -> polish_preserves_length).

(** The shapes of the locals at the head of the main loop. *)
Definition loop_invariant {B : Backend} (self : QSS) (e : env) (st : frame)
  (h : heap) (scaling : ndarray) : Prop :=
  (exists zv, h !! zk st = Some zv /\ length zv = dim e)
  /\ (exists uv, h !! uk st = Some uv /\ length uv = dim e)
  /\ h !! equil_scaling e = Some scaling /\ length scaling = dim e
  /\ length (q e) = dim e
  /\ known_terms (g_list e)
  /\ solves_preserve_length
  /\ (_polish self = true -> polish_preserves_length)
  /\ (has_constr e = true -> is_Some (quad_kkt_reg st)).

(** The equilibration scaling the main loop uses. *)
Definition scaling_of {B : Backend} (self : QSS) : ndarray :=
  snd (fst (preconditioned self)).

(** The fixed locals as [solve] binds them when it starts from an empty heap:
    the eight arrays of lines 62-71 are allocated first, and the scaling
    returned by [ruiz], if any, after them. *)
Definition initial_env {B : Backend} (self : QSS) : env :=
  let '(P', q', r', A', b', _, c) := preconditioned self in
  let has_constr := negb (nnz (data_A (_data self)) =? 0)%nat in
  {| P := P'; q := q'; r := r'; A := A'; b := b';
     g_list := data_g (_data self);
     alpha := _alpha self;
     dim := shape0 (data_P (_data self));
     constr_dim := if has_constr then shape0 (data_A (_data self)) else O;
     has_constr := has_constr;
     equil_scaling := if _precond self then 8%nat else 7%nat;
     obj_scale := c |}.

(** What [ruiz] returns, without the rescaled [b]. *)
Definition drop_b {B : Backend}
  (t : matrix * ndarray * Q * matrix * ndarray * ndarray * Q)
  : matrix * ndarray * Q * matrix * ndarray * Q :=
  let '(P', q', r', A', _, scaling, c) := t in (P', q', r', A', scaling, c).

(** On the problem of [self], what [ruiz] returns for [b'] is, apart from the
    rescaled [b'] itself, what it returns for the [b] of the problem. *)
Definition ruiz_ignores_b {B : Backend} (self : QSS) (b' : ndarray) : Prop :=
  let d := _data self in
  drop_b (ruiz (data_P d) (data_q d) (data_r d) (data_A d) (data_b d))
  = drop_b (ruiz (data_P d) (data_q d) (data_r d) (data_A d) b').

(** On the problem [solve] hands to [polish] (the terms, [P], [q], [r], [A],
    the objective scale and the dimension of [self]), the polished iterate
    does not depend on [b]. *)
Definition polish_ignores_b {B : Backend} (self : QSS) : Prop :=
  let e := initial_env self in
  forall z scaling b1 b2,
    polish (g_list e) z (P e) (q e) (r e) (A e) b1 scaling (obj_scale e) (dim e)
    = polish (g_list e) z (P e) (q e) (r e) (A e) b2 scaling (obj_scale e) (dim e).

(** The fixed locals [e] with [b] replaced. *)
Definition env_with_b {B : Backend} (b' : ndarray) (e : env) : env :=
  {| P := P e; q := q e; r := r e; A := A e; b := b'; g_list := g_list e;
     alpha := alpha e; dim := dim e; constr_dim := constr_dim e;
     has_constr := has_constr e; equil_scaling := equil_scaling e;
     obj_scale := obj_scale e |}.

(** ** Concrete inputs *)

Definition ex_scaling : ndarray := [1; 2; 1; 1; 1].
Definition ex_x : ndarray := [3; -(1 # 2); 4; -3; 7].

(** An abs term on [[0, 2)] and a box term on [[2, 4)]. *)
Definition ex_terms : list term :=
  [ {| g := "abs"; args := None; range := (0, 2)%nat |};
    {| g := "indbox01"; args := None; range := (2, 4)%nat |} ].

Definition ex_heap : heap := [ex_scaling; ex_x].

Definition ex_point : ndarray := [3; 0; 1; 1].
Definition ex_target : ndarray := [5; 1 # 2; 5; 5].

Definition ex_solver : QSS := nonneg_solver (Cap 2).

(** [ex_solver] with the [reg] flag cleared. *)
Definition ex_solver_noreg : QSS := {|
  _data := nonneg_qp;
  _eps_abs := 1 # 10000;
  _eps_rel := 1 # 10000;
  _alpha := 14 # 10;
  _rho := 1 # 10;
  _max_iter := Cap 2;
  _precond := false;
  _reg := false;
  _use_iter_refinement := true;
  _polish := false;
  _verbose := false
|}.

(** The locals and the heap of [ex_solver] at the head of the main loop. *)
Definition ex_env : env := initial_env ex_solver.

Definition ex_frame : frame := {|
  iter_num := 0; rho := 1 # 10;
  xk := 0%nat; zk := 1%nat; uk := 2%nat;
  xk1 := 3%nat; zk1 := 4%nat; uk1 := 5%nat; nuk1 := 6%nat;
  quad_kkt := [11 # 10; 11 # 10]; quad_kkt_reg := None;
  F := [11 # 10; 11 # 10]
|}.

Definition ex_loop_heap : heap :=
  [[0; 0]; [0; 0]; [0; 0]; [0; 0]; [0; 0]; [0; 0]; [0; 0]; [1; 1]].

(** Locals at the end of a tenth iteration, with [x], [z] and [u] in the first
    three buffers of [ex_tenth_heap]. *)
Definition ex_tenth_frame : frame := {|
  iter_num := 10; rho := 1 # 10;
  xk := 0%nat; zk := 1%nat; uk := 2%nat;
  xk1 := 0%nat; zk1 := 1%nat; uk1 := 2%nat; nuk1 := 6%nat;
  quad_kkt := [11 # 10; 11 # 10]; quad_kkt_reg := None;
  F := [11 # 10; 11 # 10]
|}.

Definition ex_tenth_heap : heap := [[1; 1]; [1; 1]; [2; 2]].
(** ** Further solver instances compared by the properties *)

(** The solver [self] with another iteration cap. *)
Definition with_max_iter {B : Backend} (cap : iter_cap) (self : QSS) : QSS :=
  {| _data := _data self; _eps_abs := _eps_abs self; _eps_rel := _eps_rel self;
     _alpha := _alpha self; _rho := _rho self; _max_iter := cap;
     _precond := _precond self; _reg := _reg self;
     _use_iter_refinement := _use_iter_refinement self;
     _polish := _polish self; _verbose := _verbose self |}.

(** The solver [self] with another setting of [use_iter_refinement]. *)
Definition with_iter_refinement {B : Backend} (flag : bool) (self : QSS) : QSS :=
  {| _data := _data self; _eps_abs := _eps_abs self; _eps_rel := _eps_rel self;
     _alpha := _alpha self; _rho := _rho self; _max_iter := _max_iter self;
     _precond := _precond self; _reg := _reg self;
     _use_iter_refinement := flag;
     _polish := _polish self; _verbose := _verbose self |}.

(** ** Notions for the errors of [get_subdifferential] *)

(** An abs-kind term whose non-empty range leaves [x]. *)
Definition overruns (x : ndarray) (t : term) : Prop :=
  g t = "abs" /\ (fst (range t) < snd (range t))%nat
  /\ (length x < snd (range t))%nat.

(** ** The domain of a kind

    Where the function of the kind is finite: [g_indge0] tests [v >= 0],
    [g_indbox01] tests [0 <= v <= 1], [g_is_zero] tests [v == 0]; [g_zero] and
    [g_abs] are finite everywhere. *)
Definition in_domain (k : Spec.kind) (u : Q) : Prop :=
  match k with
  | Spec.Zero | Spec.Abs => True
  | Spec.IndicatorNonneg => 0 <= u
  | Spec.IndicatorBox01 => 0 <= u /\ u <= 1
  | Spec.IndicatorZero => u == 0
  end.

(** ** Further concrete inputs *)

(** The two terms of [ex_terms]. *)
Definition ex_abs_term : term := {| g := "abs"; args := None; range := (0, 2)%nat |}.
Definition ex_box_term : term := {| g := "indbox01"; args := None; range := (2, 4)%nat |}.

(** A term with an empty range. *)
Definition ex_empty_term : term := {| g := "abs"; args := None; range := (3, 3)%nat |}.

(** ** proximal.py: the separable functions

    The indicator functions return [np.inf], so values are rationals extended
    with the infinities and NaN; the arithmetic on them is the one of IEEE
    floats on these special values ([0 * inf] and [inf - inf] are NaN). *)

Inductive ext :=
| Fin (q : Q)
| PInf
| NInf
| NaN.

(** [w * e] for a finite number [w]. *)
Definition ext_scale (w : Q) (e : ext) : ext :=
  match e with
  | Fin q => Fin (w * q)
  | PInf => if Qltb 0 w then PInf else if Qltb w 0 then NInf else NaN
  | NInf => if Qltb 0 w then NInf else if Qltb w 0 then PInf else NaN
  | NaN => NaN
  end.

Definition ext_add (a b : ext) : ext :=
  match a, b with
  | Fin p, Fin q => Fin (p + q)
  | NaN, _ | _, NaN => NaN
  | PInf, NInf | NInf, PInf => NaN
  | PInf, _ | _, PInf => PInf
  | NInf, _ | _, NInf => NInf
  end.

(** [np.sum] of an array of extended values. *)
Definition ext_sum (y : list ext) : ext := fold_left ext_add y (Fin 0).

(** Equality of extended values, up to [==] on the finite ones. *)
Definition ext_eq (a b : ext) : Prop :=
  match a, b with
  | Fin p, Fin q => p == q
  | PInf, PInf | NInf, NInf | NaN, NaN => True
  | _, _ => False
  end.

(** What a function of the table returns: a number ([0] or [np.inf]) or an
    array. *)
Inductive gval :=
| GNum (e : ext)
| GArr (a : ndarray).

(** [g_zero]: [0]. *)
Definition g_zero (v : ndarray) : gval := GNum (Fin 0).

(** [g_abs]: [np.abs(v)], elementwise. *)
Definition g_abs (v : ndarray) : gval := GArr (map Qabs v).

(** [g_indge0]: [0] if [np.all(v >= 0)], else [np.inf]. *)
Definition g_indge0 (v : ndarray) : gval :=
  GNum (if forallb (fun x => Qle_bool 0 x) v then Fin 0 else PInf).

(** [g_indbox01]: [0] if [np.all(np.logical_and(v >= 0, v <= 1))], else
    [np.inf]. *)
Definition g_indbox01 (v : ndarray) : gval :=
  GNum (if forallb (fun x => Qle_bool 0 x && Qle_bool x 1) v then Fin 0 else PInf).

(** [g_is_zero]: [0] if [np.all(v == 0)], else [np.inf]. *)
Definition g_is_zero (v : ndarray) : gval :=
  GNum (if forallb (fun x => Qeq_bool x 0) v then Fin 0 else PInf).

(** The table [g_funcs]. *)
Definition g_funcs (name : string) : option (ndarray -> gval) :=
  if String.eqb name "zero" then Some g_zero
  else if String.eqb name "abs" then Some g_abs
  else if String.eqb name "indge0" then Some g_indge0
  else if String.eqb name "indbox01" then Some g_indbox01
  else if String.eqb name "is_zero" then Some g_is_zero
  else None.

(** The body of the loop of [apply_g_funcs] for one term (lines 89-107):
    [y[start:end] = weight * func(scale * x[start:end] - shift)]. *)
Definition g_term (x : ndarray) (y : list ext) (t : term) : res (list ext) :=
  let weight := arg_or 1 weight t in
  let scale := arg_or 1 scale t in
  let shift := arg_or 0 shift t in
  let '(start_index, end_index) := range t in
  match g_funcs (g t) with
  | None => Raise KeyError
  | Some func =>
      let k := length (take (end_index - start_index) (drop start_index y)) in
      match func (map (fun z => scale * z - shift) (slice start_index end_index x)) with
      | GNum c =>
          Ok (take start_index y ++ repeat (ext_scale weight c) k
              ++ drop (start_index + k) y)
      | GArr a =>
          let rhs := map (fun q => Fin (weight * q)) a in
          if (length rhs =? k)%nat
          then Ok (take start_index y ++ rhs ++ drop (start_index + k) y)
          else if (length rhs =? 1)%nat
               then Ok (take start_index y ++ repeat (hd (Fin 0) rhs) k
                        ++ drop (start_index + k) y)
               else Raise ValueError
      end
  end.

(** [apply_g_funcs(g_list, x)].  It reads [x], fills a local array [y] and
    returns a number, so it is a function of the contents of [x]. *)
Definition apply_g_funcs (g_list : list term) (x : ndarray) : res ext :=
  match foldM (g_term x) g_list (repeat (Fin 0) (length x)) with
  | Ok y => Ok (ext_sum y)
  | Raise e => Raise e
  end.

(** Every entry of [scale * x[range] - shift] is in the domain of the kind of
    the term. *)
Definition term_satisfied (t : term) (x : ndarray) : Prop :=
  match Spec.kind_of (g t) with
  | Some k =>
      Forall (in_domain k)
        (map (fun z => arg_or 1 scale t * z - arg_or 0 shift t)
           (slice (fst (range t)) (snd (range t)) x))
  | None => False
  end.

(** Every term of the list is disjoint from all the others. *)
Definition disjoint_ranges (g_list : list term) : Prop :=
  forall pre t post,
    g_list = pre ++ t :: post ->
    forall t', t' ∈ pre ++ post -> forall i, ~ (Spec.covers t i /\ Spec.covers t' i).

(** The values a term of a known kind assigns to its slice of [y]: the array
    [weight * np.abs(...)] for ["abs"], the number [weight * func(...)]
    broadcast to the slice for the others. *)
Definition g_written (x : ndarray) (t : term) : list ext :=
  let v := map (fun z => arg_or 1 scale t * z - arg_or 0 shift t)
             (slice (fst (range t)) (snd (range t)) x) in
  match g_funcs (g t) with
  | Some func =>
      match func v with
      | GNum c => repeat (ext_scale (arg_or 1 weight t) c) (length v)
      | GArr a => map (fun q => Fin (arg_or 1 weight t * q)) a
      end
  | None => []
  end.

(** The value of a function of a kind at a vector: the sum of the absolute
    values, or [0] on the domain of an indicator and [inf] off it. *)
Definition g_value (k : Spec.kind) (v : ndarray) : ext :=
  match k with
  | Spec.Zero => Fin 0
  | Spec.Abs => Fin (fold_right Qplus 0 (map Qabs v))
  | Spec.IndicatorNonneg =>
      if forallb (fun x => Qle_bool 0 x) v then Fin 0 else PInf
  | Spec.IndicatorBox01 =>
      if forallb (fun x => Qle_bool 0 x && Qle_bool x 1) v then Fin 0 else PInf
  | Spec.IndicatorZero =>
      if forallb (fun x => Qeq_bool x 0) v then Fin 0 else PInf
  end.

(** [weight * g(scale * x[range] - shift)] for one term. *)
Definition term_value (x : ndarray) (t : term) : ext :=
  match Spec.kind_of (g t) with
  | Some k =>
      ext_scale (arg_or 1 weight t)
        (g_value k (map (fun z => arg_or 1 scale t * z - arg_or 0 shift t)
                      (slice (fst (range t)) (snd (range t)) x)))
  | None => NaN
  end.

(** The sum over the terms of [weight * g(scale * x[range] - shift)]. *)
Definition evaluateSum (g_list : list term) (x : ndarray) : ext :=
  fold_left (fun acc t => ext_add acc (term_value x t)) g_list (Fin 0).

(** A finite, nonnegative value. *)
Definition fin_nonneg (e : ext) : Prop :=
  match e with Fin q => 0 <= q | _ => False end.

Definition is_fin (e : ext) : Prop :=
  match e with Fin _ => True | _ => False end.

(** A term that names no function of the tables, and a ["zero"] term over the
    whole of a vector of five entries. *)
Definition ex_unknown_term : term := {| g := "huber"; args := None; range := (0, 2)%nat |}.
Definition ex_cover_term : term := {| g := "zero"; args := None; range := (0, 5)%nat |}.

(** ** Collaborators that read [b]

    [precondition.ruiz] and [polish.polish] both receive [b] (lines 80 and
    168-170).  The instance below is [diag_backend] with an equilibration that
    moves [q] by the largest entry of [b] and a polisher that moves the
    iterate by it: what [solve] does with collaborators that use [b]. *)

Definition b_reading_backend : Backend := {|
  matrix := list Q;
  factor := list Q;
  shape0 := fun m => length m;
  nnz := fun m => length (filter (fun x => Qeq_bool x 0 = false) m);
  sp_identity := fun n => repeat 1 n;
  sp_diags := fun v => v;
  mscale := fun c m => map (Qmult c) m;
  madd := fun m n => zip_with Qplus m n;
  msub := fun m n => zip_with Qminus m n;
  ruiz := fun P q r A b =>
    (P, map (fun x => x - max_abs b) q, r, A, b, repeat 1 (length P), 1);
  build_kkt := fun P A reg rho dim constr_dim =>
    map (fun p => p + rho) P ++ repeat reg constr_dim;
  ir_solve := fun kkt f rhs => diag_solve f rhs;
  Solver := fun m => m;
  F_solve := diag_solve;
  F_update := fun f m => m;
  polish := fun g z P q r A b scaling c dim => map (fun x => x + max_abs b) z;
  evaluate_objective := fun P q r g z c scaling =>
    (1 # 2) * dot z (zip_with Qmult P z) + dot q z + r;
  evaluate_stop_crit := fun x z z1 u dim rho eps_abs eps_rel =>
    Qle_bool (max_abs (zip_with Qminus x z1)) eps_abs
    && Qle_bool (rho * max_abs (zip_with Qminus z z1)) eps_abs;
  norm_inf := max_abs;
  norm := max_abs;
  sqrt := fun x => x
|}.

(** [nonneg_qp] with a constraint matrix of one row and no stored entry,
    [A = [0]] and [b = [0]], over either instance, and a solver on it with
    one iteration allowed. *)
Definition zero_row_qp (B : Backend) (A0 : @matrix B) (P0 : @matrix B)
  : @problem B := {|
  data_P := P0;
  data_q := [-(1); -(1)];
  data_r := 0;
  data_A := A0;
  data_b := [0];
  data_g := [{| g := "indge0"; args := None; range := (0, 2)%nat |}]
|}.

Definition zero_row_solver (B : Backend) (A0 P0 : @matrix B)
  (precond polish : bool) : @QSS B := {|
  _data := zero_row_qp B A0 P0;
  _eps_abs := 1 # 10000;
  _eps_rel := 1 # 10000;
  _alpha := 14 # 10;
  _rho := 1 # 10;
  _max_iter := Cap 1;
  _precond := precond;
  _reg := true;
  _use_iter_refinement := true;
  _polish := polish;
  _verbose := false
|}.

(** The solvers of the examples: with the collaborators that read [b], one
    with polishing on and one with preconditioning on; with [diag_backend],
    both on. *)
Definition polishing_solver : @QSS b_reading_backend :=
  zero_row_solver b_reading_backend [0] [1; 1] false true.

Definition preconditioned_solver : @QSS b_reading_backend :=
  zero_row_solver b_reading_backend [0] [1; 1] true false.

Definition zero_row_diag_solver : @QSS diag_backend :=
  zero_row_solver diag_backend [0] [1; 1] true true.

(** A heap with an all-ones scaling and [ex_x]. *)
Definition ex_unit_heap : heap := [[1; 1; 1; 1; 1]; ex_x].

(** * Properties *)

(** ** Comparisons and elementwise operations *)

Lemma Qltb_lt (x y : Q) : Qltb x y = true <-> x < y.
Proof.
  unfold Qltb. rewrite negb_true_iff.
  destruct (Qle_bool y x) eqn:E.
  - apply Qle_bool_iff in E. split; [discriminate | lra].
  - split; [intros _ | reflexivity].
    destruct (Qlt_le_dec x y) as [H | H]; [exact H |].
    apply Qle_bool_iff in H. congruence.
Qed.

Lemma Qltb_ge (x y : Q) : Qltb x y = false <-> y <= x.
Proof.
  unfold Qltb. rewrite negb_false_iff. apply Qle_bool_iff.
Qed.

Lemma Qle_bool_false (x y : Q) : Qle_bool x y = false <-> y < x.
Proof.
  rewrite <- Qltb_lt. unfold Qltb. rewrite negb_true_iff. reflexivity.
Qed.

Lemma Qmax_ltb (x : Q) : Qmax x 0 = if Qltb x 0 then 0 else x.
Proof.
  unfold Qmax, GenericMinMax.gmax.
  destruct (x ?= 0) eqn:E.
  - apply Qeq_alt in E. destruct (Qltb x 0) eqn:L; [| reflexivity].
    apply Qltb_lt in L. lra.
  - apply Qlt_alt in E. apply Qltb_lt in E. now rewrite E.
  - apply Qgt_alt in E. destruct (Qltb x 0) eqn:L; [| reflexivity].
    apply Qltb_lt in L. lra.
Qed.

Lemma Qmin_1_le (x : Q) : Qmin 1 x = if Qle_bool 1 x then 1 else x.
Proof.
  unfold Qmin, GenericMinMax.gmin.
  destruct (1 ?= x) eqn:E.
  - apply Qeq_alt in E. destruct (Qle_bool 1 x) eqn:L; [reflexivity |].
    apply Qle_bool_false in L. lra.
  - apply Qlt_alt in E. destruct (Qle_bool 1 x) eqn:L; [reflexivity |].
    apply Qle_bool_false in L. lra.
  - apply Qgt_alt in E. destruct (Qle_bool 1 x) eqn:L; [| reflexivity].
    apply Qle_bool_iff in L. lra.
Qed.

Lemma Qmax_0_le (x : Q) : Qmax 0 x = if Qle_bool x 0 then 0 else x.
Proof.
  unfold Qmax, GenericMinMax.gmax.
  destruct (0 ?= x) eqn:E.
  - apply Qeq_alt in E. destruct (Qle_bool x 0) eqn:L; [reflexivity |].
    apply Qle_bool_false in L. lra.
  - apply Qlt_alt in E. destruct (Qle_bool x 0) eqn:L; [| reflexivity].
    apply Qle_bool_iff in L. lra.
  - apply Qgt_alt in E. destruct (Qle_bool x 0) eqn:L; [reflexivity |].
    apply Qle_bool_false in L. lra.
Qed.

Lemma broadcast2_same (f : Q -> Q -> Q) (a b : ndarray) :
  length a = length b -> broadcast2 f a b = Ok (zip_with f a b).
Proof.
  intros E. unfold broadcast2. now rewrite E, Nat.eqb_refl.
Qed.

Lemma zip_with_map_map (f : Q -> Q -> Q) (f1 f2 : Q -> Q) (a : ndarray) :
  zip_with f (map f1 a) (map f2 a) = map (fun x => f (f1 x) (f2 x)) a.
Proof.
  induction a as [| x a IH]; simpl; [reflexivity | now rewrite IH].
Qed.

Lemma zip_with_map_l (f : Q -> Q -> Q) (f1 : Q -> Q) (a b : ndarray) :
  zip_with f (map f1 a) b = zip_with (fun x y => f (f1 x) y) a b.
Proof.
  revert b. induction a as [| x a IH]; intros [| y b]; simpl; try reflexivity.
  now rewrite IH.
Qed.

Lemma zip_with_zip_with_same (f fa fb : Q -> Q -> Q) (a b : ndarray) :
  zip_with f (zip_with fa a b) (zip_with fb a b)
  = zip_with (fun x y => f (fa x y) (fb x y)) a b.
Proof.
  revert b. induction a as [| x a IH]; intros [| y b]; simpl; try reflexivity.
  now rewrite IH.
Qed.

Lemma lookup_repeat (c : Q) (n i : nat) :
  (i < n)%nat -> repeat c n !! i = Some c.
Proof.
  revert i. induction n as [| n IH]; intros [| i] Hi; simpl; try lia.
  - reflexivity.
  - apply IH. lia.
Qed.

(** ** Running heap computations *)

Lemma bind_Ok {A B} (m : M A) (k : A -> M B) (h h' : heap) (a : A) :
  m h = Ok (a, h') -> bind m k h = k a h'.
Proof. intros E. unfold bind. now rewrite E. Qed.

Lemma bind_Raise {A B} (m : M A) (k : A -> M B) (h : heap) (e : exn) :
  m h = Raise e -> bind m k h = Raise e.
Proof. intros E. unfold bind. now rewrite E. Qed.

Lemma get_Ok (l : loc) (a : ndarray) (h : heap) :
  h !! l = Some a -> get l h = Ok (a, h).
Proof. intros E. unfold get. now rewrite E. Qed.

Lemma put_Ok (l : loc) (a : ndarray) (h : heap) :
  (l < length h)%nat -> put l a h = Ok (tt, <[l:=a]> h).
Proof.
  intros L. unfold put. apply Nat.ltb_lt in L. now rewrite L.
Qed.

Lemma alloc_Ok (a : ndarray) (h : heap) : alloc a h = Ok (length h, h ++ [a]).
Proof. reflexivity. Qed.

Lemma lift_Ok {A} (a : A) (h : heap) : lift (Ok a) h = Ok (a, h).
Proof. reflexivity. Qed.

(** One step of a computation whose first action is known to succeed. *)
Ltac run_get H := rewrite (bind_Ok _ _ _ _ _ (get_Ok _ _ _ H)).
Ltac run_alloc := rewrite (bind_Ok _ _ _ _ _ (alloc_Ok _ _)).
Ltac run_zip tac :=
  erewrite bind_Ok by (rewrite broadcast2_same by tac; apply lift_Ok).

Lemma lookup_alloc (h : heap) (a : ndarray) : (h ++ [a]) !! length h = Some a.
Proof. rewrite lookup_app_r by lia. now rewrite Nat.sub_diag. Qed.

Lemma lookup_alloc_old (h : heap) (a : ndarray) (l : loc) :
  (l < length h)%nat -> (h ++ [a]) !! l = h !! l.
Proof. intros L. now apply lookup_app_l. Qed.

(** ** The proximal operators *)

(** C9. The proximal operator of the zero kind is the identity: the entry
    ["zero"] of the table is [prox_zero], and for every penalty and every
    argument it returns the argument itself and changes no buffer. *)
Theorem prox_zero_identity :
  prox_ops "zero" = Some prox_zero
  /\ forall (rho v : value) (h : heap), prox_zero rho v h = Ok (v, h).
Proof. split; reflexivity. Qed.

Lemma soft_threshold_shrink (rho x : Q) :
  0 < rho -> Spec.soft_threshold rho x == Spec.shrink (1 / rho) x.
Proof.
  intros Hrho.
  assert (K : 0 < 1 / rho).
  { unfold Qdiv. rewrite Qmult_1_l. now apply Qinv_lt_0_compat. }
  unfold Spec.soft_threshold, Spec.shrink.
  set (k := 1 / rho) in *.
  destruct (Qltb k x) eqn:E1.
  - apply Qltb_lt in E1.
    rewrite (Q.max_l (x - k) 0) by lra. rewrite (Q.max_r (- x - k) 0) by lra. lra.
  - apply Qltb_ge in E1. destruct (Qltb x (- k)) eqn:E2.
    + apply Qltb_lt in E2.
      rewrite (Q.max_r (x - k) 0) by lra. rewrite (Q.max_l (- x - k) 0) by lra. lra.
    + apply Qltb_ge in E2.
      rewrite (Q.max_r (x - k) 0) by lra. rewrite (Q.max_r (- x - k) 0) by lra. lra.
Qed.

(** [prox_abs] with a scalar penalty on an array. *)
Lemma prox_abs_scalar (rho : Q) (l : loc) (a : ndarray) (h : heap) :
  h !! l = Some a ->
  prox_abs (Num rho) (Ref l) h
  = Ok (Ref (length h), h ++ [map (Spec.soft_threshold rho) a]).
Proof.
  intros Hl. unfold prox_abs. simpl.
  unfold bind at 1. unfold ret.
  unfold bind at 1. unfold bind at 1. rewrite (get_Ok _ _ _ Hl).
  unfold bind, lift, alloc, ret. simpl.
  rewrite !broadcast2_same by (now rewrite !length_map).
  rewrite !map_map. rewrite zip_with_map_map. reflexivity.
Qed.

Lemma soft_threshold_zip (r a : ndarray) :
  zip_with Qminus
    (map (fun x => Qmax x 0) (zip_with Qminus a (map (Qdiv 1) r)))
    (map (fun x => Qmax x 0) (zip_with Qminus (map Qopp a) (map (Qdiv 1) r)))
  = zip_with Spec.soft_threshold r a.
Proof.
  revert a. induction r as [| p r IH]; intros [| x a]; simpl; try reflexivity.
  now rewrite IH.
Qed.

Lemma load_Ref (l : loc) (a : ndarray) (h : heap) :
  h !! l = Some a -> load (Ref l) h = Ok (Ar a, h).
Proof. intros E. simpl. unfold bind. now rewrite (get_Ok _ _ _ E). Qed.

Lemma lift_binop_arrays (f : Q -> Q -> Q) (a b : ndarray) (h : heap) :
  length a = length b ->
  lift (np_binop f (Ar a) (Ar b)) h = Ok (Ar (zip_with f a b), h).
Proof. intros E. unfold lift. simpl. now rewrite broadcast2_same. Qed.

(** [prox_abs] with one penalty per coordinate. *)
Lemma prox_abs_array (lr l : loc) (r a : ndarray) (h : heap) :
  h !! lr = Some r -> h !! l = Some a -> length r = length a ->
  prox_abs (Ref lr) (Ref l) h
  = Ok (Ref (length h), h ++ [Spec.proximal Spec.Abs r a]).
Proof.
  intros Hr Hl Hlen. unfold prox_abs.
  rewrite (bind_Ok _ _ _ _ _ (load_Ref _ _ _ Hr)).
  rewrite (bind_Ok _ _ _ _ _ (load_Ref _ _ _ Hl)).
  erewrite bind_Ok by reflexivity.
  erewrite bind_Ok by (apply lift_binop_arrays; rewrite length_map; lia).
  erewrite bind_Ok by reflexivity.
  erewrite bind_Ok by reflexivity.
  erewrite bind_Ok
    by (apply lift_binop_arrays; rewrite !length_map; lia).
  erewrite bind_Ok by reflexivity.
  erewrite bind_Ok
    by (apply lift_binop_arrays;
        rewrite !length_map, !length_zip_with, !length_map; lia).
  simpl. unfold bind, alloc, ret. now rewrite soft_threshold_zip.
Qed.

(** C4. For every penalty [rho > 0] and every array [a], [prox_abs] returns a
    fresh array holding the elementwise soft-threshold
    [max(v - 1/rho, 0) - max(-v - 1/rho, 0)] of [a] and leaves every existing
    buffer as it was; each entry is the shrinkage of [v] by [1/rho]; and
    applied with penalty 1 to the number 3 it returns exactly 2. *)
Theorem prox_abs_soft_threshold (rho : Q) (l : loc) (a : ndarray) (h : heap) :
  0 < rho ->
  h !! l = Some a ->
  prox_abs (Num rho) (Ref l) h
    = Ok (Ref (length h), h ++ [map (Spec.soft_threshold rho) a])
  /\ Forall (fun v => Spec.soft_threshold rho v == Spec.shrink (1 / rho) v) a
  /\ prox_abs (Num 1) (Num 3) h = Ok (Num 2, h).
Proof.
  intros Hrho Hl. split; [| split].
  - now apply prox_abs_scalar.
  - apply Forall_forall. intros x _. now apply soft_threshold_shrink.
  - reflexivity.
Qed.

Lemma prox_abs_soft_threshold_witness :
  prox_abs (Num 2) (Ref 0%nat) [[3; -(1 # 4); -2]]
    = Ok (Ref 1%nat, [[3; -(1 # 4); -2]]
                       ++ [map (Spec.soft_threshold 2) [3; -(1 # 4); -2]])
  /\ Forall (fun v => Spec.soft_threshold 2 v == Spec.shrink (1 / 2) v)
            [3; -(1 # 4); -2]
  /\ prox_abs (Num 1) (Num 3) [[3; -(1 # 4); -2]]
     = Ok (Num 2, [[3; -(1 # 4); -2]]).
Proof.
  apply (prox_abs_soft_threshold 2 0%nat [3; -(1 # 4); -2] [[3; -(1 # 4); -2]]);
    reflexivity.
Defined.

Lemma prox_indge0_run (rho : value) (l : loc) (r v : ndarray) (h : heap) :
  h !! l = Some v ->
  prox_indge0 rho (Ref l) h
  = Ok (Ref l, <[l:=Spec.proximal Spec.IndicatorNonneg r v]> h).
Proof.
  intros Hl. unfold prox_indge0.
  run_get Hl.
  erewrite bind_Ok by (apply put_Ok; eapply lookup_lt_Some; eassumption).
  unfold ret. simpl. do 3 f_equal.
  apply map_ext. intros x. now rewrite Qmax_ltb.
Qed.

Lemma prox_indbox01_run (rho : value) (l : loc) (r v : ndarray) (h : heap) :
  h !! l = Some v ->
  prox_indbox01 rho (Ref l) h
  = Ok (Ref l, <[l:=Spec.proximal Spec.IndicatorBox01 r v]> h).
Proof.
  intros Hl. unfold prox_indbox01.
  assert (L : (l < length h)%nat) by (eapply lookup_lt_Some; eassumption).
  run_get Hl.
  erewrite bind_Ok by (apply put_Ok; exact L).
  erewrite bind_Ok by (apply get_Ok; apply list_lookup_insert_eq; exact L).
  erewrite bind_Ok by (apply put_Ok; rewrite length_insert; exact L).
  unfold ret. rewrite list_insert_insert_eq. simpl. do 3 f_equal.
  rewrite map_map. apply map_ext. intros x.
  unfold Spec.clamp01. now rewrite Qmin_1_le, Qmax_0_le.
Qed.

Lemma prox_is_zero_run (rho : value) (l : loc) (r v : ndarray) (h : heap) :
  h !! l = Some v ->
  prox_is_zero rho (Ref l) h
  = Ok (Ref (length h), h ++ [Spec.proximal Spec.IndicatorZero r v]).
Proof.
  intros Hl. unfold prox_is_zero.
  run_get Hl. reflexivity.
Qed.

Lemma clamp01_bounds (x : Q) : 0 <= Spec.clamp01 x /\ Spec.clamp01 x <= 1.
Proof.
  unfold Spec.clamp01. split.
  - apply Q.le_max_l.
  - apply Q.max_lub; [lra | apply Q.le_min_l].
Qed.

(** C5. For every array [v] and every penalty, [prox_indbox01] overwrites [v]
    with an array of the same length whose entries all lie in [[0, 1]], and
    [prox_indge0] overwrites [v] with an array of the same length whose
    entries are all nonnegative; both return [v] itself. *)
Theorem prox_indicator_ranges (rho : value) (l : loc) (v : ndarray) (h : heap) :
  h !! l = Some v ->
  (exists out,
      prox_indbox01 rho (Ref l) h = Ok (Ref l, <[l:=out]> h)
      /\ length out = length v
      /\ Forall (fun y => 0 <= y /\ y <= 1) out)
  /\ (exists out,
      prox_indge0 rho (Ref l) h = Ok (Ref l, <[l:=out]> h)
      /\ length out = length v
      /\ Forall (fun y => 0 <= y) out).
Proof.
  intros Hl. split.
  - exists (Spec.proximal Spec.IndicatorBox01 [] v). split; [| split].
    + now apply prox_indbox01_run.
    + simpl. apply length_map.
    + simpl. apply Forall_forall. intros y Hy.
      apply list_elem_of_In, in_map_iff in Hy. destruct Hy as (x & <- & _).
      apply clamp01_bounds.
  - exists (Spec.proximal Spec.IndicatorNonneg [] v). split; [| split].
    + now apply prox_indge0_run.
    + simpl. apply length_map.
    + simpl. apply Forall_forall. intros y Hy.
      apply list_elem_of_In, in_map_iff in Hy. destruct Hy as (x & <- & _).
      apply Q.le_max_r.
Qed.

Lemma prox_indicator_ranges_witness :
  (exists out,
      prox_indbox01 (Num 1) (Ref 0%nat) [[3; 1 # 2; -2]]
        = Ok (Ref 0%nat, <[0%nat:=out]> [[3; 1 # 2; -2]])
      /\ length out = length [3; 1 # 2; -2]
      /\ Forall (fun y => 0 <= y /\ y <= 1) out)
  /\ (exists out,
      prox_indge0 (Num 1) (Ref 0%nat) [[3; 1 # 2; -2]]
        = Ok (Ref 0%nat, <[0%nat:=out]> [[3; 1 # 2; -2]])
      /\ length out = length [3; 1 # 2; -2]
      /\ Forall (fun y => 0 <= y) out).
Proof.
  apply (prox_indicator_ranges (Num 1) 0%nat [3; 1 # 2; -2] [[3; 1 # 2; -2]]).
  reflexivity.
Defined.

(** ** The driver [apply_prox_ops] *)

Lemma kind_of_cases (name : string) (k : Spec.kind) :
  Spec.kind_of name = Some k ->
  (name = "zero" /\ k = Spec.Zero)
  \/ (name = "abs" /\ k = Spec.Abs)
  \/ (name = "indge0" /\ k = Spec.IndicatorNonneg)
  \/ (name = "indbox01" /\ k = Spec.IndicatorBox01)
  \/ (name = "is_zero" /\ k = Spec.IndicatorZero).
Proof.
  unfold Spec.kind_of.
  repeat match goal with
         | |- context [String.eqb name ?s] =>
             let E := fresh "E" in
             destruct (String.eqb name s) eqn:E;
             [apply String.eqb_eq in E; intros [= <-]; tauto |]
         end.
  discriminate.
Qed.

Lemma proximal_length (k : Spec.kind) (r v : ndarray) :
  length r = length v -> length (Spec.proximal k r v) = length v.
Proof.
  intros E. destruct k; simpl;
    rewrite ?length_zip_with, ?length_map, ?repeat_length; lia.
Qed.

(** Every operator of the table computes the proximal operator of its kind;
    it writes to no buffer but its argument. *)
Lemma prox_ops_run (name : string) (k : Spec.kind) :
  Spec.kind_of name = Some k ->
  exists prox,
    prox_ops name = Some prox
    /\ forall (lr lv : loc) (r v : ndarray) (h : heap),
        h !! lr = Some r -> h !! lv = Some v -> lr <> lv ->
        length r = length v ->
        exists l' h',
          prox (Ref lr) (Ref lv) h = Ok (Ref l', h')
          /\ h' !! l' = Some (Spec.proximal k r v)
          /\ (forall j, (j < length h)%nat -> j <> lv -> h' !! j = h !! j)
          /\ (length h <= length h')%nat.
Proof.
  intros Hk.
  destruct (kind_of_cases _ _ Hk)
    as [[-> ->] | [[-> ->] | [[-> ->] | [[-> ->] | [-> ->]]]]].
  - exists prox_zero. split; [reflexivity |].
    intros lr lv r v h Hr Hv Hne Hlen. exists lv, h. simpl. auto.
  - exists prox_abs. split; [reflexivity |].
    intros lr lv r v h Hr Hv Hne Hlen. exists (length h), (h ++ [Spec.proximal Spec.Abs r v]).
    split; [now apply prox_abs_array |]. split; [apply lookup_alloc |].
    split; [intros j Hj _; now apply lookup_alloc_old |].
    rewrite length_app. lia.
  - exists prox_indge0. split; [reflexivity |].
    intros lr lv r v h Hr Hv Hne Hlen.
    exists lv, (<[lv:=Spec.proximal Spec.IndicatorNonneg r v]> h).
    split; [now apply prox_indge0_run |].
    split; [apply list_lookup_insert_eq; eapply lookup_lt_Some; eassumption |].
    split; [intros j _ Hj; now apply list_lookup_insert_ne |].
    rewrite length_insert. lia.
  - exists prox_indbox01. split; [reflexivity |].
    intros lr lv r v h Hr Hv Hne Hlen.
    exists lv, (<[lv:=Spec.proximal Spec.IndicatorBox01 r v]> h).
    split; [now apply prox_indbox01_run |].
    split; [apply list_lookup_insert_eq; eapply lookup_lt_Some; eassumption |].
    split; [intros j _ Hj; now apply list_lookup_insert_ne |].
    rewrite length_insert. lia.
  - exists prox_is_zero. split; [reflexivity |].
    intros lr lv r v h Hr Hv Hne Hlen.
    exists (length h), (h ++ [Spec.proximal Spec.IndicatorZero r v]).
    split; [now apply prox_is_zero_run |]. split; [apply lookup_alloc |].
    split; [intros j Hj _; now apply lookup_alloc_old |].
    rewrite length_app. lia.
Qed.

Lemma slice_length (s e : nat) (a : ndarray) :
  length (slice s e a) = Nat.min (e - s) (length a - s).
Proof. unfold slice. now rewrite length_take, length_drop. Qed.

Lemma splice_length (s : nat) (x out : ndarray) :
  (length out <= length x - s)%nat ->
  length (take s x ++ out ++ drop (s + length out) x) = length x.
Proof.
  intros H. rewrite !length_app, length_take, length_drop. lia.
Qed.

Lemma splice_lookup_outside (s i : nat) (x out : ndarray) :
  (length out <= length x - s)%nat ->
  (i < s \/ s + length out <= i)%nat ->
  (take s x ++ out ++ drop (s + length out) x) !! i = x !! i.
Proof.
  intros H Hi.
  destruct (decide (i < length x)%nat) as [Hlt | Hge].
  - destruct Hi as [Hi | Hi].
    + rewrite lookup_app_l by (rewrite length_take; lia).
      apply lookup_take_lt. lia.
    + rewrite lookup_app_r by (rewrite length_take; lia).
      rewrite lookup_app_r by (rewrite length_take; lia).
      rewrite lookup_drop. f_equal. rewrite length_take. lia.
  - rewrite (lookup_ge_None_2 x) by lia.
    apply lookup_ge_None_2. rewrite splice_length by exact H. lia.
Qed.

Lemma term_out_length (rho : Q) (eqv xv : ndarray) (k : Spec.kind)
  (s e : nat) (sc sh w : Q) :
  length eqv = length xv ->
  let ls := map (fun d => d * sc) (slice s e eqv) in
  let lp := map (fun n => rho / (w * n ^ 2)) ls in
  let v := map (fun y => y - sh) (zip_with Qmult ls (slice s e xv)) in
  length (zip_with Qdiv (map (fun y => y + sh) (Spec.proximal k lp v)) ls)
  = length (slice s e xv).
Proof.
  intros E ls lp v.
  assert (L1 : length ls = length (slice s e xv)).
  { unfold ls. rewrite length_map, !slice_length. lia. }
  assert (L2 : length v = length (slice s e xv)).
  { unfold v. rewrite length_map, length_zip_with. lia. }
  rewrite length_zip_with, length_map, proximal_length.
  - lia.
  - unfold lp. rewrite length_map. lia.
Qed.

Lemma term_update_length (rho : Q) (eqv xv : ndarray) (t : term) :
  length eqv = length xv ->
  length (Spec.term_update rho eqv t xv) = length xv.
Proof.
  intros E. unfold Spec.term_update. destruct (range t) as [s e].
  destruct (Spec.kind_of (g t)) as [k |]; [| reflexivity].
  apply splice_length. rewrite term_out_length by exact E.
  rewrite slice_length. lia.
Qed.

Lemma term_update_outside (rho : Q) (eqv xv : ndarray) (t : term) (i : nat) :
  length eqv = length xv ->
  ~ Spec.covers t i ->
  Spec.term_update rho eqv t xv !! i = xv !! i.
Proof.
  intros E Hi. unfold Spec.covers in Hi. unfold Spec.term_update.
  destruct (range t) as [s e]. simpl in Hi.
  destruct (Spec.kind_of (g t)) as [k |]; [| reflexivity].
  apply splice_lookup_outside; rewrite term_out_length by exact E;
    rewrite slice_length; lia.
Qed.

(** One term: the code overwrites the slice of [x] as the specification
    says, and changes no other existing buffer. *)
Lemma prox_term_run (rho : Q) (le lx : loc) (eqv xv : ndarray) (t : term)
  (h : heap) :
  h !! le = Some eqv -> h !! lx = Some xv -> le <> lx ->
  length eqv = length xv ->
  is_Some (Spec.kind_of (g t)) ->
  exists h',
    prox_term rho (Ref le) t (Ref lx) h = Ok (tt, h')
    /\ h' !! lx = Some (Spec.term_update rho eqv t xv)
    /\ (forall j, (j < length h)%nat -> j <> lx -> h' !! j = h !! j)
    /\ (length h <= length h')%nat.
Proof.
  intros He Hx Hne Hlen [k Hk].
  unfold prox_term, Spec.term_update. rewrite Hk.
  destruct (range t) as [s e].
  set (sc := arg_or 1 scale t). set (sh := arg_or 0 shift t).
  set (w := arg_or 1 weight t).
  set (ls := map (fun d => d * sc) (slice s e eqv)).
  set (lp := map (fun n => rho / (w * n ^ 2)) ls).
  set (v := map (fun y => y - sh) (zip_with Qmult ls (slice s e xv))).
  assert (Lle : (le < length h)%nat) by (eapply lookup_lt_Some; eassumption).
  assert (Llx : (lx < length h)%nat) by (eapply lookup_lt_Some; eassumption).
  assert (L1 : length ls = length (slice s e xv)).
  { unfold ls. rewrite length_map, !slice_length. lia. }
  assert (L2 : length v = length (slice s e xv)).
  { unfold v. rewrite length_map, length_zip_with. lia. }
  assert (L3 : length lp = length v).
  { unfold lp. rewrite length_map. lia. }
  destruct (prox_ops_run _ _ Hk) as (prox & Hprox & Hrun).
  rewrite Hprox.
  erewrite bind_Ok by reflexivity.
  run_get He.
  fold ls. fold lp.
  run_alloc.
  erewrite bind_Ok by reflexivity.
  erewrite bind_Ok
    by (apply get_Ok; rewrite lookup_alloc_old by exact Llx; exact Hx).
  run_zip ltac:(exact L1).
  fold v.
  run_alloc.
  set (h2 := (h ++ [lp]) ++ [v]).
  assert (Lh2 : length h2 = S (S (length h))).
  { unfold h2. rewrite !length_app. simpl. lia. }
  destruct (Hrun (length h) (length (h ++ [lp])) lp v h2)
    as (l' & h3 & Hp & Hl' & Hframe & Hgrow).
  { unfold h2. rewrite lookup_alloc_old by (rewrite length_app; simpl; lia).
    apply lookup_alloc. }
  { unfold h2. apply lookup_alloc. }
  { rewrite length_app. simpl. lia. }
  { exact L3. }
  rewrite (bind_Ok _ _ _ _ _ Hp).
  rewrite (bind_Ok _ _ _ _ _ (load_Ref _ _ _ Hl')).
  set (p := Spec.proximal k lp v) in *.
  assert (L4 : length (map (fun y => y + sh) p) = length ls).
  { rewrite length_map. unfold p. rewrite proximal_length by exact L3. lia. }
  erewrite bind_Ok by (apply lift_binop_arrays; exact L4).
  set (out := zip_with Qdiv (map (fun y => y + sh) p) ls).
  assert (L5 : length out = length (slice s e xv)).
  { unfold out. rewrite length_zip_with. lia. }
  assert (Hx3 : h3 !! lx = Some xv).
  { rewrite Hframe.
    - unfold h2.
      rewrite lookup_alloc_old by (rewrite length_app; simpl; lia).
      rewrite lookup_alloc_old by exact Llx. exact Hx.
    - lia.
    - rewrite length_app. simpl. lia. }
  unfold assign_slice.
  run_get Hx3.
  rewrite L5, Nat.eqb_refl.
  rewrite put_Ok by lia.
  eexists. split; [reflexivity |].
  split; [| split].
  - now rewrite list_lookup_insert_eq by lia.
  - intros j Hj Hjx. rewrite list_lookup_insert_ne by congruence.
    rewrite Hframe.
    + unfold h2.
      rewrite lookup_alloc_old by (rewrite length_app; simpl; lia).
      now rewrite lookup_alloc_old by exact Hj.
    + lia.
    + rewrite length_app. simpl. lia.
  - rewrite length_insert. lia.
Qed.

Lemma lookup_map (f : Q -> Q) (l : ndarray) (i : nat) :
  map f l !! i = f <$> l !! i.
Proof.
  revert i. induction l as [| x l IH]; intros [| i]; simpl; auto.
Qed.

Lemma slice_lookup (s e i : nat) (a : ndarray) :
  (s <= i < e)%nat -> slice s e a !! (i - s)%nat = a !! i.
Proof.
  intros Hi. unfold slice. rewrite lookup_take_lt by lia.
  rewrite lookup_drop. f_equal. lia.
Qed.

(** The operators act coordinate by coordinate. *)
Lemma proximal_lookup (k : Spec.kind) (r v : ndarray) (j : nat) (p y : Q) :
  r !! j = Some p -> v !! j = Some y ->
  Spec.proximal k r v !! j = Some (Spec.proximal1 k p y).
Proof.
  intros Hr Hv. destruct k; simpl.
  - exact Hv.
  - rewrite lookup_zip_with, Hr. simpl. now rewrite Hv.
  - now rewrite lookup_map, Hv.
  - now rewrite lookup_map, Hv.
  - apply lookup_repeat. eapply lookup_lt_Some; eassumption.
Qed.

(** Inside the range of a term, the new coordinate is the proximal operator
    of the kind applied to the scaled and shifted old coordinate, shifted and
    scaled back. *)
Lemma term_update_inside (rho : Q) (eqv xv : ndarray) (t : term)
  (k : Spec.kind) (i : nat) (d y : Q) :
  length eqv = length xv ->
  Spec.kind_of (g t) = Some k ->
  Spec.covers t i ->
  eqv !! i = Some d -> xv !! i = Some y ->
  let localScale := d * arg_or 1 scale t in
  let localPenalty := rho / (arg_or 1 weight t * localScale ^ 2) in
  Spec.term_update rho eqv t xv !! i
  = Some ((Spec.proximal1 k localPenalty (localScale * y - arg_or 0 shift t)
           + arg_or 0 shift t) / localScale).
Proof.
  intros Hlen Hk Hc Hd Hy. unfold Spec.covers in Hc. unfold Spec.term_update.
  rewrite Hk. destruct (range t) as [s e]. simpl in Hc. cbv zeta.
  set (sc := arg_or 1 scale t). set (sh := arg_or 0 shift t).
  set (w := arg_or 1 weight t).
  set (ls := map (fun d => d * sc) (slice s e eqv)).
  set (lp := map (fun n => rho / (w * n ^ 2)) ls).
  set (v := map (fun y => y - sh) (zip_with Qmult ls (slice s e xv))).
  assert (Hi : (i < length xv)%nat) by (eapply lookup_lt_Some; eassumption).
  assert (Hls : ls !! (i - s)%nat = Some (d * sc)).
  { unfold ls. rewrite lookup_map, slice_lookup by lia. now rewrite Hd. }
  assert (Hlp : lp !! (i - s)%nat = Some (rho / (w * (d * sc) ^ 2))).
  { unfold lp. now rewrite lookup_map, Hls. }
  assert (Hv : v !! (i - s)%nat = Some (d * sc * y - sh)).
  { unfold v. rewrite lookup_map, lookup_zip_with, Hls. simpl.
    rewrite slice_lookup by lia. now rewrite Hy. }
  rewrite lookup_app_r by (rewrite length_take; lia).
  rewrite length_take, Nat.min_l by lia.
  rewrite lookup_app_l.
  - rewrite lookup_zip_with, lookup_map.
    rewrite (proximal_lookup k lp v _ _ _ Hlp Hv). simpl. now rewrite Hls.
  - fold sc sh w ls lp v.
    pose proof (term_out_length rho eqv xv k s e sc sh w Hlen) as L.
    cbv zeta in L. fold ls lp v in L. rewrite L, slice_length. lia.
Qed.

Lemma applyProximalAll_length (rho : Q) (eqv : ndarray) (g_list : list term)
  (xv : ndarray) :
  length eqv = length xv ->
  length (Spec.applyProximalAll rho eqv g_list xv) = length xv.
Proof.
  revert xv. induction g_list as [| t rest IH]; intros xv E; simpl;
    [reflexivity |].
  unfold Spec.applyProximalAll in *. simpl.
  rewrite IH by (now rewrite term_update_length).
  now apply term_update_length.
Qed.

Lemma applyProximalAll_outside (rho : Q) (eqv : ndarray) (g_list : list term)
  (xv : ndarray) (i : nat) :
  length eqv = length xv ->
  (forall t, t ∈ g_list -> ~ Spec.covers t i) ->
  Spec.applyProximalAll rho eqv g_list xv !! i = xv !! i.
Proof.
  revert xv. induction g_list as [| t rest IH]; intros xv E Hout;
    [reflexivity |].
  unfold Spec.applyProximalAll in *. simpl.
  rewrite IH.
  - apply term_update_outside; [exact E |]. apply Hout. left.
  - now rewrite term_update_length.
  - intros t' Ht'. apply Hout. now right.
Qed.

Lemma apply_prox_ops_run (rho : Q) (le lx : loc) (eqv : ndarray)
  (g_list : list term) :
  Forall (fun t => is_Some (Spec.kind_of (g t))) g_list ->
  forall (xv : ndarray) (h : heap),
    h !! le = Some eqv -> h !! lx = Some xv -> le <> lx ->
    length eqv = length xv ->
    exists h',
      apply_prox_ops rho (Ref le) g_list (Ref lx) h = Ok (Ref lx, h')
      /\ h' !! lx = Some (Spec.applyProximalAll rho eqv g_list xv)
      /\ (forall j, (j < length h)%nat -> j <> lx -> h' !! j = h !! j)
      /\ (length h <= length h')%nat.
Proof.
  induction 1 as [| t rest Ht Hrest IH]; intros xv h He Hx Hne Hlen.
  - exists h. simpl. auto.
  - destruct (prox_term_run rho le lx eqv xv t h He Hx Hne Hlen Ht)
      as (h1 & Hrun & Hx1 & Hframe1 & Hgrow1).
    destruct (IH (Spec.term_update rho eqv t xv) h1) as (h2 & Hrun2 & Hx2 & Hframe2 & Hgrow2).
    + rewrite Hframe1; [exact He | | exact Hne].
      eapply lookup_lt_Some; eassumption.
    + exact Hx1.
    + exact Hne.
    + now rewrite term_update_length.
    + exists h2. simpl. rewrite (bind_Ok _ _ _ _ _ Hrun).
      split; [exact Hrun2 |]. split; [exact Hx2 |].
      split; [| lia].
      intros j Hj Hjx. rewrite Hframe2 by (auto; lia). now apply Hframe1.
Qed.

(** C2. [apply_prox_ops] processes the terms in order; for each one it
    overwrites [x[range]] with
    [(proximal(localPenalty, localScale * x[range] - shift) + shift) / localScale],
    where [localScale = equilScale[range] * scale] and
    [localPenalty = penalty / (weight * localScale^2)] (the function
    [Spec.applyProximalAll]).  It returns the buffer it was given, which now
    holds the result; every other existing buffer is as before, and so is
    every coordinate of [x] that lies in no term's range. *)
Theorem apply_prox_ops_in_place (rho : Q) (le lx : loc) (eqv xv : ndarray)
  (g_list : list term) (h : heap) :
  h !! le = Some eqv -> h !! lx = Some xv -> le <> lx ->
  length eqv = length xv ->
  Forall (fun t => is_Some (Spec.kind_of (g t))) g_list ->
  exists h',
    apply_prox_ops rho (Ref le) g_list (Ref lx) h = Ok (Ref lx, h')
    /\ h' !! lx = Some (Spec.applyProximalAll rho eqv g_list xv)
    /\ (forall j, (j < length h)%nat -> j <> lx -> h' !! j = h !! j)
    /\ (forall i, (forall t, t ∈ g_list -> ~ Spec.covers t i) ->
                  Spec.applyProximalAll rho eqv g_list xv !! i = xv !! i).
Proof.
  intros He Hx Hne Hlen Hk.
  destruct (apply_prox_ops_run rho le lx eqv g_list Hk xv h He Hx Hne Hlen)
    as (h' & Hrun & Hx' & Hframe & _).
  exists h'. repeat split; try assumption.
  intros i Hi. now apply applyProximalAll_outside.
Qed.

(** ** get_subdifferential *)

Lemma subdiff_at_run (x target output : ndarray) (i : nat) :
  (i < length x)%nat -> length target = length x ->
  subdiff_at x target output i = Ok (<[i:=subdiff_entry x target i]> output).
Proof.
  intros Hi Hlen. unfold subdiff_at, subdiff_entry, subdiff_value.
  destruct (lookup_lt_is_Some_2 x i Hi) as [xi ->].
  destruct (lookup_lt_is_Some_2 target i ltac:(lia)) as [ti ->].
  destruct (Qeq_bool xi 0) eqn:E0.
  - destruct (Qltb 1 ti); [reflexivity |]. now destruct (Qltb ti (-(1))).
  - destruct (Qltb 0 xi) eqn:E1; [reflexivity |].
    destruct (Qltb xi 0) eqn:E2; [reflexivity |].
    apply Qltb_ge in E1, E2. apply Qeq_bool_neq in E0. exfalso. apply E0. lra.
Qed.

Lemma subdiff_range_run (x target : ndarray) (k s : nat) (output : ndarray) :
  (s + k <= length x)%nat -> length target = length x ->
  length output = length x ->
  exists out,
    foldM (subdiff_at x target) (seq s k) output = Ok out
    /\ length out = length x
    /\ forall i, (i < length x)%nat ->
         out !! i = if decide (s <= i < s + k)%nat
                    then Some (subdiff_entry x target i) else output !! i.
Proof.
  revert s output. induction k as [| k IH]; intros s output Hs Ht Ho.
  - exists output. simpl. repeat split; try assumption.
    intros i Hi. destruct (decide _); [lia | reflexivity].
  - simpl. rewrite subdiff_at_run by (assumption || lia).
    destruct (IH (S s) (<[s:=subdiff_entry x target s]> output))
      as (out & Hrun & Hlen & Hout).
    + lia.
    + exact Ht.
    + now rewrite length_insert.
    + exists out. split; [exact Hrun |]. split; [exact Hlen |].
      intros i Hi. rewrite (Hout i Hi).
      destruct (decide (S s <= i < S s + k)%nat) as [H1 | H1];
        destruct (decide (s <= i < s + S k)%nat) as [H2 | H2]; try lia.
      * reflexivity.
      * assert (i = s) as -> by lia.
        apply list_lookup_insert_eq. lia.
      * apply list_lookup_insert_ne. lia.
Qed.

Lemma subdiff_term_run (x target output : ndarray) (t : term) :
  length target = length x -> length output = length x ->
  (g t = "abs" -> (fst (range t) < snd (range t))%nat ->
   (snd (range t) <= length x)%nat) ->
  exists out,
    subdiff_term x target output t = Ok out
    /\ length out = length x
    /\ forall i, (i < length x)%nat ->
         (g t = "abs" /\ Spec.covers t i ->
          out !! i = Some (subdiff_entry x target i))
         /\ (~ (g t = "abs" /\ Spec.covers t i) -> out !! i = output !! i).
Proof.
  intros Ht Ho Hwf. unfold subdiff_term, Spec.covers.
  destruct (range t) as [s e]. simpl in *.
  destruct (String.eqb (g t) "abs") eqn:E.
  - apply String.eqb_eq in E.
    destruct (decide (s < e)%nat) as [Hse | Hse].
    + destruct (subdiff_range_run x target (e - s) s output)
        as (out & Hrun & Hlen & Hout); try assumption.
      { specialize (Hwf E Hse). lia. }
      exists out. split; [exact Hrun |]. split; [exact Hlen |].
      intros i Hi. rewrite (Hout i Hi).
      destruct (decide (s <= i < s + (e - s))%nat); split; intros H;
        try reflexivity; try lia.
      exfalso. apply H. split; [exact E | lia].
    + replace (e - s)%nat with O by lia. exists output. simpl.
      split; [reflexivity |]. split; [exact Ho |].
      intros i Hi. split; [lia | reflexivity].
  - apply String.eqb_neq in E. exists output.
    split; [reflexivity |]. split; [exact Ho |].
    intros i Hi. split; [intros [H _]; contradiction | reflexivity].
Qed.

Lemma abs_covered_dec (g_list : list term) (i : nat) :
  abs_covered g_list i \/ ~ abs_covered g_list i.
Proof.
  induction g_list as [| t rest IH].
  - right. intros (t & Hin & _). now apply elem_of_nil in Hin.
  - destruct IH as [(t' & Hin & H) | IH].
    + left. exists t'. split; [now right | exact H].
    + destruct (decide (g t = "abs")) as [Ha | Ha].
      * destruct (decide (fst (range t) <= i < snd (range t))%nat) as [Hc | Hc].
        -- left. exists t. split; [left |]. auto.
        -- right. intros (t' & Hin & Habs & Hcov).
           apply elem_of_cons in Hin. destruct Hin as [-> | Hin].
           ++ contradiction.
           ++ apply IH. exists t'. auto.
      * right. intros (t' & Hin & Habs & Hcov).
        apply elem_of_cons in Hin. destruct Hin as [-> | Hin].
        -- contradiction.
        -- apply IH. exists t'. auto.
Qed.

Lemma subdiff_fold_run (x target : ndarray) (g_list : list term) :
  length target = length x ->
  Forall (fun t => g t = "abs" -> (fst (range t) < snd (range t))%nat ->
                   (snd (range t) <= length x)%nat) g_list ->
  forall output, length output = length x ->
  exists out,
    foldM (subdiff_term x target) g_list output = Ok out
    /\ length out = length x
    /\ forall i, (i < length x)%nat ->
         (abs_covered g_list i -> out !! i = Some (subdiff_entry x target i))
         /\ (~ abs_covered g_list i -> out !! i = output !! i).
Proof.
  intros Ht. induction 1 as [| t rest Hwf Hrest IH]; intros output Ho.
  - exists output. simpl. repeat split; try assumption.
    intros (t & Hin & _). now apply elem_of_nil in Hin.
  - destruct (subdiff_term_run x target output t Ht Ho Hwf)
      as (out1 & Hrun1 & Hlen1 & Hout1).
    destruct (IH out1 Hlen1) as (out & Hrun & Hlen & Hout).
    exists out. simpl. rewrite Hrun1. split; [exact Hrun |].
    split; [exact Hlen |].
    intros i Hi. destruct (Hout i Hi) as [Hin Hnot].
    destruct (Hout1 i Hi) as [Hin1 Hnot1].
    split.
    + intros (t' & Hin' & Habs & Hcov).
      apply elem_of_cons in Hin'. destruct Hin' as [-> | Hin'].
      * destruct (abs_covered_dec rest i) as [Hc | Hc].
        -- now apply Hin.
        -- rewrite (Hnot Hc). apply Hin1. now split.
      * apply Hin. exists t'. auto.
    + intros Hnc. rewrite Hnot, Hnot1.
      * reflexivity.
      * intros [Habs Hcov]. apply Hnc. exists t. split; [left |]. auto.
      * intros (t' & Hin' & H'). apply Hnc. exists t'. split; [now right | exact H'].
Qed.

Lemma subdiff_value_zero (xi ti : Q) :
  xi == 0 -> subdiff_value xi ti == Spec.clip (- ti) (-(1)) 1.
Proof.
  intros Hx. unfold subdiff_value, Spec.clip.
  apply Qeq_bool_iff in Hx. rewrite Hx.
  destruct (Qltb 1 ti) eqn:E1.
  - apply Qltb_lt in E1.
    rewrite (Q.max_r (- ti) (-(1))) by lra. rewrite Q.min_l by lra. reflexivity.
  - apply Qltb_ge in E1. destruct (Qltb ti (-(1))) eqn:E2.
    + apply Qltb_lt in E2.
      rewrite (Q.max_l (- ti) (-(1))) by lra. rewrite Q.min_r by lra. reflexivity.
    + apply Qltb_ge in E2.
      rewrite (Q.max_l (- ti) (-(1))) by lra. rewrite Q.min_l by lra. reflexivity.
Qed.

Lemma subdiff_value_nonzero (xi ti : Q) :
  ~ xi == 0 -> subdiff_value xi ti = Spec.sign xi.
Proof.
  intros Hx. unfold subdiff_value, Spec.sign.
  destruct (Qeq_bool xi 0) eqn:E0; [apply Qeq_bool_iff in E0; contradiction |].
  destruct (Qltb 0 xi) eqn:E1; [reflexivity |].
  destruct (Qltb xi 0) eqn:E2; [reflexivity |].
  apply Qltb_ge in E1, E2. exfalso. apply Hx. lra.
Qed.

(** C6. For every term list whose abs-kind ranges lie within [x], and every
    [target] as long as [x], [get_subdifferential] returns an array as long as
    [x] whose coordinate [i] is: for [i] in the range of an abs-kind term,
    [sign(x[i])] when [x[i] != 0] and [clip(-target[i], -1, 1)] when
    [x[i] = 0]; and [0] for [i] in the range of no abs-kind term. *)
Theorem get_subdifferential_coordinates (g_list : list term)
  (x target : ndarray) :
  length target = length x ->
  Forall (fun t => g t = "abs" -> (fst (range t) < snd (range t))%nat ->
                   (snd (range t) <= length x)%nat) g_list ->
  exists out,
    get_subdifferential g_list x target = Ok out
    /\ length out = length x
    /\ forall i xi ti, x !! i = Some xi -> target !! i = Some ti ->
         exists oi,
           out !! i = Some oi
           /\ (abs_covered g_list i -> ~ xi == 0 -> oi = Spec.sign xi)
           /\ (abs_covered g_list i -> xi == 0 ->
               oi == Spec.clip (- ti) (-(1)) 1)
           /\ (~ abs_covered g_list i -> oi = 0).
Proof.
  intros Ht Hwf. unfold get_subdifferential.
  destruct (subdiff_fold_run x target g_list Ht Hwf (repeat 0 (length x)))
    as (out & Hrun & Hlen & Hout).
  { apply repeat_length. }
  exists out. split; [exact Hrun |]. split; [exact Hlen |].
  intros i xi ti Hxi Hti.
  assert (Hi : (i < length x)%nat) by (eapply lookup_lt_Some; eassumption).
  destruct (Hout i Hi) as [Hin Hnot].
  assert (He : subdiff_entry x target i = subdiff_value xi ti).
  { unfold subdiff_entry. now rewrite Hxi, Hti. }
  destruct (abs_covered_dec g_list i) as [Hc | Hc].
  - exists (subdiff_value xi ti). rewrite <- He. split; [now apply Hin |].
    rewrite He. split; [| split].
    + intros _ Hx. now apply subdiff_value_nonzero.
    + intros _ Hx. now apply subdiff_value_zero.
    + contradiction.
  - exists 0. rewrite (Hnot Hc). split.
    + apply lookup_repeat. exact Hi.
    + repeat split; intros; contradiction || reflexivity.
Qed.

(** ** The ADMM iteration *)

Section SolveProperties.
Context {B : Backend}.

Lemma iteration_reg (s1 s2 : QSS) (e : env) (st : frame) :
  same_but_reg s1 s2 -> iteration s1 e st = iteration s2 e st.
Proof.
  intros (H1 & H2 & H3 & H4 & H5 & H6 & H7 & H8 & H9 & H10).
  unfold iteration, admm_updates, x_update, should_stop, finish.
  now rewrite H2, H3, H6, H8, H9.
Qed.

Lemma main_loop_reg (s1 s2 : QSS) (e : env) (fuel : nat) :
  same_but_reg s1 s2 ->
  forall st h, main_loop fuel s1 e st h = main_loop fuel s2 e st h.
Proof.
  intros Hs. induction fuel as [| fuel IH]; intros st h; simpl; [reflexivity |].
  unfold bind. rewrite (iteration_reg s1 s2 e st Hs).
  destruct (iteration s2 e st h) as [[[res | st'] h'] | ex]; auto.
Qed.

Lemma setup_reg (s1 s2 : QSS) :
  same_but_reg s1 s2 -> setup s1 = setup s2.
Proof.
  intros (H1 & H2 & H3 & H4 & H5 & H6 & H7 & H8 & H9 & H10).
  unfold setup. now rewrite H1, H4, H5, H7.
Qed.

(** C7. The [reg] flag has no effect on [solve]: two solver instances that
    differ at most in [reg] return the same result (the same objective and
    solution, the same exception, or the same exhaustion of the iteration
    budget), for every problem and every setting of the other options. *)
Theorem reg_has_no_effect (s1 s2 : QSS) (fuel : nat) :
  same_but_reg s1 s2 -> solve fuel s1 = solve fuel s2.
Proof.
  intros Hs. unfold solve, solve_in, bind.
  rewrite (setup_reg s1 s2 Hs).
  destruct (setup s2 []) as [[[e st] h] | ex]; [| reflexivity].
  simpl. now rewrite (main_loop_reg s1 s2 e fuel Hs).
Qed.

Lemma ratio_within_band (c rho0 : Q) :
  1 # 5 <= c / rho0 -> c / rho0 <= 5 -> rho0 / c <= 5.
Proof.
  intros Hlo Hhi.
  assert (Hr : ~ rho0 == 0).
  { intros Hr. unfold Qdiv in Hlo. rewrite Hr in Hlo.
    assert (Hz : c * / 0 == 0) by (change (/ 0) with 0; ring). rewrite Hz in Hlo. lra. }
  assert (Hc : ~ c == 0).
  { intros Hc. unfold Qdiv in Hlo. rewrite Hc in Hlo. lra. }
  assert (Hinv : rho0 / c == / (c / rho0)).
  { field. split; assumption. }
  rewrite Hinv.
  assert (Hpos : 0 < c / rho0) by lra.
  apply Qle_shift_inv_r; [exact Hpos | lra].
Qed.

Lemma candidate_zero_retained (st : frame) (r_prim r_dual : Q)
  (xv z1v u1v : ndarray) :
  raw_candidate st r_prim r_dual xv z1v u1v == 0 ->
  rho_candidate st r_prim r_dual xv z1v u1v = rho st.
Proof.
  intros H. unfold rho_candidate. apply Qeq_bool_iff in H. now rewrite H.
Qed.

Lemma self_ratio_le_1 (x : Q) : x / x <= 1.
Proof.
  destruct (Qeq_dec x 0) as [H | H].
  - unfold Qdiv. rewrite H. lra.
  - assert (E : x / x == 1) by (field; exact H). rewrite E. lra.
Qed.

(** C3. On an iteration whose number is a multiple of ten, with [c] the
    candidate penalty (the computed one, or [rho] when the computed one is
    zero): the update is applied exactly when [c/rho > 5] or [rho/c > 5].
    When it is not applied (in particular when [1/5 <= c/rho <= 5], and when
    the computed candidate is zero) the step returns the locals and the heap
    as they were: [rho], [u], both KKT matrices and the factorization handle
    are unchanged.  When it is applied, [rho] becomes [c], [u] becomes a fresh
    array with entries [u * rho / c], the KKT matrices have their penalty
    moved from [rho] to [c], and the handle is updated with the matrix it
    factorizes; no existing buffer changes. *)
Theorem update_rho_hysteresis (e : env) (st : frame) (r_prim r_dual : Q)
  (h : heap) (xv z1v u1v : ndarray) :
  (iter_num st mod 10 = 0)%Z ->
  h !! xk1 st = Some xv -> h !! zk1 st = Some z1v -> h !! uk1 st = Some u1v ->
  (has_constr e = true -> is_Some (quad_kkt_reg st)) ->
  let c := rho_candidate st r_prim r_dual xv z1v u1v in
  let applied := 5 < c / rho st \/ 5 < rho st / c in
  (raw_candidate st r_prim r_dual xv z1v u1v == 0 -> c = rho st /\ ~ applied)
  /\ (1 # 5 <= c / rho st /\ c / rho st <= 5 -> ~ applied)
  /\ (~ applied -> update_rho e st r_prim r_dual h = Ok (st, h))
  /\ (applied ->
      exists st',
        update_rho e st r_prim r_dual h
          = Ok (st', h ++ [map (fun u => u * rho st / c) u1v])
        /\ rho st' = c
        /\ uk1 st' = length h
        /\ Forall2 (fun u u' => u' == u * (rho st / c)) u1v
             (map (fun u => u * rho st / c) u1v)
        /\ quad_kkt st' = shift_penalty e (rho st) c (quad_kkt st)
        /\ (has_constr e = false ->
            quad_kkt_reg st' = quad_kkt_reg st
            /\ F st' = F_update (F st) (quad_kkt st'))
        /\ (has_constr e = true ->
            exists m, quad_kkt_reg st = Some m
              /\ quad_kkt_reg st' = Some (shift_penalty e (rho st) c m)
              /\ F st' = F_update (F st) (shift_penalty e (rho st) c m))
        /\ iter_num st' = iter_num st /\ zk st' = zk st /\ uk st' = uk st
        /\ xk1 st' = xk1 st /\ zk1 st' = zk1 st).
Proof.
  intros Hit Hx Hz Hu Hreg c applied.
  assert (Hrun : update_rho e st r_prim r_dual h
                 = (if Qltb 5 (c / rho st) || Qltb 5 (rho st / c)
                    then (u1 <- alloc (map (fun u => u * rho st / c) u1v) ;;
                          let kkt := shift_penalty e (rho st) c (quad_kkt st) in
                          if has_constr e then
                            match quad_kkt_reg st with
                            | None => raise UnboundLocalError
                            | Some kkt_reg =>
                                let kkt_reg' := shift_penalty e (rho st) c kkt_reg in
                                ret {| iter_num := iter_num st; rho := c;
                                       xk := xk st; zk := zk st; uk := uk st;
                                       xk1 := xk1 st; zk1 := zk1 st; uk1 := u1;
                                       nuk1 := nuk1 st; quad_kkt := kkt;
                                       quad_kkt_reg := Some kkt_reg';
                                       F := F_update (F st) kkt_reg' |}
                            end
                          else
                            ret {| iter_num := iter_num st; rho := c;
                                   xk := xk st; zk := zk st; uk := uk st;
                                   xk1 := xk1 st; zk1 := zk1 st; uk1 := u1;
                                   nuk1 := nuk1 st; quad_kkt := kkt;
                                   quad_kkt_reg := quad_kkt_reg st;
                                   F := F_update (F st) kkt |})
                    else ret st) h).
  { unfold update_rho. apply Z.eqb_eq in Hit. rewrite Hit.
    run_get Hx.
    run_get Hz.
    run_get Hu. reflexivity. }
  assert (Hdec : Qltb 5 (c / rho st) || Qltb 5 (rho st / c) = true <-> applied).
  { unfold applied. rewrite orb_true_iff, !Qltb_lt. reflexivity. }
  split; [| split; [| split]].
  - intros Hraw.
    assert (Hc : c = rho st) by (now apply candidate_zero_retained).
    split; [exact Hc |]. unfold applied. rewrite Hc.
    pose proof (self_ratio_le_1 (rho st)). lra.
  - intros [Hlo Hhi]. unfold applied.
    pose proof (ratio_within_band c (rho st) Hlo Hhi). lra.
  - intros Hna. rewrite Hrun.
    destruct (Qltb 5 (c / rho st) || Qltb 5 (rho st / c)) eqn:E;
      [exfalso; apply Hna, Hdec; reflexivity | reflexivity].
  - intros Ha. rewrite Hrun. apply Hdec in Ha. rewrite Ha.
    run_alloc.
    assert (Hscale : Forall2 (fun u u' => u' == u * (rho st / c)) u1v
                       (map (fun u => u * rho st / c) u1v)).
    { clearbody c. clear. induction u1v as [| u us IH]; simpl; constructor;
        [| exact IH].
      unfold Qdiv. ring. }
    destruct (has_constr e) eqn:Ec.
    + destruct (Hreg eq_refl) as [m Hm]. rewrite Hm. cbv zeta. unfold ret.
      eexists. split; [reflexivity |]. simpl.
      repeat split; try assumption; try discriminate.
      intros _. exists m. auto.
    + cbv zeta. unfold ret. eexists. split; [reflexivity |]. simpl.
      repeat split; try assumption; try discriminate.
Qed.

Lemma extends_refl (h : heap) : extends h h.
Proof. intros j _. reflexivity. Qed.

Lemma extends_length (h h' : heap) : extends h h' -> (length h <= length h')%nat.
Proof.
  intros E. destruct (decide (length h <= length h')%nat) as [H | H]; [exact H |].
  exfalso. assert (L : (length h' < length h)%nat) by lia.
  specialize (E (length h') L).
  rewrite lookup_ge_None_2 in E by lia.
  symmetry in E. apply lookup_ge_None_1 in E. lia.
Qed.

Lemma extends_trans (h1 h2 h3 : heap) :
  extends h1 h2 -> extends h2 h3 -> extends h1 h3.
Proof.
  intros E1 E2 j Hj. rewrite E2, E1; auto.
  pose proof (extends_length _ _ E1). lia.
Qed.

Lemma extends_alloc (h : heap) (a : ndarray) : extends h (h ++ [a]).
Proof. intros j Hj. now apply lookup_alloc_old. Qed.

Lemma extends_lookup (h h' : heap) (l : loc) (a : ndarray) :
  extends h h' -> h !! l = Some a -> h' !! l = Some a.
Proof.
  intros E Hl. rewrite E; [exact Hl |]. eapply lookup_lt_Some; eassumption.
Qed.

Lemma x_update_run (self : QSS) (e : env) (st : frame) (h : heap)
  (zv uv : ndarray) :
  solves_preserve_length ->
  h !! zk st = Some zv -> h !! uk st = Some uv ->
  length zv = dim e -> length uv = dim e -> length (q e) = dim e ->
  exists st' h' xv,
    x_update self e st h = Ok (st', h')
    /\ h' !! xk1 st' = Some xv /\ length xv = dim e
    /\ extends h h' /\ same_base st st'
    /\ iter_num st' = (iter_num st + 1)%Z.
Proof.
  intros [HF Hir] Hz Hu Lz Lu Lq. unfold x_update.
  run_get Hz.
  run_get Hu.
  run_zip lia.
  run_zip ltac:(rewrite !length_map, length_zip_with; lia).
  set (rhs := zip_with Qplus _ _).
  assert (Lrhs : length rhs = dim e).
  { unfold rhs. rewrite length_zip_with, !length_map, length_zip_with. lia. }
  destruct (has_constr e).
  - set (kkt_solve := if _use_iter_refinement self then _ else _).
    assert (Lk : (dim e <= length kkt_solve)%nat).
    { unfold kkt_solve. destruct (_use_iter_refinement self);
        rewrite ?HF, ?Hir, length_app; lia. }
    run_alloc.
    run_alloc.
    eexists _, _, (take (dim e) kkt_solve). split; [reflexivity |]. simpl.
    split; [| split; [| split; [| split]]].
    + rewrite lookup_alloc_old by (rewrite length_app; simpl; lia).
      apply lookup_alloc.
    + rewrite length_take. lia.
    + eapply extends_trans; apply extends_alloc.
    + repeat split.
    + reflexivity.
  - run_alloc.
    eexists _, _, (F_solve (F st) rhs). split; [reflexivity |]. simpl.
    split; [| split; [| split; [| split]]].
    + apply lookup_alloc.
    + now rewrite HF.
    + apply extends_alloc.
    + repeat split.
    + reflexivity.
Qed.

Lemma z_update_run (e : env) (st : frame) (h : heap) (xv zv uv eqv : ndarray) :
  known_terms (g_list e) ->
  h !! xk1 st = Some xv -> h !! zk st = Some zv -> h !! uk st = Some uv ->
  h !! equil_scaling e = Some eqv ->
  length xv = dim e -> length zv = dim e -> length uv = dim e ->
  length eqv = dim e ->
  exists st' h',
    z_update e st h = Ok (st', h')
    /\ h' !! zk1 st'
       = Some (Spec.applyProximalAll (rho st / obj_scale e) eqv (g_list e)
                 (Spec.vadd (Spec.vadd (Spec.vscale (alpha e) xv)
                                       (Spec.vscale (1 - alpha e) zv)) uv))
    /\ extends h h' /\ same_base st st'
    /\ xk1 st' = xk1 st /\ iter_num st' = iter_num st.
Proof.
  intros Hk Hx Hz Hu He Lx Lz Lu Le. unfold z_update.
  run_get Hx.
  run_get Hz.
  run_get Hu.
  run_zip ltac:(rewrite !length_map; lia).
  run_zip ltac:(rewrite length_zip_with, !length_map; lia).
  run_alloc.
  set (w := zip_with Qplus (zip_with Qplus _ _) uv).
  assert (Lw : length w = dim e).
  { unfold w. rewrite !length_zip_with, !length_map. lia. }
  assert (Hlt : (equil_scaling e < length h)%nat)
    by (eapply lookup_lt_Some; eassumption).
  destruct (apply_prox_ops_run (rho st / obj_scale e) (equil_scaling e)
              (length h) eqv (g_list e) Hk w (h ++ [w]))
    as (h' & Hrun & Hres & Hframe & Hgrow).
  { rewrite lookup_alloc_old by exact Hlt. exact He. }
  { apply lookup_alloc. }
  { lia. }
  { lia. }
  rewrite (bind_Ok _ _ _ _ _ Hrun). simpl. unfold bind, ret. simpl.
  eexists _, _. split; [reflexivity |]. simpl.
  split; [exact Hres |]. split; [| repeat split].
  intros j Hj. rewrite Hframe.
  - now apply lookup_alloc_old.
  - rewrite length_app. simpl. lia.
  - lia.
Qed.

Lemma u_update_run (e : env) (st : frame) (h : heap) (xv zv uv z1v : ndarray) :
  h !! uk st = Some uv -> h !! xk1 st = Some xv -> h !! zk st = Some zv ->
  h !! zk1 st = Some z1v ->
  length xv = dim e -> length zv = dim e -> length uv = dim e ->
  length z1v = dim e ->
  exists st',
    u_update e st h
      = Ok (st', h ++ [Spec.vsub (Spec.vadd (Spec.vadd uv (Spec.vscale (alpha e) xv))
                                            (Spec.vscale (1 - alpha e) zv)) z1v])
    /\ uk1 st' = length h
    /\ same_base st st'
    /\ xk1 st' = xk1 st /\ zk1 st' = zk1 st /\ iter_num st' = iter_num st.
Proof.
  intros Hu Hx Hz Hz1 Lx Lz Lu Lz1. unfold u_update.
  run_get Hu.
  run_get Hx.
  run_get Hz.
  run_get Hz1.
  run_zip ltac:(rewrite !length_map; lia).
  run_zip ltac:(rewrite length_zip_with, !length_map; lia).
  run_zip ltac:(rewrite !length_zip_with, !length_map; lia).
  run_alloc.
  eexists. split; [reflexivity |]. simpl. repeat split.
Qed.

Lemma admm_updates_run (self : QSS) (e : env) (st : frame) (h : heap)
  (zv uv eqv : ndarray) :
  solves_preserve_length -> known_terms (g_list e) ->
  h !! zk st = Some zv -> h !! uk st = Some uv ->
  h !! equil_scaling e = Some eqv ->
  length zv = dim e -> length uv = dim e -> length eqv = dim e ->
  length (q e) = dim e ->
  exists st' h' x_new z_new u_new,
    admm_updates self e st h = Ok (st', h')
    /\ h' !! xk1 st' = Some x_new
    /\ h' !! zk1 st' = Some z_new
    /\ h' !! uk1 st' = Some u_new
    /\ z_new = Spec.applyProximalAll (rho st / obj_scale e) eqv (g_list e)
                 (Spec.vadd (Spec.vadd (Spec.vscale (alpha e) x_new)
                                       (Spec.vscale (1 - alpha e) zv)) uv)
    /\ u_new = Spec.vsub (Spec.vadd (Spec.vadd uv (Spec.vscale (alpha e) x_new))
                                    (Spec.vscale (1 - alpha e) zv)) z_new
    /\ extends h h' /\ same_base st st'
    /\ iter_num st' = (iter_num st + 1)%Z
    /\ length x_new = dim e /\ length z_new = dim e /\ length u_new = dim e.
Proof.
  intros Hs Hk Hz Hu He Lz Lu Le Lq. unfold admm_updates.
  destruct (x_update_run self e st h zv uv Hs Hz Hu Lz Lu Lq)
    as (st1 & h1 & xv & Hrun1 & Hx1 & Lx & Hext1 & Hb1 & Hit1).
  destruct Hb1 as (Hr1 & Hzk1 & Huk1 & Hq1 & Hqr1 & HF1).
  rewrite (bind_Ok _ _ _ _ _ Hrun1).
  destruct (z_update_run e st1 h1 xv zv uv eqv Hk Hx1) as
    (st2 & h2 & Hrun2 & Hz2 & Hext2 & Hb2 & Hxk2 & Hit2); try assumption.
  { rewrite Hzk1. eapply extends_lookup; eassumption. }
  { rewrite Huk1. eapply extends_lookup; eassumption. }
  { eapply extends_lookup; eassumption. }
  destruct Hb2 as (Hr2 & Hzk2 & Huk2 & Hq2 & Hqr2 & HF2).
  rewrite (bind_Ok _ _ _ _ _ Hrun2).
  set (w := Spec.vadd (Spec.vadd (Spec.vscale (alpha e) xv)
                                 (Spec.vscale (1 - alpha e) zv)) uv) in *.
  set (z1v := Spec.applyProximalAll (rho st1 / obj_scale e) eqv (g_list e) w) in *.
  assert (Lz1 : length z1v = dim e).
  { unfold z1v. rewrite applyProximalAll_length.
    - unfold w, Spec.vadd, Spec.vscale.
      rewrite !length_zip_with, !length_map. lia.
    - unfold w, Spec.vadd, Spec.vscale.
      rewrite !length_zip_with, !length_map. lia. }
  destruct (u_update_run e st2 h2 xv zv uv z1v) as
    (st3 & Hrun3 & Hu3 & Hb3 & Hxk3 & Hzk3 & Hit3); try assumption.
  { rewrite Huk2, Huk1.
    eapply extends_lookup; [exact Hext2 |].
    eapply extends_lookup; eassumption. }
  { rewrite Hxk2. eapply extends_lookup; eassumption. }
  { rewrite Hzk2, Hzk1.
    eapply extends_lookup; [exact Hext2 |].
    eapply extends_lookup; eassumption. }
  destruct Hb3 as (Hr3 & Hzk3' & Huk3 & Hq3 & Hqr3 & HF3).
  exists st3, (h2 ++ [Spec.vsub (Spec.vadd (Spec.vadd uv (Spec.vscale (alpha e) xv))
                                        (Spec.vscale (1 - alpha e) zv)) z1v]),
    xv, z1v,
    (Spec.vsub (Spec.vadd (Spec.vadd uv (Spec.vscale (alpha e) xv))
                          (Spec.vscale (1 - alpha e) zv)) z1v).
  split; [exact Hrun3 |].
  assert (Hx2 : h2 !! xk1 st2 = Some xv).
  { rewrite Hxk2. eapply extends_lookup; eassumption. }
  split; [rewrite Hxk3; eapply extends_lookup; [apply extends_alloc | exact Hx2] |].
  split; [rewrite Hzk3; eapply extends_lookup; [apply extends_alloc | exact Hz2] |].
  split; [rewrite Hu3; apply lookup_alloc |].
  split; [unfold z1v; now rewrite Hr1 |].
  split; [reflexivity |].
  split; [eapply extends_trans; [exact Hext1 |];
          eapply extends_trans; [exact Hext2 | apply extends_alloc] |].
  split; [unfold same_base; repeat split; congruence |].
  split; [congruence |].
  split; [exact Lx |]. split; [exact Lz1 |].
  unfold Spec.vsub, Spec.vadd, Spec.vscale.
  rewrite !length_zip_with, !length_map. lia.
Qed.

(** C1. In every ADMM iteration, from a state whose vectors have the
    dimension of the problem, the three updates succeed and leave in the
    heap: [z_new = applyProximalAll(rho/objScale, D, terms,
    alpha*x_new + (1-alpha)*z + u)] and
    [u_new = u + alpha*x_new + (1-alpha)*z - z_new], where [z] and [u] are the
    previous iterates, [x_new] the result of the x-update and [D] the
    equilibration scaling; the buffers that existed before are untouched. *)
Theorem admm_updates_equations (self : QSS) (e : env) (st : frame) (h : heap)
  (zv uv eqv : ndarray) :
  solves_preserve_length -> known_terms (g_list e) ->
  h !! zk st = Some zv -> h !! uk st = Some uv ->
  h !! equil_scaling e = Some eqv ->
  length zv = dim e -> length uv = dim e -> length eqv = dim e ->
  length (q e) = dim e ->
  exists st' h' x_new z_new u_new,
    admm_updates self e st h = Ok (st', h')
    /\ h' !! xk1 st' = Some x_new
    /\ h' !! zk1 st' = Some z_new
    /\ h' !! uk1 st' = Some u_new
    /\ z_new = Spec.applyProximalAll (rho st / obj_scale e) eqv (g_list e)
                 (Spec.vadd (Spec.vadd (Spec.vscale (alpha e) x_new)
                                       (Spec.vscale (1 - alpha e) zv)) uv)
    /\ u_new = Spec.vsub (Spec.vadd (Spec.vadd uv (Spec.vscale (alpha e) x_new))
                                    (Spec.vscale (1 - alpha e) zv)) z_new
    /\ extends h h' /\ same_base st st'
    /\ iter_num st' = (iter_num st + 1)%Z
    /\ length x_new = dim e /\ length z_new = dim e /\ length u_new = dim e.
Proof. apply admm_updates_run. Qed.

Lemma update_rho_run (e : env) (st : frame) (r_prim r_dual : Q) (h : heap)
  (xv z1v u1v : ndarray) :
  h !! xk1 st = Some xv -> h !! zk1 st = Some z1v -> h !! uk1 st = Some u1v ->
  (has_constr e = true -> is_Some (quad_kkt_reg st)) ->
  exists st' h' u',
    update_rho e st r_prim r_dual h = Ok (st', h')
    /\ extends h h'
    /\ h' !! uk1 st' = Some u' /\ length u' = length u1v
    /\ zk1 st' = zk1 st /\ iter_num st' = iter_num st
    /\ (has_constr e = true -> is_Some (quad_kkt_reg st')).
Proof.
  intros Hx Hz Hu Hreg. unfold update_rho.
  destruct (iter_num st mod 10 =? 0)%Z.
  - run_get Hx.
    run_get Hz.
    run_get Hu.
    set (c := rho_candidate st r_prim r_dual xv z1v u1v).
    destruct (Qltb 5 (c / rho st) || Qltb 5 (rho st / c)).
    + run_alloc.
      destruct (has_constr e) eqn:Ec.
      * destruct (Hreg eq_refl) as [m Hm]. rewrite Hm. cbv zeta. unfold ret.
        eexists _, _, _. split; [reflexivity |]. simpl.
        split; [apply extends_alloc |]. split; [apply lookup_alloc |].
        split; [apply length_map |]. repeat split. eauto.
      * cbv zeta. unfold ret.
        eexists _, _, _. split; [reflexivity |]. simpl.
        split; [apply extends_alloc |]. split; [apply lookup_alloc |].
        split; [apply length_map |]. repeat split. discriminate.
    + exists st, h, u1v. unfold ret. split; [reflexivity |].
      split; [apply extends_refl |]. auto.
  - exists st, h, u1v. unfold ret. split; [reflexivity |].
    split; [apply extends_refl |]. auto.
Qed.

Lemma finish_run (self : QSS) (e : env) (st : frame) (h : heap)
  (z scaling : ndarray) :
  h !! zk1 st = Some z -> h !! equil_scaling e = Some scaling ->
  length z = dim e -> length scaling = dim e ->
  (_polish self = true -> polish_preserves_length) ->
  exists l h',
    finish self e st h
      = Ok ((evaluate_objective (P e) (q e) (r e) (g_list e)
               (final_iterate self e scaling z) (obj_scale e) scaling, l), h')
    /\ h' !! l = Some (zip_with Qmult scaling (final_iterate self e scaling z))
    /\ extends h h'.
Proof.
  intros Hz He Lz Le Hp. unfold finish, final_iterate.
  destruct (_polish self) eqn:Ep.
  - erewrite bind_Ok
      by (rewrite (bind_Ok _ _ _ _ _ (get_Ok _ _ _ Hz));
          rewrite (bind_Ok _ _ _ _ _ (get_Ok _ _ _ He));
          apply alloc_Ok).
    rewrite (bind_Ok _ _ _ _ _ (get_Ok _ _ _ (lookup_alloc _ _))).
    assert (Hlt : (equil_scaling e < length h)%nat)
      by (eapply lookup_lt_Some; eassumption).
    erewrite bind_Ok
      by (apply get_Ok; rewrite lookup_alloc_old by exact Hlt; exact He).
    run_zip ltac:(rewrite (Hp eq_refl); lia).
    run_alloc.
    eexists _, _. split; [reflexivity |].
    split; [apply lookup_alloc |].
    eapply extends_trans; apply extends_alloc.
  - unfold ret at 1. unfold bind at 1.
    run_get Hz.
    run_get He.
    run_zip lia.
    run_alloc.
    eexists _, _. split; [reflexivity |].
    split; [apply lookup_alloc | apply extends_alloc].
Qed.

Lemma iteration_run (self : QSS) (e : env) (st : frame) (h : heap)
  (scaling : ndarray) :
  loop_invariant self e st h scaling ->
  exists st1 h1 z,
    admm_updates self e st h = Ok (st1, h1)
    /\ h1 !! zk1 st1 = Some z
    /\ exists s h',
        iteration self e st h = Ok (s, h')
        /\ extends h h'
        /\ match s with
           | Return (obj, l) =>
               obj = evaluate_objective (P e) (q e) (r e) (g_list e)
                       (final_iterate self e scaling z) (obj_scale e) scaling
               /\ h' !! l
                  = Some (zip_with Qmult scaling (final_iterate self e scaling z))
           | Continue st' =>
               loop_invariant self e st' h' scaling
               /\ iter_num st' = (iter_num st + 1)%Z
               /\ _max_iter self <> Cap (iter_num st + 1)
           end.
Proof.
  intros ((zv & Hz & Lz) & (uv & Hu & Lu) & He & Le & Lq & Hk & Hs & Hp & Hreg).
  destruct (admm_updates_run self e st h zv uv scaling Hs Hk Hz Hu He Lz Lu Le Lq)
    as (st1 & h1 & xv & z & u & Hrun & Hx1 & Hz1 & Hu1 & _ & _ & Hext & Hb & Hit
        & Lx & Lz1 & Lu1).
  destruct Hb as (Hr1 & Hzk1 & Huk1 & Hq1 & Hqr1 & HF1).
  exists st1, h1, z. split; [exact Hrun |]. split; [exact Hz1 |].
  assert (Hzv1 : h1 !! zk st1 = Some zv).
  { rewrite Hzk1. eapply extends_lookup; eassumption. }
  assert (He1 : h1 !! equil_scaling e = Some scaling).
  { eapply extends_lookup; eassumption. }
  unfold iteration. rewrite (bind_Ok _ _ _ _ _ Hrun).
  run_get Hx1.
  run_get Hzv1.
  run_get Hz1.
  run_get Hu1.
  run_zip lia.
  run_zip lia.
  destruct (should_stop self e st1 xv zv z u) eqn:Estop.
  - destruct (finish_run self e st1 h1 z scaling Hz1 He1 Lz1 Le Hp)
      as (l & h' & Hfin & Hl & Hext').
    rewrite (bind_Ok _ _ _ _ _ Hfin). unfold ret.
    eexists _, _. split; [reflexivity |].
    split; [eapply extends_trans; eassumption |]. split; [reflexivity | exact Hl].
  - match goal with
    | |- context [update_rho e st1 ?rp ?rd] =>
        destruct (update_rho_run e st1 rp rd h1 xv z u Hx1 Hz1 Hu1)
          as (st2 & h2 & u' & Hupd & Hext2 & Hu2 & Lu2 & Hzk2 & Hit2 & Hreg2)
    end.
    { rewrite Hqr1. exact Hreg. }
    rewrite (bind_Ok _ _ _ _ _ Hupd). unfold ret.
    eexists _, _. split; [reflexivity |].
    split; [eapply extends_trans; eassumption |].
    split; [| split].
    + unfold loop_invariant, rebind. simpl.
      split; [exists z; split; [| exact Lz1];
              rewrite Hzk2; eapply extends_lookup; eassumption |].
      split; [exists u'; split; [exact Hu2 | lia] |].
      split; [eapply extends_lookup; eassumption |].
      split; [exact Le |]. split; [exact Lq |]. split; [exact Hk |].
      split; [exact Hs |]. split; [exact Hp | exact Hreg2].
    + simpl. congruence.
    + unfold should_stop in Estop. apply orb_false_iff in Estop.
      destruct Estop as [Ecap _]. intros Hcap. rewrite Hcap in Ecap.
      rewrite Hit in Ecap. now rewrite Z.eqb_refl in Ecap.
Qed.

(** From a well-shaped state whose iteration count is below the cap, the
    loop returns within the iterations that are left, and what it returns is
    the objective and the un-scaling of an iterate. *)
Lemma main_loop_returns (self : QSS) (e : env) (scaling : ndarray) (n : Z)
  (k : nat) :
  _max_iter self = Cap n ->
  forall st h,
    loop_invariant self e st h scaling ->
    (iter_num st + Z.of_nat (S k) = n)%Z ->
    exists z l h',
      main_loop (S k) self e st h
        = Ok (Some (evaluate_objective (P e) (q e) (r e) (g_list e)
                      (final_iterate self e scaling z) (obj_scale e) scaling, l),
              h')
      /\ h' !! l = Some (zip_with Qmult scaling (final_iterate self e scaling z)).
Proof.
  intros Hcap. induction k as [| k IH]; intros st h Hinv Hn.
  - destruct (iteration_run self e st h scaling Hinv)
      as (st1 & h1 & z & _ & _ & s & h' & Hrun & _ & Hs).
    simpl. rewrite (bind_Ok _ _ _ _ _ Hrun).
    destruct s as [[obj l] | st'].
    + destruct Hs as [-> Hl]. unfold ret.
      eexists _, _, _. split; [reflexivity | exact Hl].
    + destruct Hs as (_ & _ & Hne). exfalso. apply Hne. rewrite Hcap.
      f_equal. lia.
  - destruct (iteration_run self e st h scaling Hinv)
      as (st1 & h1 & z & _ & _ & s & h' & Hrun & _ & Hs).
    change (main_loop (S (S k)) self e st h)
      with (bind (iteration self e st)
              (fun s => match s with
                        | Return res => ret (Some res)
                        | Continue st' => main_loop (S k) self e st'
                        end) h).
    rewrite (bind_Ok _ _ _ _ _ Hrun).
    destruct s as [[obj l] | st'].
    + destruct Hs as [-> Hl]. unfold ret.
      eexists _, _, _. split; [reflexivity | exact Hl].
    + destruct Hs as (Hinv' & Hit' & _). apply IH; [exact Hinv' | lia].
Qed.

Lemma setup_run (self : QSS) :
  exists st h,
    setup self [] = Ok ((initial_env self, st), h)
    /\ h !! equil_scaling (initial_env self) = Some (scaling_of self)
    /\ h !! zk st = Some (repeat 0 (shape0 (data_P (_data self))))
    /\ h !! uk st = Some (repeat 0 (shape0 (data_P (_data self))))
    /\ iter_num st = 0%Z
    /\ rho st = _rho self
    /\ (has_constr (initial_env self) = true -> is_Some (quad_kkt_reg st))
    /\ (has_constr (initial_env self) = false ->
        quad_kkt st = madd (P (initial_env self))
                        (mscale (_rho self)
                           (sp_identity (shape0 (data_P (_data self)))))
        /\ quad_kkt_reg st = None
        /\ F st = Solver (quad_kkt st)).
Proof.
  unfold setup, initial_env, scaling_of, preconditioned.
  destruct (_precond self);
    [destruct (ruiz _ _ _ _ _) as [[[[[[P' q'] r'] A'] b'] sc] c] |];
    destruct (negb (nnz (data_A (_data self)) =? 0)%nat) eqn:Ec;
    unfold bind, alloc, ret; simpl; rewrite ?Ec;
    (eexists _, _; split; [reflexivity |]; simpl;
     repeat split; eauto; discriminate).
Qed.

Lemma well_shaped_env (self : QSS) :
  well_shaped self ->
  length (q (initial_env self)) = dim (initial_env self)
  /\ length (scaling_of self) = dim (initial_env self)
  /\ known_terms (g_list (initial_env self))
  /\ solves_preserve_length
  /\ (_polish self = true -> polish_preserves_length).
Proof.
  unfold well_shaped, initial_env, scaling_of.
  destruct (preconditioned self) as [[[[[[P' q'] r'] A'] b'] sc] c]. simpl.
  tauto.
Qed.

Lemma initial_env_dim (self : QSS) :
  dim (initial_env self) = shape0 (data_P (_data self)).
Proof.
  unfold initial_env.
  now destruct (preconditioned self) as [[[[[[P' q'] r'] A'] b'] sc] c].
Qed.

Lemma solve_returns (self : QSS) (n : Z) :
  well_shaped self -> _max_iter self = Cap n -> (1 <= n)%Z ->
  exists z,
    solve (Z.to_nat n) self
    = Ok (Some (evaluate_objective (P (initial_env self)) (q (initial_env self))
                  (r (initial_env self)) (g_list (initial_env self))
                  (final_iterate self (initial_env self) (scaling_of self) z)
                  (obj_scale (initial_env self)) (scaling_of self),
                zip_with Qmult (scaling_of self)
                  (final_iterate self (initial_env self) (scaling_of self) z))).
Proof.
  intros Hw Hcap Hn.
  destruct (well_shaped_env self Hw) as (Lq & Le & Hk & Hs & Hp).
  destruct (setup_run self)
    as (st & h & Hsetup & He & Hz & Hu & Hit & _ & Hreg & _).
  assert (Hinv : loop_invariant self (initial_env self) st h (scaling_of self)).
  { unfold loop_invariant.
    split; [eexists; split;
            [exact Hz | rewrite initial_env_dim; apply repeat_length] |].
    split; [eexists; split;
            [exact Hu | rewrite initial_env_dim; apply repeat_length] |].
    tauto. }
  destruct (Z.to_nat n) as [| k] eqn:Ek; [lia |].
  destruct (main_loop_returns self (initial_env self) (scaling_of self) n k
              Hcap st h Hinv) as (z & l & h' & Hrun & Hl).
  { lia. }
  exists z. unfold solve, solve_in.
  rewrite (bind_Ok _ _ _ _ _ Hsetup). cbn [fst snd]. rewrite Hrun.
  now rewrite Hl.
Qed.

(** C8. For every well-shaped problem and every integer [max_iter >= 1]:
    [solve] raises nothing and returns within [max_iter] iterations, and what
    it returns is the objective value and [equil_scaling * z] for an iterate
    [z] (polished if polishing is on).  In particular, an iteration whose
    count reaches [max_iter] returns whatever the stopping test says: the
    objective at, and the un-scaling of, the [z] that iteration computed. *)
Theorem max_iter_returns (self : QSS) (n : Z) :
  well_shaped self -> _max_iter self = Cap n -> (1 <= n)%Z ->
  (exists z,
     solve (Z.to_nat n) self
     = Ok (Some (evaluate_objective (P (initial_env self)) (q (initial_env self))
                   (r (initial_env self)) (g_list (initial_env self))
                   (final_iterate self (initial_env self) (scaling_of self) z)
                   (obj_scale (initial_env self)) (scaling_of self),
                 zip_with Qmult (scaling_of self)
                   (final_iterate self (initial_env self) (scaling_of self) z))))
  /\ forall e st h scaling,
      loop_invariant self e st h scaling ->
      (iter_num st + 1 = n)%Z ->
      exists st1 h1 z l h',
        admm_updates self e st h = Ok (st1, h1)
        /\ h1 !! zk1 st1 = Some z
        /\ iteration self e st h
           = Ok (Return (evaluate_objective (P e) (q e) (r e) (g_list e)
                           (final_iterate self e scaling z) (obj_scale e) scaling,
                         l), h')
        /\ h' !! l = Some (zip_with Qmult scaling (final_iterate self e scaling z)).
Proof.
  intros Hw Hcap Hn. split; [now apply solve_returns |].
  intros e st h scaling Hinv Hit.
  destruct (iteration_run self e st h scaling Hinv)
    as (st1 & h1 & z & Hupd & Hz1 & s & h' & Hrun & _ & Hs).
  destruct s as [[obj l] | st'].
  - destruct Hs as [-> Hl]. exists st1, h1, z, l, h'. auto.
  - destruct Hs as (_ & _ & Hne). exfalso. apply Hne. now rewrite Hcap, Hit.
Qed.

Lemma finish_b (self : QSS) (b1 b2 : ndarray) (e : env) (st : frame) (h : heap) :
  (_polish self = true ->
   forall z scaling c1 c2,
     polish (g_list e) z (P e) (q e) (r e) (A e) c1 scaling (obj_scale e) (dim e)
     = polish (g_list e) z (P e) (q e) (r e) (A e) c2 scaling (obj_scale e)
         (dim e)) ->
  finish (with_b b1 self) (env_with_b b2 e) st h = finish self e st h.
Proof.
  intros Hp. unfold finish. simpl.
  destruct (_polish self) eqn:Ep; [| reflexivity].
  unfold bind, get.
  destruct (h !! zk1 st) as [z |]; [| reflexivity].
  destruct (h !! equil_scaling e) as [sc |]; [| reflexivity].
  now rewrite (Hp eq_refl z sc b2 (b e)).
Qed.

Lemma iteration_b (self : QSS) (b1 b2 : ndarray) (e : env) (st : frame)
  (h : heap) :
  has_constr e = false ->
  (_polish self = true ->
   forall z scaling c1 c2,
     polish (g_list e) z (P e) (q e) (r e) (A e) c1 scaling (obj_scale e) (dim e)
     = polish (g_list e) z (P e) (q e) (r e) (A e) c2 scaling (obj_scale e)
         (dim e)) ->
  iteration (with_b b1 self) (env_with_b b2 e) st h = iteration self e st h.
Proof.
  intros Hc Hp.
  assert (Hupd : admm_updates (with_b b1 self) (env_with_b b2 e) st
                 = admm_updates self e st).
  { unfold admm_updates, x_update. simpl. now rewrite Hc. }
  unfold iteration. rewrite Hupd. unfold bind.
  destruct (admm_updates self e st h) as [[st1 h1] |]; [| reflexivity].
  destruct (get (xk1 st1) h1) as [[xv h2] |]; [| reflexivity].
  destruct (get (zk st1) h2) as [[zv h3] |]; [| reflexivity].
  destruct (get (zk1 st1) h3) as [[z1v h4] |]; [| reflexivity].
  destruct (get (uk1 st1) h4) as [[u1v h5] |]; [| reflexivity].
  destruct (lift (broadcast2 Qminus xv z1v) h5) as [[d1 h6] |]; [| reflexivity].
  destruct (lift (broadcast2 Qminus zv z1v) h6) as [[d2 h7] |]; [| reflexivity].
  change (should_stop (with_b b1 self) (env_with_b b2 e) st1 xv zv z1v u1v)
    with (should_stop self e st1 xv zv z1v u1v).
  destruct (should_stop self e st1 xv zv z1v u1v).
  - now rewrite finish_b.
  - reflexivity.
Qed.

Lemma main_loop_b (self : QSS) (b1 b2 : ndarray) (e : env) (fuel : nat) :
  has_constr e = false ->
  (_polish self = true ->
   forall z scaling c1 c2,
     polish (g_list e) z (P e) (q e) (r e) (A e) c1 scaling (obj_scale e) (dim e)
     = polish (g_list e) z (P e) (q e) (r e) (A e) c2 scaling (obj_scale e)
         (dim e)) ->
  forall st h,
    main_loop fuel (with_b b1 self) (env_with_b b2 e) st h
    = main_loop fuel self e st h.
Proof.
  intros Hc Hp. induction fuel as [| fuel IH]; intros st h; [reflexivity |].
  simpl. unfold bind. rewrite (iteration_b self b1 b2 e st h Hc Hp).
  destruct (iteration self e st h) as [[[res | st'] h'] |]; auto.
Qed.

Lemma setup_b (self : QSS) (b' : ndarray) :
  nnz (data_A (_data self)) = 0%nat ->
  (_precond self = true -> ruiz_ignores_b self b') ->
  exists st h b2,
    setup self [] = Ok ((initial_env self, st), h)
    /\ setup (with_b b' self) [] = Ok ((env_with_b b2 (initial_env self), st), h).
Proof.
  intros Hnnz Hr.
  unfold setup, initial_env, preconditioned. simpl. rewrite Hnnz. simpl.
  destruct (_precond self) eqn:Ep.
  - specialize (Hr eq_refl). unfold ruiz_ignores_b in Hr. cbv zeta in Hr.
    destruct (ruiz _ _ _ _ (data_b (_data self)))
      as [[[[[[P1 q1] r1] A1] b1] s1] c1].
    destruct (ruiz _ _ _ _ b') as [[[[[[P2 q2] r2] A2] b2] s2] c2].
    simpl in Hr. injection Hr as <- <- <- <- <- <-.
    unfold bind, alloc, ret. simpl. eexists _, _, b2. split; reflexivity.
  - unfold bind, alloc, ret. simpl. eexists _, _, b'. split; reflexivity.
Qed.


End SolveProperties.

(** ** The model on concrete inputs *)

(** The soft-threshold with penalty 1: [3] goes to [2], [-1/2] to [0]. *)
Example soft_threshold_values :
  map (Spec.soft_threshold 1) [3; -(1 # 2); -4] = [2; 0; -3].
Proof. reflexivity. Qed.

(** [apply_prox_ops] on [ex_x] with scaling [ex_scaling]: the abs term
    rewrites coordinates 0 and 1, the box term coordinates 2 and 3, and
    coordinate 4 keeps its value. *)
Example apply_prox_ops_values :
  match apply_prox_ops 1 (Ref 0%nat) ex_terms (Ref 1%nat) ex_heap with
  | Ok (Ref l, h') => h' !! l
  | _ => None
  end = Some [2; 0 # 2; 1; 0; 7].
Proof. reflexivity. Qed.

(** A weighted, scaled and shifted abs term on [[1, 3)]. *)
Example apply_prox_ops_affine :
  match apply_prox_ops 2 (Ref 0%nat)
          [{| g := "abs";
              args := Some {| weight := Some 3; scale := Some (-(1));
                              shift := Some (1 # 2) |};
              range := (1, 3)%nat |}]
          (Ref 1%nat) ex_heap with
  | Ok (Ref l, h') => h' !! l
  | _ => None
  end = Some [3; -(1 # 4); 20 # 8; -3; 7].
Proof. reflexivity. Qed.

(** A name that is not in the table raises [KeyError]. *)
Example apply_prox_ops_unknown :
  apply_prox_ops 1 (Ref 0%nat)
    [{| g := "huber"; args := None; range := (0, 2)%nat |}] (Ref 1%nat) ex_heap
  = Raise KeyError.
Proof. reflexivity. Qed.

(** A scaling vector shorter than the range raises [ValueError]. *)
Example apply_prox_ops_shapes :
  apply_prox_ops 1 (Ref 0%nat) ex_terms (Ref 1%nat) [[1; 1]; ex_x]
  = Raise ValueError.
Proof. reflexivity. Qed.

Example get_subdifferential_values :
  get_subdifferential ex_terms ex_point ex_target = Ok [1; -(1 # 2); 0; 0].
Proof. reflexivity. Qed.

(** An abs range that leaves [x] raises [IndexError]. *)
Example get_subdifferential_out_of_range :
  get_subdifferential [{| g := "abs"; args := None; range := (2, 6)%nat |}]
    ex_point ex_target
  = Raise IndexError.
Proof. reflexivity. Qed.

(** One iteration on the nonnegative quadratic program: [x = 1/1.1],
    [z = 1.4 x = 14/11], objective [z.z - 2 z_0]. *)
Example solve_one_iteration :
  solve 1 (nonneg_solver (Cap 1))
  = Ok (Some (-(3279584000000000000000000) # 3543122000000000000000000,
              [14000 # 11000; 14000 # 11000])).
Proof. reflexivity. Qed.

(** With a cap of two iterations, one iteration does not return. *)
Example solve_out_of_fuel : solve 1 (nonneg_solver (Cap 2)) = Ok None.
Proof. reflexivity. Qed.

(** ** The properties on concrete inputs *)

Lemma diag_solve_length (f rhs : ndarray) :
  length (diag_solve f rhs) = length rhs.
Proof.
  unfold diag_solve. rewrite length_zip_with, length_app, repeat_length. lia.
Qed.

Lemma diag_solves_preserve_length : solves_preserve_length.
Proof. split; intros; apply diag_solve_length. Qed.

Lemma ex_terms_known : known_terms ex_terms.
Proof. repeat constructor; eexists; reflexivity. Qed.

Lemma ex_solver_terms_known : known_terms (data_g nonneg_qp).
Proof. repeat constructor; eexists; reflexivity. Qed.

Lemma apply_prox_ops_in_place_witness :
  exists h',
    apply_prox_ops 1 (Ref 0%nat) ex_terms (Ref 1%nat) ex_heap = Ok (Ref 1%nat, h')
    /\ h' !! 1%nat = Some (Spec.applyProximalAll 1 ex_scaling ex_terms ex_x)
    /\ (forall j, (j < length ex_heap)%nat -> j <> 1%nat -> h' !! j = ex_heap !! j)
    /\ (forall i, (forall t, t ∈ ex_terms -> ~ Spec.covers t i) ->
                  Spec.applyProximalAll 1 ex_scaling ex_terms ex_x !! i = ex_x !! i).
Proof.
  apply (apply_prox_ops_in_place 1 0%nat 1%nat ex_scaling ex_x ex_terms ex_heap).
  - reflexivity.
  - reflexivity.
  - discriminate.
  - reflexivity.
  - exact ex_terms_known.
Defined.

Lemma get_subdifferential_coordinates_witness :
  exists out,
    get_subdifferential ex_terms ex_point ex_target = Ok out
    /\ length out = length ex_point
    /\ forall i xi ti, ex_point !! i = Some xi -> ex_target !! i = Some ti ->
         exists oi,
           out !! i = Some oi
           /\ (abs_covered ex_terms i -> ~ xi == 0 -> oi = Spec.sign xi)
           /\ (abs_covered ex_terms i -> xi == 0 ->
               oi == Spec.clip (- ti) (-(1)) 1)
           /\ (~ abs_covered ex_terms i -> oi = 0).
Proof.
  apply (get_subdifferential_coordinates ex_terms ex_point ex_target).
  - reflexivity.
  - repeat constructor; simpl; intros; lia.
Defined.

Lemma reg_has_no_effect_witness :
  same_but_reg ex_solver ex_solver_noreg
  /\ solve 2 ex_solver = solve 2 ex_solver_noreg.
Proof.
  assert (H : same_but_reg ex_solver ex_solver_noreg)
    by (repeat split; reflexivity).
  split; [exact H | exact (reg_has_no_effect ex_solver ex_solver_noreg 2 H)].
Defined.

Lemma update_rho_hysteresis_witness :
  update_rho ex_env ex_tenth_frame 0 (1 # 10) ex_tenth_heap
  = Ok (ex_tenth_frame, ex_tenth_heap).
Proof.
  apply (update_rho_hysteresis ex_env ex_tenth_frame 0 (1 # 10) ex_tenth_heap
           [1; 1] [1; 1] [2; 2]).
  - reflexivity.
  - reflexivity.
  - reflexivity.
  - reflexivity.
  - discriminate.
  - vm_compute. intros [H | H]; discriminate H.
Defined.

Lemma admm_updates_equations_witness :
  exists st' h' x_new z_new u_new,
    admm_updates ex_solver ex_env ex_frame ex_loop_heap = Ok (st', h')
    /\ h' !! xk1 st' = Some x_new
    /\ h' !! zk1 st' = Some z_new
    /\ h' !! uk1 st' = Some u_new
    /\ z_new = Spec.applyProximalAll (rho ex_frame / obj_scale ex_env) [1; 1]
                 (g_list ex_env)
                 (Spec.vadd (Spec.vadd (Spec.vscale (alpha ex_env) x_new)
                                       (Spec.vscale (1 - alpha ex_env) [0; 0]))
                            [0; 0])
    /\ u_new = Spec.vsub (Spec.vadd (Spec.vadd [0; 0]
                                       (Spec.vscale (alpha ex_env) x_new))
                                    (Spec.vscale (1 - alpha ex_env) [0; 0])) z_new
    /\ extends ex_loop_heap h' /\ same_base ex_frame st'
    /\ iter_num st' = (iter_num ex_frame + 1)%Z
    /\ length x_new = dim ex_env /\ length z_new = dim ex_env
    /\ length u_new = dim ex_env.
Proof.
  apply (admm_updates_equations ex_solver ex_env ex_frame ex_loop_heap
           [0; 0] [0; 0] [1; 1]).
  - exact diag_solves_preserve_length.
  - exact ex_solver_terms_known.
  - reflexivity.
  - reflexivity.
  - reflexivity.
  - reflexivity.
  - reflexivity.
  - reflexivity.
  - reflexivity.
Defined.

Lemma ex_solver_well_shaped : well_shaped ex_solver.
Proof.
  unfold well_shaped. simpl.
  split; [reflexivity |]. split; [reflexivity |].
  split; [exact ex_solver_terms_known |].
  split; [exact diag_solves_preserve_length | discriminate].
Qed.

Lemma max_iter_returns_witness :
  exists z,
    solve (Z.to_nat 2) ex_solver
    = Ok (Some (evaluate_objective (P ex_env) (q ex_env) (r ex_env) (g_list ex_env)
                  (final_iterate ex_solver ex_env (scaling_of ex_solver) z)
                  (obj_scale ex_env) (scaling_of ex_solver),
                zip_with Qmult (scaling_of ex_solver)
                  (final_iterate ex_solver ex_env (scaling_of ex_solver) z))).
Proof.
  apply (max_iter_returns ex_solver 2).
  - exact ex_solver_well_shaped.
  - reflexivity.
  - lia.
Defined.

Lemma diag_ruiz_ignores_b (b' : ndarray) :
  ruiz_ignores_b zero_row_diag_solver b'.
Proof. reflexivity. Qed.

Lemma diag_polish_ignores_b : polish_ignores_b zero_row_diag_solver.
Proof. intros z scaling b1 b2. reflexivity. Qed.



(** * Further properties *)

(** ** The main loop *)

Lemma bind_inv {A C} (m : M A) (k : A -> M C) (h : heap) (r : C * heap) :
  bind m k h = Ok r -> exists a h1, m h = Ok (a, h1) /\ k a h1 = Ok r.
Proof.
  unfold bind. destruct (m h) as [[a h1] | ex]; [eauto | discriminate].
Qed.

Lemma get_inv (l : loc) (h : heap) (a : ndarray) (h' : heap) :
  get l h = Ok (a, h') -> h' = h /\ h !! l = Some a.
Proof.
  unfold get. destruct (h !! l); [| discriminate]. now intros [= -> ->].
Qed.

Lemma lift_inv {A} (r : res A) (h : heap) (a : A) (h' : heap) :
  lift r h = Ok (a, h') -> h' = h /\ r = Ok a.
Proof.
  unfold lift. destruct r; [| discriminate]. now intros [= -> ->].
Qed.

Section LoopProperties.
Context {B : Backend}.

(** The three updates advance the iteration count by one and change neither
    the penalty nor the KKT system, whatever the shapes. *)
Lemma admm_updates_frame (self : QSS) (e : env) (st st1 : frame) (h h1 : heap) :
  admm_updates self e st h = Ok (st1, h1) ->
  iter_num st1 = (iter_num st + 1)%Z /\ rho st1 = rho st
  /\ quad_kkt st1 = quad_kkt st /\ quad_kkt_reg st1 = quad_kkt_reg st
  /\ F st1 = F st.
Proof.
  unfold admm_updates. intros H.
  apply bind_inv in H. destruct H as (sx & hx & Hx & H).
  apply bind_inv in H. destruct H as (sz & hz & Hz & Hu).
  assert (Ex : iter_num sx = (iter_num st + 1)%Z /\ rho sx = rho st
               /\ quad_kkt sx = quad_kkt st /\ quad_kkt_reg sx = quad_kkt_reg st
               /\ F sx = F st).
  { unfold x_update in Hx.
    repeat (apply bind_inv in Hx; destruct Hx as (? & ? & _ & Hx)).
    destruct (has_constr e);
      repeat (apply bind_inv in Hx; destruct Hx as (? & ? & _ & Hx));
      injection Hx as <- _; simpl; auto. }
  assert (Ez : iter_num sz = iter_num sx /\ rho sz = rho sx
               /\ quad_kkt sz = quad_kkt sx /\ quad_kkt_reg sz = quad_kkt_reg sx
               /\ F sz = F sx).
  { unfold z_update in Hz.
    repeat (apply bind_inv in Hz; destruct Hz as (? & ? & _ & Hz)).
    injection Hz as <- _; simpl; auto. }
  assert (Eu : iter_num st1 = iter_num sz /\ rho st1 = rho sz
               /\ quad_kkt st1 = quad_kkt sz /\ quad_kkt_reg st1 = quad_kkt_reg sz
               /\ F st1 = F sz).
  { unfold u_update in Hu.
    repeat (apply bind_inv in Hu; destruct Hu as (? & ? & _ & Hu)).
    injection Hu as <- _; simpl; auto. }
  destruct Ex as (? & ? & ? & ? & ?), Ez as (? & ? & ? & ? & ?),
    Eu as (? & ? & ? & ? & ?).
  repeat split; congruence.
Qed.

Lemma iteration_inv (self : QSS) (e : env) (st : frame) (h : heap) (s : step)
  (h' : heap) :
  iteration self e st h = Ok (s, h') ->
  exists st1 h1 xv zv z1v u1v,
    admm_updates self e st h = Ok (st1, h1)
    /\ h1 !! xk1 st1 = Some xv /\ h1 !! zk st1 = Some zv
    /\ h1 !! zk1 st1 = Some z1v /\ h1 !! uk1 st1 = Some u1v
    /\ ((should_stop self e st1 xv zv z1v u1v = true
         /\ exists res, s = Return res /\ finish self e st1 h1 = Ok (res, h'))
        \/ (should_stop self e st1 xv zv z1v u1v = false
            /\ exists st2 r_prim r_dual,
                update_rho e st1 r_prim r_dual h1 = Ok (st2, h')
                /\ s = Continue (rebind st2))).
Proof.
  unfold iteration. intros H.
  apply bind_inv in H. destruct H as (st1 & h1 & Hupd & H).
  apply bind_inv in H. destruct H as (xv & ? & Hx & H).
  apply get_inv in Hx. destruct Hx as [-> Hx].
  apply bind_inv in H. destruct H as (zv & ? & Hz & H).
  apply get_inv in Hz. destruct Hz as [-> Hz].
  apply bind_inv in H. destruct H as (z1v & ? & Hz1 & H).
  apply get_inv in Hz1. destruct Hz1 as [-> Hz1].
  apply bind_inv in H. destruct H as (u1v & ? & Hu1 & H).
  apply get_inv in Hu1. destruct Hu1 as [-> Hu1].
  apply bind_inv in H. destruct H as (d1 & ? & Hd1 & H).
  apply lift_inv in Hd1. destruct Hd1 as [-> Hd1].
  apply bind_inv in H. destruct H as (d2 & ? & Hd2 & H).
  apply lift_inv in Hd2. destruct Hd2 as [-> Hd2].
  exists st1, h1, xv, zv, z1v, u1v. repeat (split; [assumption |]).
  destruct (should_stop self e st1 xv zv z1v u1v).
  - left. split; [reflexivity |].
    apply bind_inv in H. destruct H as (res & h2 & Hfin & H).
    injection H as <- <-. eauto.
  - right. split; [reflexivity |].
    apply bind_inv in H. destruct H as (st2 & h2 & Hrho & H).
    injection H as <- <-. eauto.
Qed.

Lemma update_rho_inv (e : env) (st st2 : frame) (r_prim r_dual : Q)
  (h h' : heap) :
  update_rho e st r_prim r_dual h = Ok (st2, h') ->
  iter_num st2 = iter_num st
  /\ ((iter_num st mod 10)%Z <> 0%Z -> st2 = st /\ h' = h).
Proof.
  unfold update_rho. intros H.
  destruct (iter_num st mod 10 =? 0)%Z eqn:E.
  - apply Z.eqb_eq in E. split; [| intros Hne; contradiction].
    repeat (apply bind_inv in H; destruct H as (? & ? & _ & H)).
    destruct (_ || _).
    + apply bind_inv in H. destruct H as (? & ? & _ & H).
      destruct (has_constr e); [destruct (quad_kkt_reg st); [| discriminate] |];
        injection H as <- _; reflexivity.
    + now injection H as <- _.
  - injection H as <- <-. auto.
Qed.

(** An iteration that goes on to the next one has counted one more
    iteration. *)
Lemma iteration_continue_count (self : QSS) (e : env) (st st' : frame)
  (h h' : heap) :
  iteration self e st h = Ok (Continue st', h') ->
  iter_num st' = (iter_num st + 1)%Z.
Proof.
  intros H. apply iteration_inv in H.
  destruct H as (st1 & h1 & xv & zv & z1v & u1v & Hupd & _ & _ & _ & _ & H).
  apply admm_updates_frame in Hupd. destruct Hupd as (Hit & _).
  destruct H as [(_ & res & Hs & _) | (_ & st2 & rp & rd & Hrho & Hs)];
    [discriminate |].
  injection Hs as ->. apply update_rho_inv in Hrho. destruct Hrho as [Hit2 _].
  simpl. congruence.
Qed.

(** An iteration returns only when its count is the cap or a multiple of
    ten. *)
Lemma iteration_return_count (self : QSS) (e : env) (st : frame) (h h' : heap)
  (res : Q * loc) :
  iteration self e st h = Ok (Return res, h') ->
  _max_iter self = Cap (iter_num st + 1)
  \/ ((iter_num st + 1) mod 10)%Z = 0%Z.
Proof.
  intros H. apply iteration_inv in H.
  destruct H as (st1 & h1 & xv & zv & z1v & u1v & Hupd & _ & _ & _ & _ & H).
  apply admm_updates_frame in Hupd. destruct Hupd as (Hit & _).
  destruct H as [(Hstop & _) | (_ & st2 & rp & rd & _ & Hs)]; [| discriminate].
  unfold should_stop in Hstop. apply orb_true_iff in Hstop.
  destruct Hstop as [Hcap | Hten].
  - left. destruct (_max_iter self) as [| n]; [discriminate |].
    apply Z.eqb_eq in Hcap. congruence.
  - right. apply andb_true_iff in Hten. destruct Hten as [Hten _].
    apply Z.eqb_eq in Hten. congruence.
Qed.

Lemma main_loop_count (self : QSS) (e : env) (fuel : nat) :
  forall st h res h',
    main_loop fuel self e st h = Ok (Some res, h') ->
    exists k,
      (1 <= k <= fuel)%nat
      /\ main_loop k self e st h = Ok (Some res, h')
      /\ (forall j, (j < k)%nat ->
           exists hj, main_loop j self e st h = Ok (None, hj))
      /\ (_max_iter self = Cap (iter_num st + Z.of_nat k)
          \/ ((iter_num st + Z.of_nat k) mod 10)%Z = 0%Z).
Proof.
  induction fuel as [| fuel IH]; intros st h res h' H; [discriminate |].
  simpl in H. apply bind_inv in H. destruct H as (s & h1 & Hit & H).
  destruct s as [res' | st'].
  - injection H as <- <-. exists 1%nat. split; [lia |]. split.
    + simpl. now rewrite (bind_Ok _ _ _ _ _ Hit).
    + split.
      * intros j Hj. assert (j = 0%nat) as -> by lia. exists h. reflexivity.
      * apply iteration_return_count in Hit.
        replace (iter_num st + Z.of_nat 1)%Z with (iter_num st + 1)%Z by lia.
        exact Hit.
  - destruct (IH st' h1 res h' H) as (k & Hk & Hrun & Hmin & Hcount).
    pose proof (iteration_continue_count _ _ _ _ _ _ Hit) as Hn.
    exists (S k). split; [lia |]. split; [| split].
    + simpl. now rewrite (bind_Ok _ _ _ _ _ Hit).
    + intros [| j] Hj; [exists h; reflexivity |].
      destruct (Hmin j ltac:(lia)) as [hj Hj'].
      exists hj. simpl. now rewrite (bind_Ok _ _ _ _ _ Hit).
    + rewrite Hn in Hcount.
      replace (iter_num st + Z.of_nat (S k))%Z
        with (iter_num st + 1 + Z.of_nat k)%Z by lia.
      exact Hcount.
Qed.

Lemma solve_inv (self : QSS) (fuel : nat) (obj : Q) (sol : ndarray) :
  solve fuel self = Ok (Some (obj, sol)) ->
  exists l h', solve_in fuel self [] = Ok (Some (obj, l), h') /\ h' !! l = Some sol.
Proof.
  unfold solve. destruct (solve_in fuel self []) as [[[[o l] |] h'] |];
    try discriminate.
  destruct (h' !! l) as [a |] eqn:E; [| discriminate].
  intros [= <- <-]. eauto.
Qed.

(** When [solve] returns, the number [k] of iterations it has run is the cap
    [max_iter] or a multiple of ten: with fewer than [k] iterations the loop
    has not returned, with [k] it returns the same result. *)
Theorem solve_iteration_count (self : QSS) (fuel : nat) (obj : Q)
  (sol : ndarray) :
  solve fuel self = Ok (Some (obj, sol)) ->
  exists k,
    (1 <= k <= fuel)%nat
    /\ solve k self = Ok (Some (obj, sol))
    /\ (forall j, (j < k)%nat -> solve j self = Ok None)
    /\ (_max_iter self = Cap (Z.of_nat k) \/ (Z.of_nat k mod 10)%Z = 0%Z).
Proof.
  intros H. apply solve_inv in H. destruct H as (l & h' & Hrun & Hl).
  unfold solve_in in Hrun. apply bind_inv in Hrun.
  destruct Hrun as ([e st] & h0 & Hsetup & Hloop). cbn [fst snd] in Hloop.
  destruct (setup_run self) as (st0 & h00 & Hs0 & _ & _ & _ & Hit0 & _).
  rewrite Hs0 in Hsetup. injection Hsetup as <- <- <-.
  destruct (main_loop_count _ _ _ _ _ _ _ Hloop) as (k & Hk & Hrun & Hmin & Hc).
  rewrite Hit0 in Hc. simpl in Hc.
  exists k. split; [exact Hk |]. split; [| split; [| exact Hc]].
  - unfold solve, solve_in. rewrite (bind_Ok _ _ _ _ _ Hs0). cbn [fst snd].
    now rewrite Hrun, Hl.
  - intros j Hj. destruct (Hmin j Hj) as [hj Hj'].
    unfold solve, solve_in. rewrite (bind_Ok _ _ _ _ _ Hs0). cbn [fst snd].
    now rewrite Hj'.
Qed.

(** Between two tenth iterations the penalty is frozen: an iteration whose
    count is no multiple of ten hands the penalty, both KKT matrices and the
    factorization handle to the next iteration as it received them. *)
Theorem penalty_frozen_between_tenths (self : QSS) (e : env) (st st' : frame)
  (h h' : heap) :
  iteration self e st h = Ok (Continue st', h') ->
  ((iter_num st + 1) mod 10)%Z <> 0%Z ->
  rho st' = rho st /\ quad_kkt st' = quad_kkt st
  /\ quad_kkt_reg st' = quad_kkt_reg st /\ F st' = F st.
Proof.
  intros H Hten. apply iteration_inv in H.
  destruct H as (st1 & h1 & xv & zv & z1v & u1v & Hupd & _ & _ & _ & _ & H).
  apply admm_updates_frame in Hupd.
  destruct Hupd as (Hit & Hr & Hq & Hqr & HF).
  destruct H as [(_ & res & Hs & _) | (_ & st2 & rp & rd & Hrho & Hs)];
    [discriminate |].
  injection Hs as ->. apply update_rho_inv in Hrho.
  destruct Hrho as [_ Hsame]. rewrite Hit in Hsame.
  destruct (Hsame Hten) as [-> _]. simpl. auto.
Qed.

Lemma iteration_nonpositive_cap (self : QSS) (n : Z) (e : env) (st : frame)
  (h : heap) :
  (n <= 0)%Z -> (0 <= iter_num st)%Z ->
  iteration (with_max_iter (Cap n) self) e st h
  = iteration (with_max_iter Unbounded self) e st h.
Proof.
  intros Hn Hst. unfold iteration.
  change (admm_updates (with_max_iter (Cap n) self) e st)
    with (admm_updates (with_max_iter Unbounded self) e st).
  unfold bind.
  destruct (admm_updates (with_max_iter Unbounded self) e st h)
    as [[st1 h1] |] eqn:Hupd; [| reflexivity].
  apply admm_updates_frame in Hupd. destruct Hupd as (Hit & _).
  destruct (get (xk1 st1) h1) as [[xv h2] |]; [| reflexivity].
  destruct (get (zk st1) h2) as [[zv h3] |]; [| reflexivity].
  destruct (get (zk1 st1) h3) as [[z1v h4] |]; [| reflexivity].
  destruct (get (uk1 st1) h4) as [[u1v h5] |]; [| reflexivity].
  destruct (lift (broadcast2 Qminus xv z1v) h5) as [[d1 h6] |]; [| reflexivity].
  destruct (lift (broadcast2 Qminus zv z1v) h6) as [[d2 h7] |]; [| reflexivity].
  assert (Hstop : should_stop (with_max_iter (Cap n) self) e st1 xv zv z1v u1v
                  = should_stop (with_max_iter Unbounded self) e st1 xv zv z1v u1v).
  { unfold should_stop. simpl.
    assert (E : (iter_num st1 =? n)%Z = false) by (apply Z.eqb_neq; lia).
    now rewrite E. }
  rewrite Hstop. reflexivity.
Qed.

Lemma main_loop_nonpositive_cap (self : QSS) (n : Z) (e : env) (fuel : nat) :
  (n <= 0)%Z ->
  forall st h,
    (0 <= iter_num st)%Z ->
    main_loop fuel (with_max_iter (Cap n) self) e st h
    = main_loop fuel (with_max_iter Unbounded self) e st h.
Proof.
  intros Hn. induction fuel as [| fuel IH]; intros st h Hst; [reflexivity |].
  simpl. unfold bind. rewrite (iteration_nonpositive_cap self n e st h Hn Hst).
  destruct (iteration (with_max_iter Unbounded self) e st h)
    as [[[res | st'] h'] |] eqn:Hit; try reflexivity.
  apply IH. apply iteration_continue_count in Hit. lia.
Qed.

(** A cap that is zero or negative never ends the loop: [solve] behaves as
    with no cap at all ([max_iter = np.inf]). *)
Theorem nonpositive_cap_is_unbounded (self : QSS) (n : Z) (fuel : nat) :
  (n <= 0)%Z ->
  solve fuel (with_max_iter (Cap n) self)
  = solve fuel (with_max_iter Unbounded self).
Proof.
  intros Hn. unfold solve, solve_in.
  change (setup (with_max_iter (Cap n) self))
    with (setup (with_max_iter Unbounded self)).
  unfold bind.
  destruct (setup_run (with_max_iter Unbounded self))
    as (st & h & Hs & _ & _ & _ & Hit & _).
  rewrite Hs. cbn [fst snd].
  rewrite main_loop_nonpositive_cap by (assumption || lia). reflexivity.
Qed.

Lemma iteration_iter_refinement (self : QSS) (flag : bool) (e : env)
  (st : frame) :
  has_constr e = false ->
  iteration (with_iter_refinement flag self) e st = iteration self e st.
Proof.
  intros Hc.
  assert (Hupd : admm_updates (with_iter_refinement flag self) e st
                 = admm_updates self e st).
  { unfold admm_updates, x_update. now rewrite Hc. }
  unfold iteration. now rewrite Hupd.
Qed.

Lemma main_loop_iter_refinement (self : QSS) (flag : bool) (e : env)
  (fuel : nat) :
  has_constr e = false ->
  forall st h,
    main_loop fuel (with_iter_refinement flag self) e st h
    = main_loop fuel self e st h.
Proof.
  intros Hc. induction fuel as [| fuel IH]; intros st h; [reflexivity |].
  simpl. unfold bind. rewrite (iteration_iter_refinement self flag e st Hc).
  destruct (iteration self e st h) as [[[res | st'] h'] |]; auto.
Qed.

(** For a problem whose [A] has no stored entry, [use_iter_refinement] has no
    effect on [solve]: the refined solve is only used on the constrained
    path. *)
Theorem iter_refinement_unused_without_constraints (self : QSS) (flag : bool)
  (fuel : nat) :
  nnz (data_A (_data self)) = 0%nat ->
  solve fuel (with_iter_refinement flag self) = solve fuel self.
Proof.
  intros Hnnz. unfold solve, solve_in.
  change (setup (with_iter_refinement flag self)) with (setup self).
  unfold bind.
  destruct (setup_run self) as (st & h & Hs & _).
  rewrite Hs. cbn [fst snd].
  rewrite main_loop_iter_refinement; [reflexivity |].
  unfold initial_env.
  destruct (preconditioned self) as [[[[[[P' q'] r'] A'] b0] sc] c]. simpl.
  now rewrite Hnnz.
Qed.

Lemma final_iterate_length (self : QSS) (e : env) (scaling z : ndarray) :
  (_polish self = true -> polish_preserves_length) ->
  length (final_iterate self e scaling z) = length z.
Proof.
  intros Hp. unfold final_iterate.
  destruct (_polish self); [apply (Hp eq_refl) | reflexivity].
Qed.

Lemma iteration_return_length (self : QSS) (e : env) (st : frame) (h h' : heap)
  (scaling : ndarray) (obj : Q) (l : loc) :
  loop_invariant self e st h scaling ->
  iteration self e st h = Ok (Return (obj, l), h') ->
  exists sol, h' !! l = Some sol /\ length sol = dim e.
Proof.
  intros Hinv Hit.
  pose proof Hinv as
    ((zv & Hz & Lz) & (uv & Hu & Lu) & He & Le & Lq & Hk & Hs & Hp & Hreg).
  destruct (admm_updates_run self e st h zv uv scaling Hs Hk Hz Hu He Lz Lu Le Lq)
    as (st1 & h1 & xv & z & u & Hrun & _ & Hz1 & _ & _ & _ & _ & _ & _ & _ & Lz1 & _).
  destruct (iteration_run self e st h scaling Hinv)
    as (st1' & h1' & z' & Hrun' & Hz1' & s & h'' & Hit' & _ & Hs').
  rewrite Hrun in Hrun'. injection Hrun' as <- <-.
  rewrite Hz1 in Hz1'. injection Hz1' as <-.
  rewrite Hit in Hit'. injection Hit' as Es Eh. subst s h''.
  destruct Hs' as [_ Hl]. eexists. split; [exact Hl |].
  rewrite length_zip_with, final_iterate_length by exact Hp. lia.
Qed.

Lemma main_loop_solution_length (self : QSS) (e : env) (scaling : ndarray)
  (fuel : nat) :
  forall st h obj l h',
    loop_invariant self e st h scaling ->
    main_loop fuel self e st h = Ok (Some (obj, l), h') ->
    exists sol, h' !! l = Some sol /\ length sol = dim e.
Proof.
  induction fuel as [| fuel IH]; intros st h obj l h' Hinv H; [discriminate |].
  simpl in H. apply bind_inv in H. destruct H as (s & h1 & Hit & H).
  destruct s as [[obj' l'] | st'].
  - injection H as <- <- <-.
    eapply iteration_return_length; eassumption.
  - destruct (iteration_run self e st h scaling Hinv)
      as (sa & ha & za & _ & _ & s & h'' & Hit' & _ & Hs').
    rewrite Hit in Hit'. injection Hit' as Es Eh. subst s h''.
    destruct Hs' as (Hinv' & _). eapply IH; eassumption.
Qed.

(** Whenever [solve] returns on a well-shaped problem, under any cap, the
    solution it returns has the dimension of [P]. *)
Theorem solve_solution_length (self : QSS) (fuel : nat) (obj : Q)
  (sol : ndarray) :
  well_shaped self ->
  solve fuel self = Ok (Some (obj, sol)) ->
  length sol = shape0 (data_P (_data self)).
Proof.
  intros Hw H. apply solve_inv in H. destruct H as (l & h' & Hrun & Hl).
  unfold solve_in in Hrun. apply bind_inv in Hrun.
  destruct Hrun as ([e st] & h0 & Hsetup & Hloop). cbn [fst snd] in Hloop.
  destruct (well_shaped_env self Hw) as (Lq & Le & Hk & Hs & Hp).
  destruct (setup_run self)
    as (st0 & h00 & Hs0 & He & Hz & Hu & Hit & _ & Hreg & _).
  rewrite Hs0 in Hsetup. injection Hsetup as <- <- <-.
  assert (Hinv : loop_invariant self (initial_env self) st0 h00 (scaling_of self)).
  { unfold loop_invariant.
    split; [eexists; split;
            [exact Hz | rewrite initial_env_dim; apply repeat_length] |].
    split; [eexists; split;
            [exact Hu | rewrite initial_env_dim; apply repeat_length] |].
    tauto. }
  destruct (main_loop_solution_length _ _ _ _ _ _ _ _ _ Hinv Hloop)
    as (sol' & Hl' & Hlen).
  rewrite Hl in Hl'. injection Hl' as <-.
  now rewrite <- initial_env_dim.
Qed.

Lemma applied_candidate_nonzero (c rho0 : Q) :
  5 < c / rho0 \/ 5 < rho0 / c -> ~ c == 0.
Proof.
  intros H Hc.
  assert (E1 : c / rho0 == 0) by (unfold Qdiv; rewrite Hc; ring).
  assert (E2 : rho0 / c == 0).
  { unfold Qdiv. rewrite Hc. change (/ 0) with 0. ring. }
  rewrite E1, E2 in H. destruct H as [H | H]; lra.
Qed.

(** The penalty update keeps the unscaled dual variable: whether it is
    applied or not, [rho * u] is the same before and after, entry by
    entry. *)
Theorem penalty_update_preserves_dual (e : env) (st : frame)
  (r_prim r_dual : Q) (h : heap) (xv z1v u1v : ndarray) :
  h !! xk1 st = Some xv -> h !! zk1 st = Some z1v -> h !! uk1 st = Some u1v ->
  (has_constr e = true -> is_Some (quad_kkt_reg st)) ->
  exists st' h' u',
    update_rho e st r_prim r_dual h = Ok (st', h')
    /\ h' !! uk1 st' = Some u'
    /\ Forall2 (fun a a' => rho st' * a' == rho st * a) u1v u'.
Proof.
  intros Hx Hz Hu Hreg. unfold update_rho.
  assert (Hsame : Forall2 (fun a a' => rho st * a' == rho st * a) u1v u1v).
  { clear. induction u1v; constructor; [reflexivity | assumption]. }
  destruct (iter_num st mod 10 =? 0)%Z.
  - run_get Hx. run_get Hz. run_get Hu.
    set (c := rho_candidate st r_prim r_dual xv z1v u1v).
    destruct (Qltb 5 (c / rho st) || Qltb 5 (rho st / c)) eqn:Ea.
    + assert (Hc : ~ c == 0).
      { apply applied_candidate_nonzero with (rho0 := rho st).
        apply orb_true_iff in Ea. rewrite !Qltb_lt in Ea. exact Ea. }
      assert (Hscaled : Forall2 (fun a a' => c * a' == rho st * a) u1v
                          (map (fun u => u * rho st / c) u1v)).
      { clearbody c. clear - Hc.
        induction u1v as [| a u IH]; simpl; constructor; [| exact IH].
        field. exact Hc. }
      run_alloc.
      destruct (has_constr e) eqn:Ec.
      * destruct (Hreg eq_refl) as [m Hm]. rewrite Hm. cbv zeta. unfold ret.
        eexists _, _, _. split; [reflexivity |]. simpl.
        split; [apply lookup_alloc | exact Hscaled].
      * cbv zeta. unfold ret.
        eexists _, _, _. split; [reflexivity |]. simpl.
        split; [apply lookup_alloc | exact Hscaled].
    + exists st, h, u1v. unfold ret. auto.
  - exists st, h, u1v. unfold ret. auto.
Qed.

End LoopProperties.

(** ** get_subdifferential: range, errors and meaning of the result *)

Lemma foldM_invariant {A C} (P : A -> Prop) (f : A -> C -> res A) (l : list C) :
  (forall a c a', P a -> f a c = Ok a' -> P a') ->
  forall a a', P a -> foldM f l a = Ok a' -> P a'.
Proof.
  intros Hstep. induction l as [| c l IH]; intros a a' Ha H; simpl in H.
  - now injection H as <-.
  - destruct (f a c) as [a1 |] eqn:E; [| discriminate].
    eapply IH; [eapply Hstep; eassumption | exact H].
Qed.

Lemma subdiff_at_bounded (x target output out : ndarray) (i : nat) :
  Forall (fun o => -(1) <= o /\ o <= 1) output ->
  subdiff_at x target output i = Ok out ->
  Forall (fun o => -(1) <= o /\ o <= 1) out.
Proof.
  intros Hb. unfold subdiff_at.
  destruct (x !! i) as [xi |]; [| discriminate].
  destruct (Qeq_bool xi 0).
  - destruct (target !! i) as [ti |]; [| discriminate].
    destruct (Qltb 1 ti) eqn:E1.
    + intros [= <-]. apply Forall_insert; [exact Hb | lra].
    + destruct (Qltb ti (-(1))) eqn:E2.
      * intros [= <-]. apply Forall_insert; [exact Hb | lra].
      * apply Qltb_ge in E1, E2.
        intros [= <-]. apply Forall_insert; [exact Hb | lra].
  - destruct (Qltb 0 xi).
    + intros [= <-]. apply Forall_insert; [exact Hb | lra].
    + destruct (Qltb xi 0).
      * intros [= <-]. apply Forall_insert; [exact Hb | lra].
      * now intros [= <-].
Qed.

(** Whatever the terms, [x] and [target]: when [get_subdifferential] returns,
    every entry of the result lies in [[-1, 1]]. *)
Theorem get_subdifferential_bounded (g_list : list term) (x target out : ndarray) :
  get_subdifferential g_list x target = Ok out ->
  Forall (fun o => -(1) <= o /\ o <= 1) out.
Proof.
  unfold get_subdifferential.
  apply (foldM_invariant (Forall (fun o => -(1) <= o /\ o <= 1))).
  - intros a t a' Ha. unfold subdiff_term. destruct (range t) as [s e].
    destruct (String.eqb (g t) "abs"); [| now intros [= <-]].
    apply (foldM_invariant (Forall (fun o => -(1) <= o /\ o <= 1)));
      [| exact Ha].
    intros b i b'. apply subdiff_at_bounded.
  - apply Forall_forall. intros o Ho.
    apply list_elem_of_In, repeat_spec in Ho. subst o. lra.
Qed.

Lemma subdiff_range_overrun (x target : ndarray) (k s : nat) (output : ndarray) :
  (0 < k)%nat -> (length x < s + k)%nat -> length target = length x ->
  foldM (subdiff_at x target) (seq s k) output = Raise IndexError.
Proof.
  revert s output. induction k as [| k IH]; intros s output Hk Hs Ht; [lia |].
  simpl. destruct (decide (s < length x)%nat) as [Hlt | Hge].
  - rewrite subdiff_at_run by assumption. apply IH; [lia | lia | exact Ht].
  - unfold subdiff_at. now rewrite lookup_ge_None_2 by lia.
Qed.

Lemma overruns_dec (x : ndarray) (t : term) : {overruns x t} + {~ overruns x t}.
Proof.
  unfold overruns.
  destruct (decide (g t = "abs")); [| right; tauto].
  destruct (decide (fst (range t) < snd (range t))%nat); [| right; tauto].
  destruct (decide (length x < snd (range t))%nat); [left | right]; tauto.
Qed.

Lemma subdiff_term_overrun (x target output : ndarray) (t : term) :
  length target = length x -> overruns x t ->
  subdiff_term x target output t = Raise IndexError.
Proof.
  intros Ht (Habs & Hse & He). unfold subdiff_term.
  destruct (range t) as [s e]. simpl in *.
  apply String.eqb_eq in Habs. rewrite Habs.
  apply subdiff_range_overrun; [lia | lia | exact Ht].
Qed.

Lemma subdiff_fold_overrun (x target : ndarray) (g_list : list term) :
  length target = length x ->
  Exists (overruns x) g_list ->
  forall output, length output = length x ->
  foldM (subdiff_term x target) g_list output = Raise IndexError.
Proof.
  intros Ht. induction g_list as [| t rest IH]; intros Hex output Ho.
  - inversion Hex.
  - simpl. destruct (overruns_dec x t) as [Hbad | Hgood].
    + now rewrite subdiff_term_overrun.
    + destruct (subdiff_term_run x target output t Ht Ho) as (out1 & Hrun & Hlen & _).
      { intros Habs Hse. unfold overruns in Hgood.
        destruct (decide (snd (range t) <= length x)%nat); [assumption |].
        exfalso. apply Hgood. repeat split; [assumption | assumption | lia]. }
      rewrite Hrun. apply IH; [| exact Hlen].
      apply Exists_cons in Hex. destruct Hex as [Hex | Hex];
        [contradiction | exact Hex].
Qed.

(** The errors of [get_subdifferential], for a [target] as long as [x]: it
    raises [IndexError] exactly when some abs-kind term has a non-empty range
    that ends beyond [x]; otherwise it returns an array as long as [x].  The
    ranges of the other kinds are never looked at. *)
Theorem get_subdifferential_errors (g_list : list term) (x target : ndarray) :
  length target = length x ->
  (Exists (overruns x) g_list ->
   get_subdifferential g_list x target = Raise IndexError)
  /\ (~ Exists (overruns x) g_list ->
      exists out, get_subdifferential g_list x target = Ok out
                  /\ length out = length x).
Proof.
  intros Ht. split.
  - intros Hex. unfold get_subdifferential.
    apply subdiff_fold_overrun; [exact Ht | exact Hex | apply repeat_length].
  - intros Hnone. unfold get_subdifferential.
    destruct (subdiff_fold_run x target g_list Ht) with (output := repeat 0 (length x))
      as (out & Hrun & Hlen & _).
    + apply Forall_forall. intros t Hin Habs Hse.
      destruct (decide (snd (range t) <= length x)%nat); [assumption |].
      exfalso. apply Hnone. apply Exists_exists. exists t.
      split; [exact Hin |]. repeat split; [assumption | assumption | lia].
    + apply repeat_length.
    + eauto.
Qed.

Lemma subdiff_value_subgradient (xi ti y : Q) :
  Qabs xi + subdiff_value xi ti * (y - xi) <= Qabs y.
Proof.
  assert (Hy : y <= Qabs y /\ - y <= Qabs y).
  { split; [apply Qle_Qabs |]. rewrite <- Qabs_opp. apply Qle_Qabs. }
  unfold subdiff_value. destruct (Qeq_bool xi 0) eqn:E0.
  - apply Qeq_bool_iff in E0. rewrite E0. change (Qabs 0) with 0.
    destruct (Qltb 1 ti) eqn:E1; [lra |].
    destruct (Qltb ti (-(1))) eqn:E2; [lra |].
    apply Qltb_ge in E1, E2.
    destruct (Qlt_le_dec y 0) as [Hneg | Hpos].
    + assert (H : 0 <= (1 - ti) * - y) by (apply Qmult_le_0_compat; lra).
      lra.
    + assert (H : 0 <= (1 + ti) * y) by (apply Qmult_le_0_compat; lra).
      lra.
  - apply Qeq_bool_neq in E0. destruct (Qltb 0 xi) eqn:E1.
    + apply Qltb_lt in E1. rewrite Qabs_pos by lra. lra.
    + apply Qltb_ge in E1. rewrite Qabs_neg by lra. lra.
Qed.

(** What [get_subdifferential] returns is a subgradient of the absolute value:
    at every coordinate in the range of an abs-kind term, the entry [o]
    satisfies [|x[i]| + o * (y - x[i]) <= |y|] for every [y]. *)
Theorem get_subdifferential_subgradient (g_list : list term)
  (x target : ndarray) :
  length target = length x ->
  ~ Exists (overruns x) g_list ->
  exists out,
    get_subdifferential g_list x target = Ok out
    /\ forall i xi oi, abs_covered g_list i ->
         x !! i = Some xi -> out !! i = Some oi ->
         forall y, Qabs xi + oi * (y - xi) <= Qabs y.
Proof.
  intros Ht Hnone. unfold get_subdifferential.
  destruct (subdiff_fold_run x target g_list Ht) with (output := repeat 0 (length x))
    as (out & Hrun & Hlen & Hout).
  - apply Forall_forall. intros t Hin Habs Hse.
    destruct (decide (snd (range t) <= length x)%nat); [assumption |].
    exfalso. apply Hnone. apply Exists_exists. exists t.
    split; [exact Hin |]. repeat split; [assumption | assumption | lia].
  - apply repeat_length.
  - exists out. split; [exact Hrun |].
    intros i xi oi Hc Hxi Hoi y.
    assert (Hi : (i < length x)%nat) by (eapply lookup_lt_Some; eassumption).
    destruct (Hout i Hi) as [Hin _]. rewrite (Hin Hc) in Hoi.
    injection Hoi as <-. unfold subdiff_entry. rewrite Hxi.
    destruct (lookup_lt_is_Some_2 target i ltac:(lia)) as [ti ->].
    apply subdiff_value_subgradient.
Qed.

Lemma subdiff_value_nearest (xi ti s : Q) :
  xi == 0 -> -(1) <= s -> s <= 1 ->
  Qabs (subdiff_value xi ti + ti) <= Qabs (s + ti).
Proof.
  intros Hx Hlo Hhi. unfold subdiff_value.
  apply Qeq_bool_iff in Hx. rewrite Hx.
  destruct (Qltb 1 ti) eqn:E1.
  - apply Qltb_lt in E1. rewrite !Qabs_pos by lra. lra.
  - apply Qltb_ge in E1. destruct (Qltb ti (-(1))) eqn:E2.
    + apply Qltb_lt in E2. rewrite !Qabs_neg by lra. lra.
    + assert (E : - ti + ti == 0) by ring. rewrite E.
      change (Qabs 0) with 0. apply Qabs_nonneg.
Qed.

(** The role of [target]: at a coordinate of an abs-kind range where
    [x[i] = 0], the entry returned is the point of [[-1, 1]] closest to
    [-target[i]]; so it cancels [target[i]] exactly when [|target[i]| <= 1]. *)
Theorem get_subdifferential_certificate (g_list : list term)
  (x target : ndarray) :
  length target = length x ->
  ~ Exists (overruns x) g_list ->
  exists out,
    get_subdifferential g_list x target = Ok out
    /\ forall i xi ti oi, abs_covered g_list i ->
         x !! i = Some xi -> target !! i = Some ti -> out !! i = Some oi ->
         xi == 0 ->
         (forall s, -(1) <= s -> s <= 1 -> Qabs (oi + ti) <= Qabs (s + ti))
         /\ (oi + ti == 0 <-> -(1) <= ti /\ ti <= 1).
Proof.
  intros Ht Hnone. unfold get_subdifferential.
  destruct (subdiff_fold_run x target g_list Ht) with (output := repeat 0 (length x))
    as (out & Hrun & Hlen & Hout).
  - apply Forall_forall. intros t Hin Habs Hse.
    destruct (decide (snd (range t) <= length x)%nat); [assumption |].
    exfalso. apply Hnone. apply Exists_exists. exists t.
    split; [exact Hin |]. repeat split; [assumption | assumption | lia].
  - apply repeat_length.
  - exists out. split; [exact Hrun |].
    intros i xi ti oi Hc Hxi Hti Hoi Hx.
    assert (Hi : (i < length x)%nat) by (eapply lookup_lt_Some; eassumption).
    destruct (Hout i Hi) as [Hin _]. rewrite (Hin Hc) in Hoi.
    injection Hoi as <-. unfold subdiff_entry. rewrite Hxi, Hti.
    split; [intros s; now apply subdiff_value_nearest |].
    pose proof (subdiff_value_zero xi ti Hx) as Hclip.
    rewrite Hclip. unfold Spec.clip. split.
    + intros H0.
      destruct (Qlt_le_dec 1 ti) as [H1 | H1].
      * rewrite (Q.max_r (- ti) (-(1))) in H0 by lra.
        rewrite Q.min_l in H0 by lra. lra.
      * destruct (Qlt_le_dec ti (-(1))) as [H2 | H2]; [| lra].
        rewrite (Q.max_l (- ti) (-(1))) in H0 by lra.
        rewrite Q.min_r in H0 by lra. lra.
    + intros [H1 H2].
      rewrite (Q.max_l (- ti) (-(1))) by lra. rewrite Q.min_l by lra. ring.
Qed.

(** ** The operators as proximal operators *)

Lemma Qsquare_nonneg (a : Q) : 0 <= a * a.
Proof.
  destruct (Qlt_le_dec a 0) as [H | H].
  - assert (E : a * a == (- a) * (- a)) by ring. rewrite E.
    apply Qmult_le_0_compat; lra.
  - apply Qmult_le_0_compat; lra.
Qed.

Lemma Qabs_bounds (x : Q) : x <= Qabs x /\ - x <= Qabs x.
Proof.
  split; [apply Qle_Qabs |]. rewrite <- Qabs_opp. apply Qle_Qabs.
Qed.

(** The soft-threshold minimises [|x| + (rho/2) (x - v)^2]. *)
Lemma soft_threshold_minimises (rho v x : Q) :
  0 < rho ->
  Qabs (Spec.soft_threshold rho v)
    + rho / 2 * ((Spec.soft_threshold rho v - v) * (Spec.soft_threshold rho v - v))
  <= Qabs x + rho / 2 * ((x - v) * (x - v)).
Proof.
  intros Hrho.
  assert (K : 0 < 1 / rho).
  { unfold Qdiv. rewrite Qmult_1_l. now apply Qinv_lt_0_compat. }
  assert (Hne : ~ rho == 0) by lra.
  assert (Hhalf : 0 <= rho / 2).
  { unfold Qdiv. apply Qmult_le_0_compat; [lra | discriminate]. }
  rewrite (soft_threshold_shrink rho v Hrho).
  destruct (Qabs_bounds x) as [Hx1 Hx2].
  unfold Spec.shrink.
  destruct (Qltb (1 / rho) v) eqn:E1.
  - apply Qltb_lt in E1. rewrite Qabs_pos by lra.
    assert (Hsq : 0 <= rho / 2 * ((x - v + 1 / rho) * (x - v + 1 / rho))).
    { apply Qmult_le_0_compat; [exact Hhalf | apply Qsquare_nonneg]. }
    assert (E : Qabs x + rho / 2 * ((x - v) * (x - v))
                - (v - 1 / rho + rho / 2 * ((v - 1 / rho - v) * (v - 1 / rho - v)))
                == rho / 2 * ((x - v + 1 / rho) * (x - v + 1 / rho)) + (Qabs x - x))
      by (field; exact Hne).
    lra.
  - apply Qltb_ge in E1. destruct (Qltb v (- (1 / rho))) eqn:E2.
    + apply Qltb_lt in E2. rewrite Qabs_neg by lra.
      assert (Hsq : 0 <= rho / 2 * ((x - v - 1 / rho) * (x - v - 1 / rho))).
      { apply Qmult_le_0_compat; [exact Hhalf | apply Qsquare_nonneg]. }
      assert (E : Qabs x + rho / 2 * ((x - v) * (x - v))
                  - (- (v + 1 / rho)
                     + rho / 2 * ((v + 1 / rho - v) * (v + 1 / rho - v)))
                  == rho / 2 * ((x - v - 1 / rho) * (x - v - 1 / rho))
                     + (Qabs x + x))
        by (field; exact Hne).
      lra.
    + apply Qltb_ge in E2. change (Qabs 0) with 0.
      assert (Hrv : -(1) <= rho * v /\ rho * v <= 1).
      { assert (E : rho * (1 / rho) == 1) by (field; exact Hne).
        assert (H1 : 0 <= rho * (1 / rho - v)) by (apply Qmult_le_0_compat; lra).
        assert (H2 : 0 <= rho * (v + 1 / rho)) by (apply Qmult_le_0_compat; lra).
        assert (E1' : rho * (1 / rho - v) == 1 - rho * v) by (field; exact Hne).
        assert (E2' : rho * (v + 1 / rho) == rho * v + 1) by (field; exact Hne).
        lra. }
      assert (Hsq : 0 <= rho / 2 * (x * x)).
      { apply Qmult_le_0_compat; [exact Hhalf | apply Qsquare_nonneg]. }
      assert (Hlin : rho * v * x <= Qabs x).
      { destruct (Qlt_le_dec x 0) as [Hneg | Hpos].
        - assert (H : 0 <= (1 + rho * v) * - x) by (apply Qmult_le_0_compat; lra).
          assert (E : (1 + rho * v) * - x == - x - rho * v * x) by ring. lra.
        - assert (H : 0 <= (1 - rho * v) * x) by (apply Qmult_le_0_compat; lra).
          assert (E : (1 - rho * v) * x == x - rho * v * x) by ring. lra. }
      assert (E : Qabs x + rho / 2 * ((x - v) * (x - v))
                  - (0 + rho / 2 * ((0 - v) * (0 - v)))
                  == rho / 2 * (x * x) + (Qabs x - rho * v * x))
        by (field; exact Hne).
      lra.
Qed.

Lemma Forall2_map_same (P : Q -> Q -> Prop) (f : Q -> Q) (l : ndarray) :
  (forall x, P x (f x)) -> Forall2 P l (map f l).
Proof.
  intros H. induction l as [| x l IH]; simpl; constructor; auto.
Qed.

(** [prox_abs] is the proximal operator of the absolute value: for a penalty
    [rho > 0], each entry [p] of its result minimises
    [|x| + (rho/2) (x - v)^2] over all [x], where [v] is the entry of the
    argument. *)
Theorem prox_abs_minimises (rho : Q) (l : loc) (a : ndarray) (h : heap) :
  0 < rho ->
  h !! l = Some a ->
  exists out,
    prox_abs (Num rho) (Ref l) h = Ok (Ref (length h), h ++ [out])
    /\ Forall2 (fun v p => forall x,
                  Qabs p + rho / 2 * ((p - v) * (p - v))
                  <= Qabs x + rho / 2 * ((x - v) * (x - v))) a out.
Proof.
  intros Hrho Hl. exists (map (Spec.soft_threshold rho) a).
  split; [now apply prox_abs_scalar |].
  apply Forall2_map_same. intros v x. now apply soft_threshold_minimises.
Qed.

Lemma nonneg_nearest (v x : Q) :
  0 <= x -> (Qmax v 0 - v) * (Qmax v 0 - v) <= (x - v) * (x - v).
Proof.
  intros Hx. destruct (Qlt_le_dec v 0) as [Hv | Hv].
  - rewrite (Q.max_r v 0) by lra.
    assert (H : 0 <= x * (x - 2 * v)) by (apply Qmult_le_0_compat; lra).
    assert (E : (x - v) * (x - v) - (0 - v) * (0 - v) == x * (x - 2 * v)) by ring.
    lra.
  - rewrite (Q.max_l v 0) by lra.
    assert (E : (v - v) * (v - v) == 0) by ring. rewrite E.
    apply Qsquare_nonneg.
Qed.

Lemma clamp01_nearest (v x : Q) :
  0 <= x -> x <= 1 ->
  (Spec.clamp01 v - v) * (Spec.clamp01 v - v) <= (x - v) * (x - v).
Proof.
  intros Hx0 Hx1. unfold Spec.clamp01.
  destruct (Qlt_le_dec 1 v) as [Hv1 | Hv1].
  - rewrite (Q.min_l 1 v) by lra. rewrite (Q.max_r 0 1) by lra.
    assert (H : 0 <= (1 - x) * (2 * v - 1 - x)) by (apply Qmult_le_0_compat; lra).
    assert (E : (x - v) * (x - v) - (1 - v) * (1 - v)
                == (1 - x) * (2 * v - 1 - x)) by ring.
    lra.
  - rewrite (Q.min_r 1 v) by lra.
    destruct (Qlt_le_dec v 0) as [Hv0 | Hv0].
    + rewrite (Q.max_l 0 v) by lra.
      assert (H : 0 <= x * (x - 2 * v)) by (apply Qmult_le_0_compat; lra).
      assert (E : (x - v) * (x - v) - (0 - v) * (0 - v) == x * (x - 2 * v))
        by ring.
      lra.
    + rewrite (Q.max_r 0 v) by lra.
      assert (E : (v - v) * (v - v) == 0) by ring. rewrite E.
      apply Qsquare_nonneg.
Qed.

(** [prox_indge0] and [prox_indbox01] are projections: each entry of the
    array they leave in their argument is the point of the set (the
    nonnegative numbers, the interval [[0, 1]]) closest to the entry it
    replaces. *)
Theorem projections_nearest (rho : value) (l : loc) (v : ndarray) (h : heap) :
  h !! l = Some v ->
  (exists out,
      prox_indge0 rho (Ref l) h = Ok (Ref l, <[l:=out]> h)
      /\ Forall2 (fun a p => 0 <= p /\ forall x, 0 <= x ->
                    (p - a) * (p - a) <= (x - a) * (x - a)) v out)
  /\ (exists out,
      prox_indbox01 rho (Ref l) h = Ok (Ref l, <[l:=out]> h)
      /\ Forall2 (fun a p => (0 <= p /\ p <= 1) /\ forall x, 0 <= x -> x <= 1 ->
                    (p - a) * (p - a) <= (x - a) * (x - a)) v out).
Proof.
  intros Hl. split.
  - exists (Spec.proximal Spec.IndicatorNonneg [] v).
    split; [now apply prox_indge0_run |].
    simpl. apply Forall2_map_same. intros a.
    split; [apply Q.le_max_r | intros x; apply nonneg_nearest].
  - exists (Spec.proximal Spec.IndicatorBox01 [] v).
    split; [now apply prox_indbox01_run |].
    simpl. apply Forall2_map_same. intros a.
    split; [apply clamp01_bounds | intros x; apply clamp01_nearest].
Qed.

Lemma max0_idempotent (y : Q) : Qmax (Qmax y 0) 0 = Qmax y 0.
Proof.
  rewrite (Qmax_ltb y). destruct (Qltb y 0) eqn:E.
  - reflexivity.
  - rewrite Qmax_ltb. now rewrite E.
Qed.

Lemma clamp01_idempotent (y : Q) : Spec.clamp01 (Spec.clamp01 y) = Spec.clamp01 y.
Proof.
  unfold Spec.clamp01. rewrite (Qmin_1_le y).
  destruct (Qle_bool 1 y) eqn:E1.
  - reflexivity.
  - rewrite (Qmax_0_le y). destruct (Qle_bool y 0) eqn:E2.
    + reflexivity.
    + rewrite Qmin_1_le, E1. now rewrite Qmax_0_le, E2.
Qed.

(** The projections are idempotent: applied a second time to the array they
    have just overwritten, [prox_indge0] and [prox_indbox01] leave every
    buffer exactly as it is. *)
Theorem projections_idempotent (rho rho' : value) (l : loc) (v : ndarray)
  (h : heap) :
  h !! l = Some v ->
  (exists h1,
      prox_indge0 rho (Ref l) h = Ok (Ref l, h1)
      /\ prox_indge0 rho' (Ref l) h1 = Ok (Ref l, h1))
  /\ (exists h1,
      prox_indbox01 rho (Ref l) h = Ok (Ref l, h1)
      /\ prox_indbox01 rho' (Ref l) h1 = Ok (Ref l, h1)).
Proof.
  intros Hl.
  assert (L : (l < length h)%nat) by (eapply lookup_lt_Some; eassumption).
  split.
  - exists (<[l:=Spec.proximal Spec.IndicatorNonneg [] v]> h).
    split; [now apply prox_indge0_run |].
    rewrite (prox_indge0_run rho' l [] (Spec.proximal Spec.IndicatorNonneg [] v))
      by (now apply list_lookup_insert_eq).
    rewrite list_insert_insert_eq. simpl. rewrite map_map.
    do 3 f_equal. apply map_ext. intros y. apply max0_idempotent.
  - exists (<[l:=Spec.proximal Spec.IndicatorBox01 [] v]> h).
    split; [now apply prox_indbox01_run |].
    rewrite (prox_indbox01_run rho' l [] (Spec.proximal Spec.IndicatorBox01 [] v))
      by (now apply list_lookup_insert_eq).
    rewrite list_insert_insert_eq. simpl. rewrite map_map.
    do 3 f_equal. apply map_ext. intros y. apply clamp01_idempotent.
Qed.

(** ** apply_prox_ops: errors, ranges and order of the terms *)

Lemma prox_ops_unknown (name : string) :
  Spec.kind_of name = None -> prox_ops name = None.
Proof.
  unfold Spec.kind_of, prox_ops.
  repeat match goal with
         | |- context [String.eqb name ?s] =>
             destruct (String.eqb name s); [discriminate |]
         end.
  reflexivity.
Qed.

Lemma prox_term_unknown (rho : Q) (le lx : loc) (eqv : ndarray) (t : term)
  (h : heap) :
  h !! le = Some eqv -> Spec.kind_of (g t) = None ->
  prox_term rho (Ref le) t (Ref lx) h = Raise KeyError.
Proof.
  intros He Hk. unfold prox_term. destruct (range t) as [s e].
  rewrite (prox_ops_unknown _ Hk).
  erewrite bind_Ok by reflexivity. run_get He. run_alloc. reflexivity.
Qed.

(** The errors of [apply_prox_ops], for a scaling and an [x] that are
    distinct arrays of the same length: it raises [KeyError] exactly when some
    term names no operator of the table; otherwise it returns [x]. *)
Theorem apply_prox_ops_errors (rho : Q) (le lx : loc) (eqv : ndarray)
  (g_list : list term) :
  forall (xv : ndarray) (h : heap),
    h !! le = Some eqv -> h !! lx = Some xv -> le <> lx ->
    length eqv = length xv ->
    (known_terms g_list ->
     exists h', apply_prox_ops rho (Ref le) g_list (Ref lx) h = Ok (Ref lx, h'))
    /\ (~ known_terms g_list ->
        apply_prox_ops rho (Ref le) g_list (Ref lx) h = Raise KeyError).
Proof.
  intros xv h He Hx Hne Hlen. split.
  - intros Hk.
    destruct (apply_prox_ops_run rho le lx eqv g_list Hk xv h He Hx Hne Hlen)
      as (h' & Hrun & _). eauto.
  - revert xv h He Hx Hlen.
    induction g_list as [| t rest IH]; intros xv h He Hx Hlen Hnk.
    + exfalso. apply Hnk. constructor.
    + simpl. destruct (Spec.kind_of (g t)) as [k |] eqn:Hk.
      * destruct (prox_term_run rho le lx eqv xv t h He Hx Hne Hlen)
          as (h1 & Hrun & Hx1 & Hframe1 & _); [eauto |].
        rewrite (bind_Ok _ _ _ _ _ Hrun). apply (IH (Spec.term_update rho eqv t xv)).
        -- rewrite Hframe1; [exact He | | exact Hne].
           eapply lookup_lt_Some; eassumption.
        -- exact Hx1.
        -- now rewrite term_update_length.
        -- intros Hrest. apply Hnk. constructor; [eauto | exact Hrest].
      * erewrite bind_Raise; [reflexivity |].
        now apply prox_term_unknown with (eqv := eqv).
Qed.

(** A term whose range is empty once clipped to [x] changes nothing. *)
Lemma term_update_empty (rho : Q) (eqv xv : ndarray) (t : term) :
  length eqv = length xv ->
  (snd (range t) <= fst (range t) \/ length xv <= fst (range t))%nat ->
  Spec.term_update rho eqv t xv = xv.
Proof.
  intros Hlen Hr. unfold Spec.term_update.
  destruct (range t) as [s e]. simpl in Hr.
  destruct (Spec.kind_of (g t)) as [k |]; [| reflexivity].
  pose proof (term_out_length rho eqv xv k s e (arg_or 1 scale t)
                (arg_or 0 shift t) (arg_or 1 weight t) Hlen) as L.
  cbv zeta in L.
  match goal with
  | |- take s xv ++ ?out ++ _ = _ =>
      assert (Hout : out = []);
      [apply length_zero_iff_nil; rewrite L, slice_length; lia |]
  end.
  rewrite Hout. simpl. rewrite Nat.add_0_r. apply take_drop.
Qed.

(** Ranges are clipped, not checked: a term whose range is empty
    ([end <= start]) or starts at or beyond the end of [x] is accepted and
    leaves [x] as it is, whatever its kind and arguments. *)
Theorem apply_prox_ops_empty_range (rho : Q) (le lx : loc) (eqv xv : ndarray)
  (t : term) (h : heap) :
  h !! le = Some eqv -> h !! lx = Some xv -> le <> lx ->
  length eqv = length xv ->
  is_Some (Spec.kind_of (g t)) ->
  (snd (range t) <= fst (range t) \/ length xv <= fst (range t))%nat ->
  exists h',
    apply_prox_ops rho (Ref le) [t] (Ref lx) h = Ok (Ref lx, h')
    /\ h' !! lx = Some xv
    /\ (forall j, (j < length h)%nat -> h' !! j = h !! j).
Proof.
  intros He Hx Hne Hlen Hk Hr.
  destruct (apply_prox_ops_run rho le lx eqv [t]) with (xv := xv) (h := h)
    as (h' & Hrun & Hx' & Hframe & _); try assumption.
  { constructor; [exact Hk | constructor]. }
  exists h'. split; [exact Hrun |].
  unfold Spec.applyProximalAll in Hx'. simpl in Hx'.
  rewrite term_update_empty in Hx' by assumption.
  split; [exact Hx' |].
  intros j Hj. destruct (decide (j = lx)) as [-> | Hjx].
  - now rewrite Hx', Hx.
  - now apply Hframe.
Qed.

Lemma term_update_commute (rho : Q) (eqv xv : ndarray) (t1 t2 : term) :
  length eqv = length xv ->
  (forall i, ~ (Spec.covers t1 i /\ Spec.covers t2 i)) ->
  Spec.term_update rho eqv t2 (Spec.term_update rho eqv t1 xv)
  = Spec.term_update rho eqv t1 (Spec.term_update rho eqv t2 xv).
Proof.
  intros Hlen Hdis.
  assert (L1 : length eqv = length (Spec.term_update rho eqv t1 xv))
    by (now rewrite term_update_length).
  assert (L2 : length eqv = length (Spec.term_update rho eqv t2 xv))
    by (now rewrite term_update_length).
  apply list_eq. intros i.
  destruct (decide (i < length xv)%nat) as [Hi | Hi].
  - destruct (lookup_lt_is_Some_2 xv i Hi) as [y Hy].
    destruct (lookup_lt_is_Some_2 eqv i ltac:(lia)) as [d Hd].
    assert (Hcase : forall ta tb,
               length eqv = length (Spec.term_update rho eqv tb xv) ->
               Spec.covers ta i -> ~ Spec.covers tb i ->
               Spec.term_update rho eqv ta (Spec.term_update rho eqv tb xv) !! i
               = Spec.term_update rho eqv ta xv !! i).
    { intros ta tb Lb Ha Hb.
      assert (Hyb : Spec.term_update rho eqv tb xv !! i = Some y).
      { rewrite term_update_outside by assumption. exact Hy. }
      destruct (Spec.kind_of (g ta)) as [k |] eqn:Hk.
      - pose proof (term_update_inside rho eqv _ ta k i d y Lb Hk Ha Hd Hyb) as E1.
        pose proof (term_update_inside rho eqv xv ta k i d y Hlen Hk Ha Hd Hy) as E2.
        cbv zeta in E1, E2. now rewrite E1, E2.
      - unfold Spec.term_update at 1 3. rewrite Hk.
        destruct (range ta). rewrite Hyb. now rewrite Hy. }
    destruct (decide (Spec.covers t1 i)) as [H1 | H1];
      destruct (decide (Spec.covers t2 i)) as [H2 | H2].
    + exfalso. apply (Hdis i). now split.
    + rewrite (term_update_outside rho eqv _ t2 i L1 H2).
      now rewrite (Hcase t1 t2 L2 H1 H2).
    + rewrite (Hcase t2 t1 L1 H2 H1).
      now rewrite (term_update_outside rho eqv _ t1 i L2 H1).
    + rewrite !term_update_outside by assumption. reflexivity.
  - rewrite !lookup_ge_None_2; [reflexivity | |];
      rewrite !term_update_length by assumption; lia.
Qed.

Lemma applyProximalAll_app (rho : Q) (eqv : ndarray) (g1 g2 : list term)
  (xv : ndarray) :
  Spec.applyProximalAll rho eqv (g1 ++ g2) xv
  = Spec.applyProximalAll rho eqv g2 (Spec.applyProximalAll rho eqv g1 xv).
Proof. unfold Spec.applyProximalAll. apply fold_left_app. Qed.

Lemma known_terms_swap (pre rest : list term) (t1 t2 : term) :
  known_terms (pre ++ t1 :: t2 :: rest) -> known_terms (pre ++ t2 :: t1 :: rest).
Proof.
  unfold known_terms. rewrite !Forall_app, !Forall_cons. tauto.
Qed.

(** The order of two consecutive terms with disjoint ranges does not matter:
    exchanging them leaves the same contents in [x]. *)
Theorem apply_prox_ops_swap (rho : Q) (le lx : loc) (eqv xv : ndarray)
  (pre rest : list term) (t1 t2 : term) (h : heap) :
  h !! le = Some eqv -> h !! lx = Some xv -> le <> lx ->
  length eqv = length xv ->
  known_terms (pre ++ t1 :: t2 :: rest) ->
  (forall i, ~ (Spec.covers t1 i /\ Spec.covers t2 i)) ->
  exists h1 h2 x',
    apply_prox_ops rho (Ref le) (pre ++ t1 :: t2 :: rest) (Ref lx) h
      = Ok (Ref lx, h1)
    /\ apply_prox_ops rho (Ref le) (pre ++ t2 :: t1 :: rest) (Ref lx) h
       = Ok (Ref lx, h2)
    /\ h1 !! lx = Some x' /\ h2 !! lx = Some x'.
Proof.
  intros He Hx Hne Hlen Hk Hdis.
  destruct (apply_prox_ops_run rho le lx eqv _ Hk xv h He Hx Hne Hlen)
    as (h1 & Hrun1 & Hx1 & _).
  destruct (apply_prox_ops_run rho le lx eqv _ (known_terms_swap _ _ _ _ Hk)
              xv h He Hx Hne Hlen) as (h2 & Hrun2 & Hx2 & _).
  exists h1, h2, (Spec.applyProximalAll rho eqv (pre ++ t1 :: t2 :: rest) xv).
  split; [exact Hrun1 |]. split; [exact Hrun2 |]. split; [exact Hx1 |].
  rewrite Hx2. f_equal. rewrite !applyProximalAll_app.
  unfold Spec.applyProximalAll at 1 3. simpl.
  rewrite term_update_commute; [reflexivity | | intros i [H2 H1]; now apply (Hdis i)].
  now rewrite applyProximalAll_length.
Qed.

(** The new value of a coordinate that one term covers and no other. *)
Lemma applyProximalAll_at (rho : Q) (eqv xv : ndarray) (pre post : list term)
  (t : term) (k : Spec.kind) (i : nat) (d y : Q) :
  length eqv = length xv ->
  Spec.kind_of (g t) = Some k ->
  Spec.covers t i ->
  (forall t', t' ∈ pre ++ post -> ~ Spec.covers t' i) ->
  eqv !! i = Some d -> xv !! i = Some y ->
  Spec.applyProximalAll rho eqv (pre ++ t :: post) xv !! i
  = Some ((Spec.proximal1 k (rho / (arg_or 1 weight t * (d * arg_or 1 scale t) ^ 2))
             (d * arg_or 1 scale t * y - arg_or 0 shift t)
           + arg_or 0 shift t) / (d * arg_or 1 scale t)).
Proof.
  intros Hlen Hk Hc Hother Hd Hy.
  rewrite applyProximalAll_app.
  change (t :: post) with ([t] ++ post). rewrite applyProximalAll_app.
  set (x1 := Spec.applyProximalAll rho eqv pre xv).
  assert (L1 : length eqv = length x1)
    by (unfold x1; now rewrite applyProximalAll_length).
  assert (Hy1 : x1 !! i = Some y).
  { unfold x1. rewrite applyProximalAll_outside; [exact Hy | exact Hlen |].
    intros t' Hin. apply Hother. apply elem_of_app. now left. }
  rewrite applyProximalAll_outside.
  - unfold Spec.applyProximalAll. simpl.
    pose proof (term_update_inside rho eqv x1 t k i d y L1 Hk Hc Hd Hy1) as E.
    cbv zeta in E. exact E.
  - unfold Spec.applyProximalAll at 1. simpl. now rewrite term_update_length.
  - intros t' Hin. apply Hother. apply elem_of_app. now right.
Qed.

(** ** apply_prox_ops: what the rescaling achieves *)

Lemma Qsquare_pos (a : Q) : ~ a == 0 -> 0 < a * a.
Proof.
  intros Ha. destruct (Qlt_le_dec a 0) as [H | H].
  - assert (E : a * a == (- a) * (- a)) by ring. rewrite E.
    apply Qmult_lt_0_compat; lra.
  - assert (0 < a) by (destruct (Qle_lt_or_eq _ _ H) as [H' | H'];
                       [exact H' | exfalso; apply Ha; now symmetry]).
    now apply Qmult_lt_0_compat.
Qed.

Lemma local_penalty_pos (rho w s : Q) :
  0 < rho -> 0 < w -> ~ s == 0 -> 0 < rho / (w * s ^ 2).
Proof.
  intros Hrho Hw Hs.
  assert (E : s ^ 2 == s * s) by (simpl; ring).
  assert (Hd : 0 < w * s ^ 2).
  { rewrite E. apply Qmult_lt_0_compat; [exact Hw | now apply Qsquare_pos]. }
  unfold Qdiv. apply Qmult_lt_0_compat; [exact Hrho |].
  now apply Qinv_lt_0_compat.
Qed.

(** With [v = s x0 - c] and [t = S(v)] the soft-threshold at penalty
    [rho / (w s^2)], the point [(t + c) / s] minimises
    [w |s y - c| + (rho/2) (y - x0)^2] over [y]. *)
Lemma affine_abs_minimises (rho w s c x0 y : Q) :
  0 < rho -> 0 < w -> ~ s == 0 ->
  w * Qabs (s * ((Spec.soft_threshold (rho / (w * s ^ 2)) (s * x0 - c) + c) / s) - c)
  + rho / 2 * (((Spec.soft_threshold (rho / (w * s ^ 2)) (s * x0 - c) + c) / s - x0)
               * ((Spec.soft_threshold (rho / (w * s ^ 2)) (s * x0 - c) + c) / s - x0))
  <= w * Qabs (s * y - c) + rho / 2 * ((y - x0) * (y - x0)).
Proof.
  intros Hrho Hw Hs.
  pose proof (local_penalty_pos rho w s Hrho Hw Hs) as Hlam.
  set (lam := rho / (w * s ^ 2)) in *.
  set (v := s * x0 - c).
  set (t := Spec.soft_threshold lam v).
  pose proof (soft_threshold_minimises lam v (s * y - c) Hlam) as Hmin.
  fold t in Hmin.
  assert (Hw0 : ~ w == 0) by lra.
  assert (E1 : s * ((t + c) / s) - c == t) by (field; exact Hs).
  assert (E2 : rho / 2 * (((t + c) / s - x0) * ((t + c) / s - x0))
               == w * (lam / 2 * ((t - v) * (t - v)))).
  { unfold lam, v. field. split; assumption. }
  assert (E3 : rho / 2 * ((y - x0) * (y - x0))
               == w * (lam / 2 * ((s * y - c - v) * (s * y - c - v)))).
  { unfold lam, v. field. split; assumption. }
  rewrite E1, E2, E3.
  rewrite <- !Qmult_plus_distr_r.
  apply Qmult_le_l; [exact Hw | exact Hmin].
Qed.

(** [apply_prox_ops] computes the proximal operator of the weighted, scaled
    and shifted absolute value in the scaled variable: at a coordinate [i]
    covered by one abs-kind term only, with positive penalty and weight and
    nonzero [equil_scaling[i] * scale], the new [x[i]] minimises
    [weight * |scale * (equil_scaling[i] * y) - shift| + (rho/2) (y - x[i])^2]
    over [y]. *)
Theorem apply_prox_ops_abs_minimises (rho : Q) (le lx : loc) (eqv xv : ndarray)
  (pre post : list term) (t : term) (i : nat) (d x0 : Q) (h : heap) :
  h !! le = Some eqv -> h !! lx = Some xv -> le <> lx ->
  length eqv = length xv ->
  known_terms (pre ++ t :: post) ->
  g t = "abs" -> Spec.covers t i ->
  (forall t', t' ∈ pre ++ post -> ~ Spec.covers t' i) ->
  eqv !! i = Some d -> xv !! i = Some x0 ->
  0 < rho -> 0 < arg_or 1 weight t -> ~ d * arg_or 1 scale t == 0 ->
  exists h' x' z,
    apply_prox_ops rho (Ref le) (pre ++ t :: post) (Ref lx) h = Ok (Ref lx, h')
    /\ h' !! lx = Some x' /\ x' !! i = Some z
    /\ forall y,
         arg_or 1 weight t * Qabs (arg_or 1 scale t * (d * z) - arg_or 0 shift t)
         + rho / 2 * ((z - x0) * (z - x0))
         <= arg_or 1 weight t * Qabs (arg_or 1 scale t * (d * y) - arg_or 0 shift t)
            + rho / 2 * ((y - x0) * (y - x0)).
Proof.
  intros He Hx Hne Hlen Hk Habs Hc Hother Hd Hx0 Hrho Hw Hs.
  destruct (apply_prox_ops_run rho le lx eqv _ Hk xv h He Hx Hne Hlen)
    as (h' & Hrun & Hx' & _).
  assert (Hkind : Spec.kind_of (g t) = Some Spec.Abs) by (now rewrite Habs).
  pose proof (applyProximalAll_at rho eqv xv pre post t Spec.Abs i d x0
                Hlen Hkind Hc Hother Hd Hx0) as Hi.
  simpl in Hi.
  set (w := arg_or 1 weight t) in *. set (sc := arg_or 1 scale t) in *.
  set (c := arg_or 0 shift t) in *.
  set (z := (Spec.soft_threshold (rho / (w * (d * sc) ^ 2)) (d * sc * x0 - c) + c)
            / (d * sc)) in *.
  exists h', (Spec.applyProximalAll rho eqv (pre ++ t :: post) xv), z.
  split; [exact Hrun |]. split; [exact Hx' |]. split; [exact Hi |].
  intros y.
  pose proof (affine_abs_minimises rho w (d * sc) c x0 y Hrho Hw Hs) as Hmin.
  fold z in Hmin.
  assert (Ez : sc * (d * z) - c == d * sc * z - c) by ring.
  assert (Ey : sc * (d * y) - c == d * sc * y - c) by ring.
  rewrite Ez, Ey. exact Hmin.
Qed.

Lemma proximal1_in_domain (k : Spec.kind) (lam v : Q) :
  in_domain k (Spec.proximal1 k lam v).
Proof.
  destruct k; simpl; try exact I.
  - apply Q.le_max_r.
  - apply clamp01_bounds.
  - reflexivity.
Qed.

Lemma proximal1_nearest (k : Spec.kind) (lam v u : Q) :
  k <> Spec.Abs -> in_domain k u ->
  (Spec.proximal1 k lam v - v) * (Spec.proximal1 k lam v - v)
  <= (u - v) * (u - v).
Proof.
  intros Hk Hu. destruct k; simpl in *; try contradiction.
  - assert (E : (v - v) * (v - v) == 0) by ring. rewrite E.
    apply Qsquare_nonneg.
  - now apply nonneg_nearest.
  - destruct Hu. now apply clamp01_nearest.
  - rewrite Hu. lra.
Qed.

Lemma in_domain_Qeq (k : Spec.kind) (u u' : Q) :
  u == u' -> in_domain k u -> in_domain k u'.
Proof.
  intros E. destruct k; simpl; try tauto.
  - now rewrite E.
  - now rewrite E.
  - now rewrite E.
Qed.


(** ** apply_g_funcs: errors, overlapping terms, value *)

Lemma ext_eq_refl (a : ext) : ext_eq a a.
Proof. destruct a; simpl; auto. reflexivity. Qed.

Lemma ext_eq_sym (a b : ext) : ext_eq a b -> ext_eq b a.
Proof. destruct a, b; simpl; auto. intros H. now symmetry. Qed.

Lemma ext_eq_trans (a b c : ext) : ext_eq a b -> ext_eq b c -> ext_eq a c.
Proof.
  destruct a, b, c; simpl; auto; try contradiction.
  intros H1 H2. now rewrite H1.
Qed.

#[local] Instance ext_eq_equiv : Equivalence ext_eq.
Proof.
  split; [exact ext_eq_refl | exact ext_eq_sym | exact ext_eq_trans].
Qed.

#[local] Instance ext_add_proper : Proper (ext_eq ==> ext_eq ==> ext_eq) ext_add.
Proof.
  intros a a' Ha b b' Hb.
  destruct a, a'; simpl in Ha; try contradiction;
    destruct b, b'; simpl in Hb; try contradiction; simpl; auto.
  now rewrite Ha, Hb.
Qed.

Lemma ext_add_assoc (a b c : ext) :
  ext_eq (ext_add a (ext_add b c)) (ext_add (ext_add a b) c).
Proof. destruct a, b, c; simpl; auto. ring. Qed.

Lemma ext_add_comm (a b : ext) : ext_eq (ext_add a b) (ext_add b a).
Proof. destruct a, b; simpl; auto. ring. Qed.

Lemma ext_add_0_r (a : ext) : ext_eq (ext_add a (Fin 0)) a.
Proof. destruct a; simpl; auto. ring. Qed.

Lemma ext_add_0_l (a : ext) : ext_eq (ext_add (Fin 0) a) a.
Proof. destruct a; simpl; auto. ring. Qed.

Lemma fold_ext_add_proper (l : list ext) (a b : ext) :
  ext_eq a b -> ext_eq (fold_left ext_add l a) (fold_left ext_add l b).
Proof.
  revert a b. induction l as [| e l IH]; intros a b H; simpl; [exact H |].
  apply IH. now rewrite H.
Qed.

Lemma fold_ext_add (l : list ext) (a : ext) :
  ext_eq (fold_left ext_add l a) (ext_add a (ext_sum l)).
Proof.
  revert a. induction l as [| e l IH]; intros a; simpl.
  - symmetry. apply ext_add_0_r.
  - unfold ext_sum. simpl. rewrite (IH (ext_add a e)).
    rewrite (IH (ext_add (Fin 0) e)). rewrite ext_add_0_l.
    symmetry. apply ext_add_assoc.
Qed.

Lemma ext_sum_app (a b : list ext) :
  ext_eq (ext_sum (a ++ b)) (ext_add (ext_sum a) (ext_sum b)).
Proof. unfold ext_sum at 1. rewrite fold_left_app. apply fold_ext_add. Qed.

Lemma ext_sum_cons (e : ext) (l : list ext) :
  ext_eq (ext_sum (e :: l)) (ext_add e (ext_sum l)).
Proof.
  change (e :: l) with ([e] ++ l). rewrite ext_sum_app.
  unfold ext_sum at 1. cbn [fold_left]. now rewrite ext_add_0_l.
Qed.

Lemma ext_sum_zero (l : list ext) :
  Forall (fun e => ext_eq e (Fin 0)) l -> ext_eq (ext_sum l) (Fin 0).
Proof.
  induction 1 as [| e l He _ IH]; [reflexivity |].
  rewrite ext_sum_cons, He, IH. simpl. ring.
Qed.

Lemma ext_sum_repeat_special (e : ext) (k : nat) :
  ~ is_fin e -> (0 < k)%nat -> ext_eq (ext_sum (repeat e k)) e.
Proof.
  intros He Hk. destruct k as [| k]; [lia |]. clear Hk.
  induction k as [| k IH].
  - simpl. unfold ext_sum. simpl. apply ext_add_0_l.
  - change (repeat e (S (S k))) with (e :: repeat e (S k)).
    rewrite ext_sum_cons, IH. destruct e; simpl in *; auto.
    exfalso. now apply He.
Qed.

Lemma ext_sum_scaled (w : Q) (a : ndarray) :
  ext_eq (ext_sum (map (fun q => Fin (w * q)) a))
    (Fin (w * fold_right Qplus 0 a)).
Proof.
  induction a as [| q a IH]; simpl.
  - ring.
  - rewrite ext_sum_cons, IH. simpl. ring.
Qed.

Lemma g_funcs_known (name : string) :
  is_Some (Spec.kind_of name) <-> is_Some (g_funcs name).
Proof.
  unfold Spec.kind_of, g_funcs.
  repeat match goal with
         | |- context [String.eqb name ?s] =>
             destruct (String.eqb name s); [split; eauto |]
         end.
  split; intros [? H]; discriminate.
Qed.

Lemma g_funcs_of_kind (name : string) (k : Spec.kind) :
  Spec.kind_of name = Some k ->
  g_funcs name
  = Some match k with
         | Spec.Zero => g_zero
         | Spec.Abs => g_abs
         | Spec.IndicatorNonneg => g_indge0
         | Spec.IndicatorBox01 => g_indbox01
         | Spec.IndicatorZero => g_is_zero
         end.
Proof.
  intros H.
  destruct (kind_of_cases name k H) as [[-> ->] | [[-> ->] | [[-> ->] | [[-> ->] | [-> ->]]]]];
    reflexivity.
Qed.

Lemma g_written_length (x : ndarray) (t : term) :
  is_Some (Spec.kind_of (g t)) ->
  length (g_written x t) = length (slice (fst (range t)) (snd (range t)) x).
Proof.
  intros [k Hk]. unfold g_written. rewrite (g_funcs_of_kind _ _ Hk).
  destruct k; simpl; rewrite ?repeat_length, ?length_map; reflexivity.
Qed.

Lemma slice_length_ext (s e : nat) (x : ndarray) (y : list ext) :
  length y = length x ->
  length (take (e - s) (drop s y)) = length (slice s e x).
Proof.
  intros H. unfold slice. rewrite !length_take, !length_drop. lia.
Qed.

(** One term of a known kind never fails: it overwrites its slice of [y]. *)
Lemma g_term_run (x : ndarray) (y : list ext) (t : term) :
  length y = length x ->
  is_Some (Spec.kind_of (g t)) ->
  g_term x y t
  = Ok (take (fst (range t)) y ++ g_written x t
        ++ drop (fst (range t) + length (g_written x t)) y).
Proof.
  intros Hlen Hk.
  pose proof (g_written_length x t Hk) as L.
  destruct Hk as [k Hk].
  unfold g_term, g_written in *. destruct (range t) as [s e]. simpl in *.
  rewrite (g_funcs_of_kind _ _ Hk) in *.
  rewrite (slice_length_ext s e x y Hlen).
  destruct k; simpl in *;
    rewrite ?length_map, ?repeat_length, ?Nat.eqb_refl in *; reflexivity.
Qed.

Lemma g_term_unknown (x : ndarray) (y : list ext) (t : term) :
  Spec.kind_of (g t) = None -> g_term x y t = Raise KeyError.
Proof.
  intros Hk. unfold g_term. destruct (range t) as [s e].
  destruct (g_funcs (g t)) eqn:E; [| reflexivity].
  assert (H : is_Some (Spec.kind_of (g t))) by (apply g_funcs_known; eauto).
  rewrite Hk in H. destruct H; discriminate.
Qed.

Lemma splice_ext_length (s : nat) (y new : list ext) :
  (length new <= length y - s)%nat ->
  length (take s y ++ new ++ drop (s + length new) y) = length y.
Proof.
  intros H. rewrite !length_app, length_take, length_drop. lia.
Qed.

Lemma splice_ext_outside (s i : nat) (y new : list ext) :
  (length new <= length y - s)%nat ->
  (i < s \/ s + length new <= i)%nat ->
  (take s y ++ new ++ drop (s + length new) y) !! i = y !! i.
Proof.
  intros H Hi.
  destruct (decide (i < length y)%nat) as [Hlt | Hge].
  - destruct Hi as [Hi | Hi].
    + rewrite lookup_app_l by (rewrite length_take; lia).
      apply lookup_take_lt. lia.
    + rewrite lookup_app_r by (rewrite length_take; lia).
      rewrite lookup_app_r by (rewrite length_take; lia).
      rewrite lookup_drop. f_equal. rewrite length_take. lia.
  - rewrite (lookup_ge_None_2 y) by lia.
    apply lookup_ge_None_2. rewrite splice_ext_length by exact H. lia.
Qed.

Lemma g_term_length (x : ndarray) (y y' : list ext) (t : term) :
  length y = length x -> g_term x y t = Ok y' -> length y' = length x.
Proof.
  intros Hlen H.
  destruct (Spec.kind_of (g t)) as [k |] eqn:Hk.
  - rewrite g_term_run in H by eauto. injection H as <-.
    rewrite splice_ext_length; [exact Hlen |].
    rewrite g_written_length by eauto. rewrite slice_length. lia.
  - rewrite g_term_unknown in H by exact Hk. discriminate.
Qed.

Lemma g_fold_length (x : ndarray) (g_list : list term) (y y' : list ext) :
  length y = length x -> foldM (g_term x) g_list y = Ok y' ->
  length y' = length x.
Proof.
  apply (foldM_invariant (fun y => length y = length x)).
  intros a c a' Ha H. eapply g_term_length; eassumption.
Qed.

Lemma g_fold_run (x : ndarray) (g_list : list term) :
  known_terms g_list ->
  forall y, length y = length x ->
            exists y', foldM (g_term x) g_list y = Ok y'.
Proof.
  induction 1 as [| t rest Ht _ IH]; intros y Hlen; simpl; [eauto |].
  rewrite g_term_run by assumption.
  apply IH. rewrite splice_ext_length; [exact Hlen |].
  rewrite g_written_length by assumption. rewrite slice_length. lia.
Qed.

Lemma g_fold_unknown (x : ndarray) (g_list : list term) :
  ~ known_terms g_list ->
  forall y, length y = length x ->
            foldM (g_term x) g_list y = Raise KeyError.
Proof.
  induction g_list as [| t rest IH]; intros Hnk y Hlen.
  - exfalso. apply Hnk. constructor.
  - simpl. destruct (Spec.kind_of (g t)) as [k |] eqn:Hk.
    + rewrite g_term_run by eauto. apply IH.
      * intros Hrest. apply Hnk. constructor; [eauto | exact Hrest].
      * rewrite splice_ext_length; [exact Hlen |].
        rewrite g_written_length by eauto. rewrite slice_length. lia.
    + now rewrite g_term_unknown.
Qed.

(** The errors of [apply_g_funcs]: it raises [KeyError] exactly when some term
    names no function of the table, and returns a number otherwise, whatever
    the ranges and the length of [x]. *)
Theorem apply_g_funcs_errors (g_list : list term) (x : ndarray) :
  (known_terms g_list -> exists r, apply_g_funcs g_list x = Ok r)
  /\ (~ known_terms g_list -> apply_g_funcs g_list x = Raise KeyError).
Proof.
  unfold apply_g_funcs. split; intros H.
  - destruct (g_fold_run x g_list H (repeat (Fin 0) (length x))) as [y' Hy'];
      [apply repeat_length |].
    rewrite Hy'. eauto.
  - rewrite g_fold_unknown; [reflexivity | exact H | apply repeat_length].
Qed.

Lemma foldM_app {A C} (f : A -> C -> res A) (l1 l2 : list C) (a : A) :
  foldM f (l1 ++ l2) a
  = match foldM f l1 a with
    | Ok a' => foldM f l2 a'
    | Raise e => Raise e
    end.
Proof.
  revert a. induction l1 as [| c l1 IH]; intros a; simpl; [reflexivity |].
  destruct (f a c); [apply IH | reflexivity].
Qed.

Lemma splice_ext_inside (s i : nat) (y new : list ext) :
  (length new <= length y - s)%nat ->
  (s <= i < s + length new)%nat ->
  (take s y ++ new ++ drop (s + length new) y) !! i = new !! (i - s)%nat.
Proof.
  intros H Hi.
  rewrite lookup_app_r by (rewrite length_take; lia).
  rewrite length_take, Nat.min_l by lia.
  apply lookup_app_l. lia.
Qed.

Lemma g_written_fits (x : ndarray) (y : list ext) (t : term) :
  length y = length x -> is_Some (Spec.kind_of (g t)) ->
  (length (g_written x t) <= length y - fst (range t))%nat.
Proof.
  intros Hlen Hk. rewrite g_written_length by exact Hk.
  rewrite slice_length. lia.
Qed.

(** Two arrays that agree at an index still do after the same term has been
    written to both. *)
Lemma g_term_agree (x : ndarray) (y1 y2 : list ext) (t : term) (i : nat) :
  length y1 = length x -> length y2 = length x ->
  is_Some (Spec.kind_of (g t)) ->
  y1 !! i = y2 !! i ->
  (take (fst (range t)) y1 ++ g_written x t
   ++ drop (fst (range t) + length (g_written x t)) y1) !! i
  = (take (fst (range t)) y2 ++ g_written x t
     ++ drop (fst (range t) + length (g_written x t)) y2) !! i.
Proof.
  intros L1 L2 Hk Hi.
  pose proof (g_written_fits x y1 t L1 Hk) as F1.
  pose proof (g_written_fits x y2 t L2 Hk) as F2.
  destruct (decide (fst (range t) <= i < fst (range t) + length (g_written x t))%nat)
    as [Hin | Hout].
  - now rewrite !splice_ext_inside.
  - rewrite !splice_ext_outside by (assumption || lia). exact Hi.
Qed.

(** The index is inside the written part of a term that covers it. *)
Lemma g_written_covers (x : ndarray) (t : term) (i : nat) :
  is_Some (Spec.kind_of (g t)) -> Spec.covers t i -> (i < length x)%nat ->
  (fst (range t) <= i < fst (range t) + length (g_written x t))%nat.
Proof.
  intros Hk [H1 H2] Hi. rewrite g_written_length by exact Hk.
  rewrite slice_length. lia.
Qed.

Lemma g_fold_agree (x : ndarray) (P : nat -> Prop) (l : list term) :
  forall y1 y2,
    length y1 = length x -> length y2 = length x ->
    (forall i, P i -> y1 !! i = y2 !! i) ->
    match foldM (g_term x) l y1, foldM (g_term x) l y2 with
    | Ok a, Ok b =>
        length a = length x /\ length b = length x
        /\ forall i, P i -> a !! i = b !! i
    | Raise e1, Raise e2 => e1 = e2
    | _, _ => False
    end.
Proof.
  induction l as [| u l IH]; intros y1 y2 L1 L2 Hag; simpl; [auto |].
  destruct (Spec.kind_of (g u)) as [k |] eqn:Hk.
  - rewrite !g_term_run by eauto. apply IH.
    + rewrite splice_ext_length; [exact L1 | apply g_written_fits; eauto].
    + rewrite splice_ext_length; [exact L2 | apply g_written_fits; eauto].
    + intros i Hi. apply g_term_agree; eauto.
  - now rewrite !g_term_unknown.
Qed.

(** A term of a known kind whose range lies within the range of a later term
    has no effect on the result: the later term overwrites what it wrote, so
    the values of overlapping terms are not added up. *)
Theorem apply_g_funcs_shadowed (pre mid post : list term) (t' t : term)
  (x : ndarray) :
  is_Some (Spec.kind_of (g t')) ->
  (fst (range t) <= fst (range t'))%nat ->
  (snd (range t') <= snd (range t))%nat ->
  apply_g_funcs (pre ++ t' :: mid ++ t :: post) x
  = apply_g_funcs (pre ++ mid ++ t :: post) x.
Proof.
  intros Hk' Hlo Hhi. unfold apply_g_funcs.
  rewrite !foldM_app. set (y0 := repeat (Fin 0) (length x)).
  destruct (foldM (g_term x) pre y0) as [ya | e0] eqn:Epre; [| reflexivity].
  assert (La : length ya = length x).
  { eapply g_fold_length; [| exact Epre]. apply repeat_length. }
  simpl. rewrite g_term_run by assumption.
  set (yb := take (fst (range t')) ya ++ g_written x t'
             ++ drop (fst (range t') + length (g_written x t')) ya).
  assert (F' : (length (g_written x t') <= length ya - fst (range t'))%nat)
    by now apply g_written_fits.
  assert (Lb : length yb = length x)
    by (unfold yb; now rewrite splice_ext_length).
  rewrite !foldM_app.
  pose proof (g_fold_agree x (fun i => ~ Spec.covers t' i) mid yb ya Lb La) as Hmid.
  destruct (foldM (g_term x) mid yb) as [y1 | e1];
    destruct (foldM (g_term x) mid ya) as [y2 | e2];
    try (exfalso; apply Hmid; intros i Hi; unfold yb;
         apply splice_ext_outside; [exact F' |];
         rewrite g_written_length, slice_length by assumption;
         unfold Spec.covers in Hi; lia).
  - destruct Hmid as (L1 & L2 & Hag).
    { intros i Hi. unfold yb. apply splice_ext_outside; [exact F' |].
      rewrite g_written_length, slice_length by assumption.
      unfold Spec.covers in Hi. lia. }
    simpl. destruct (Spec.kind_of (g t)) as [k |] eqn:Hk.
    + rewrite !g_term_run by eauto.
      match goal with
      | |- match foldM _ _ ?a with _ => _ end
           = match foldM _ _ ?b with _ => _ end =>
          assert (E : a = b); [| now rewrite E]
      end.
      apply list_eq. intros i.
      destruct (decide (Spec.covers t' i)) as [Hc | Hc].
      * destruct (decide (i < length x)%nat) as [Hi | Hi].
        -- assert (Hin : (fst (range t) <= i
                          < fst (range t) + length (g_written x t))%nat).
           { apply g_written_covers; [eauto | | exact Hi].
             unfold Spec.covers in *. lia. }
           rewrite !splice_ext_inside;
             [reflexivity | apply g_written_fits; eauto | exact Hin
             | apply g_written_fits; eauto | exact Hin].
        -- rewrite !lookup_ge_None_2; [reflexivity | |];
             (rewrite splice_ext_length; [lia | apply g_written_fits; eauto]).
      * apply g_term_agree; eauto.
    + now rewrite !g_term_unknown.
  - assert (E : e1 = e2).
    { apply Hmid. intros i Hi. unfold yb. apply splice_ext_outside; [exact F' |].
      rewrite g_written_length, slice_length by assumption.
      unfold Spec.covers in Hi. lia. }
    now rewrite E.
Qed.

Lemma forallb_of_Forall (f : Q -> bool) (P : Q -> Prop) (v : ndarray) :
  (forall q, P q -> f q = true) -> Forall P v -> forallb f v = true.
Proof.
  intros Hf. induction 1 as [| q v Hq _ IH]; simpl; [reflexivity |].
  now rewrite (Hf q Hq), IH.
Qed.

Lemma Forall_of_forallb (f : Q -> bool) (P : Q -> Prop) (v : ndarray) :
  (forall q, f q = true -> P q) -> forallb f v = true -> Forall P v.
Proof.
  intros Hf. induction v as [| q v IH]; simpl; intros H; constructor.
  - apply Hf. now apply andb_prop in H.
  - apply IH. now apply andb_prop in H.
Qed.

(** On its domain an indicator is [0]. *)
Lemma g_value_in_domain (k : Spec.kind) (v : ndarray) :
  k <> Spec.Abs -> Forall (in_domain k) v -> g_value k v = Fin 0.
Proof.
  intros Hk H. destruct k; simpl; [reflexivity | contradiction | | |].
  - rewrite (forallb_of_Forall _ (in_domain Spec.IndicatorNonneg)); auto.
    intros q Hq. now apply Qle_bool_iff.
  - rewrite (forallb_of_Forall _ (in_domain Spec.IndicatorBox01)); auto.
    intros q [H0 H1]. apply andb_true_intro. split; now apply Qle_bool_iff.
  - rewrite (forallb_of_Forall _ (in_domain Spec.IndicatorZero)); auto.
    intros q Hq. now apply Qeq_bool_iff.
Qed.

(** What a term writes, by kind. *)
Lemma g_written_kind (x : ndarray) (t : term) (k : Spec.kind) :
  Spec.kind_of (g t) = Some k ->
  let v := map (fun z => arg_or 1 scale t * z - arg_or 0 shift t)
             (slice (fst (range t)) (snd (range t)) x) in
  g_written x t
  = match k with
    | Spec.Abs => map (fun q => Fin (arg_or 1 weight t * q)) (map Qabs v)
    | _ => repeat (ext_scale (arg_or 1 weight t) (g_value k v)) (length v)
    end.
Proof.
  intros Hk v. unfold g_written. rewrite (g_funcs_of_kind _ _ Hk).
  destruct k; reflexivity.
Qed.

Lemma Forall_repeat_ext (P : ext -> Prop) (e : ext) (n : nat) :
  P e -> Forall P (repeat e n).
Proof. intros H. induction n; simpl; constructor; assumption. Qed.

Lemma g_written_finite (x : ndarray) (t : term) :
  term_satisfied t x ->
  Forall is_fin (g_written x t)
  /\ (0 <= arg_or 1 weight t -> Forall fin_nonneg (g_written x t)).
Proof.
  unfold term_satisfied. destruct (Spec.kind_of (g t)) as [k |] eqn:Hk;
    [| contradiction].
  intros Hs. rewrite (g_written_kind x t k Hk). cbv zeta.
  set (v := map _ _) in *.
  assert (Hcase : k = Spec.Abs \/ k <> Spec.Abs)
    by (destruct k; (now left) || (right; discriminate)).
  destruct Hcase as [-> | Hna].
  - split; [| intros Hw]; rewrite !List.Forall_map; apply Forall_true;
      intros q; simpl; [exact I |].
    apply Qmult_le_0_compat; [exact Hw | apply Qabs_nonneg].
  - rewrite (g_value_in_domain k v Hna Hs).
    destruct k; try contradiction;
      (split; [| intros Hw]; apply Forall_repeat_ext; simpl; [exact I | lra]).
Qed.

Lemma Forall_splice_ext (P : ext -> Prop) (s k : nat) (y new : list ext) :
  Forall P y -> Forall P new -> Forall P (take s y ++ new ++ drop k y).
Proof.
  intros Hy Hn. apply Forall_app. split; [now apply Forall_take |].
  apply Forall_app. split; [exact Hn | now apply Forall_drop].
Qed.

Lemma fold_ext_add_finite (y : list ext) :
  Forall is_fin y ->
  forall a, exists q, fold_left ext_add y (Fin a) = Fin q
                      /\ (Forall fin_nonneg y -> a <= q).
Proof.
  induction 1 as [| e y He _ IH]; intros a; simpl.
  - exists a. split; [reflexivity | intros _; lra].
  - destruct e as [p | | |]; try contradiction. simpl.
    destruct (IH (a + p)) as (q & Eq & Hq).
    exists q. split; [exact Eq |]. intros Hnn.
    inversion Hnn as [| e' y' Hp Hy']; subst. simpl in Hp.
    specialize (Hq Hy'). lra.
Qed.

Lemma term_satisfied_known (t : term) (x : ndarray) :
  term_satisfied t x -> is_Some (Spec.kind_of (g t)).
Proof.
  unfold term_satisfied. destruct (Spec.kind_of (g t)); [eauto | contradiction].
Qed.

Lemma g_fold_finite (x : ndarray) (g_list : list term) :
  Forall (fun t => term_satisfied t x) g_list ->
  forall y, length y = length x -> Forall is_fin y ->
            exists y', foldM (g_term x) g_list y = Ok y'
                       /\ Forall is_fin y'
                       /\ (Forall (fun t => 0 <= arg_or 1 weight t) g_list ->
                           Forall fin_nonneg y -> Forall fin_nonneg y').
Proof.
  induction 1 as [| t rest Ht _ IH]; intros y Hlen Hy; simpl.
  - exists y. auto.
  - pose proof (term_satisfied_known t x Ht) as Hk.
    destruct (g_written_finite x t Ht) as [Hf Hnn].
    rewrite g_term_run by assumption.
    destruct (IH (take (fst (range t)) y ++ g_written x t
                  ++ drop (fst (range t) + length (g_written x t)) y))
      as (y' & Hrun & Hfin & Hpos).
    + rewrite splice_ext_length; [exact Hlen | now apply g_written_fits].
    + now apply Forall_splice_ext.
    + exists y'. split; [exact Hrun |]. split; [exact Hfin |].
      intros Hw Hy0. inversion Hw as [| t' rest' Hwt Hwrest]; subst.
      apply Hpos; [exact Hwrest |]. apply Forall_splice_ext; auto.
Qed.

Lemma apply_g_funcs_finite_run (g_list : list term) (x : ndarray) :
  Forall (fun t => term_satisfied t x) g_list ->
  exists q, apply_g_funcs g_list x = Ok (Fin q)
            /\ (Forall (fun t => 0 <= arg_or 1 weight t) g_list -> 0 <= q).
Proof.
  intros Hs. unfold apply_g_funcs.
  destruct (g_fold_finite x g_list Hs (repeat (Fin 0) (length x)))
    as (y' & Hrun & Hfin & Hpos).
  - apply repeat_length.
  - now apply Forall_repeat_ext.
  - rewrite Hrun. unfold ext_sum.
    destruct (fold_ext_add_finite y' Hfin 0) as (q & Eq & Hq).
    exists q. split; [now rewrite Eq |]. intros Hw. apply Hq, Hpos; [exact Hw |].
    apply Forall_repeat_ext. simpl. lra.
Qed.

(** Where every term is satisfied ([scale * x[range] - shift] in the domain of
    its function), [apply_g_funcs] returns a finite number, which is
    nonnegative when no weight is negative. *)
Theorem apply_g_funcs_finite (g_list : list term) (x : ndarray) :
  Forall (fun t => term_satisfied t x) g_list ->
  exists q, apply_g_funcs g_list x = Ok (Fin q)
            /\ (Forall (fun t => 0 <= arg_or 1 weight t) g_list -> 0 <= q).
Proof. apply apply_g_funcs_finite_run. Qed.

(** *** The value for terms with disjoint ranges *)

Lemma ext_scale_inf_special (w : Q) : ~ is_fin (ext_scale w PInf).
Proof. simpl. destruct (Qltb 0 w), (Qltb w 0); simpl; tauto. Qed.

Lemma indicator_sum (w : Q) (b : bool) (n : nat) :
  (b = false -> (0 < n)%nat) ->
  ext_eq (ext_sum (repeat (ext_scale w (if b then Fin 0 else PInf)) n))
    (ext_scale w (if b then Fin 0 else PInf)).
Proof.
  intros Hn. destruct b.
  - rewrite ext_sum_zero; [simpl; ring |].
    apply Forall_repeat_ext. simpl. ring.
  - apply ext_sum_repeat_special; [apply ext_scale_inf_special | auto].
Qed.

Lemma forallb_false_nonempty (f : Q -> bool) (v : ndarray) :
  forallb f v = false -> (0 < length v)%nat.
Proof. destruct v; simpl; [discriminate | lia]. Qed.

(** The values a term writes add up to [weight * g(scale * x[range] - shift)]. *)
Lemma g_written_sum (x : ndarray) (t : term) :
  is_Some (Spec.kind_of (g t)) ->
  ext_eq (ext_sum (g_written x t)) (term_value x t).
Proof.
  intros [k Hk]. rewrite (g_written_kind x t k Hk). unfold term_value.
  rewrite Hk. cbv zeta. set (v := map _ _). set (w := arg_or 1 weight t).
  destruct k; simpl g_value.
  - apply (indicator_sum w true). discriminate.
  - apply ext_sum_scaled.
  - apply indicator_sum, forallb_false_nonempty.
  - apply indicator_sum, forallb_false_nonempty.
  - apply indicator_sum, forallb_false_nonempty.
Qed.

Lemma disjoint_ranges_cons (t : term) (rest : list term) :
  disjoint_ranges (t :: rest) ->
  disjoint_ranges rest
  /\ forall t', t' ∈ rest -> forall i, ~ (Spec.covers t i /\ Spec.covers t' i).
Proof.
  intros H. split.
  - intros pre u post E t' Ht' i.
    apply (H (t :: pre) u post); [now rewrite E |].
    simpl. now apply list_elem_of_further.
  - intros t' Ht' i. now apply (H [] t rest eq_refl t').
Qed.

Lemma fold_term_value_proper (x : ndarray) (l : list term) (a b : ext) :
  ext_eq a b ->
  ext_eq (fold_left (fun acc t => ext_add acc (term_value x t)) l a)
    (fold_left (fun acc t => ext_add acc (term_value x t)) l b).
Proof.
  revert a b. induction l as [| t l IH]; intros a b H; simpl; [exact H |].
  apply IH. now rewrite H.
Qed.

Lemma middle_split (s k : nat) (y : list ext) :
  take s y ++ take k (drop s y) ++ drop (s + k) y = y.
Proof.
  rewrite <- drop_drop, (take_drop k (drop s y)). apply take_drop.
Qed.

(** Overwriting a part that holds zeros adds the sum of what is written. *)
Lemma splice_ext_sum (s : nat) (y new : list ext) :
  Forall (fun e => ext_eq e (Fin 0)) (take (length new) (drop s y)) ->
  ext_eq (ext_sum (take s y ++ new ++ drop (s + length new) y))
    (ext_add (ext_sum y) (ext_sum new)).
Proof.
  intros Hz.
  rewrite <- (middle_split s (length new) y) at 3.
  rewrite !ext_sum_app, (ext_sum_zero _ Hz), ext_add_0_l.
  rewrite <- !ext_add_assoc.
  apply ext_add_proper; [reflexivity | apply ext_add_comm].
Qed.

Lemma g_fold_sum (x : ndarray) (g_list : list term) :
  known_terms g_list -> disjoint_ranges g_list ->
  forall y,
    length y = length x ->
    (forall t i, t ∈ g_list -> Spec.covers t i -> (i < length x)%nat ->
                 y !! i = Some (Fin 0)) ->
    exists y',
      foldM (g_term x) g_list y = Ok y'
      /\ ext_eq (ext_sum y')
           (fold_left (fun acc t => ext_add acc (term_value x t)) g_list
              (ext_sum y)).
Proof.
  induction 1 as [| t rest Ht _ IH]; intros Hdis y Hlen Hz; simpl.
  - exists y. split; reflexivity.
  - destruct (disjoint_ranges_cons t rest Hdis) as [Hrest Hfirst].
    rewrite g_term_run by assumption.
    pose proof (g_written_fits x y t Hlen Ht) as Hfit.
    pose proof (g_written_length x t Ht) as HL. rewrite slice_length in HL.
    set (y1 := take (fst (range t)) y ++ g_written x t
               ++ drop (fst (range t) + length (g_written x t)) y).
    destruct (IH Hrest y1) as (y' & Hrun & Hsum).
    + unfold y1. now rewrite splice_ext_length.
    + intros t' i Ht' Hc Hi. unfold y1.
      rewrite splice_ext_outside; [| exact Hfit |].
      * apply (Hz t' i); [now apply list_elem_of_further | exact Hc | exact Hi].
      * assert (Hn : ~ Spec.covers t i)
          by (intros Hct; now apply (Hfirst t' Ht' i)).
        unfold Spec.covers in Hn. lia.
    + exists y'. split; [exact Hrun |]. rewrite Hsum.
      apply fold_term_value_proper. unfold y1.
      rewrite splice_ext_sum.
      * apply ext_add_proper; [reflexivity | now apply g_written_sum].
      * apply Forall_lookup. intros j e Hj.
        destruct (decide (j < length (g_written x t))%nat) as [Hlt | Hge].
        -- rewrite lookup_take_lt, lookup_drop in Hj by exact Hlt.
           rewrite (Hz t (fst (range t) + j)%nat) in Hj.
           ++ injection Hj as <-. reflexivity.
           ++ apply list_elem_of_here.
           ++ unfold Spec.covers. lia.
           ++ lia.
        -- rewrite lookup_take_ge in Hj by lia. discriminate.
Qed.

Lemma lookup_repeat_ext (e : ext) (n i : nat) :
  (i < n)%nat -> repeat e n !! i = Some e.
Proof.
  revert i. induction n as [| n IH]; intros [| i] H; simpl; try lia; auto.
  apply IH. lia.
Qed.

(** For terms with pairwise disjoint ranges, [apply_g_funcs] returns the sum
    over the terms of [weight * g(scale * x[range] - shift)], infinite or
    undefined values included. *)
Theorem apply_g_funcs_evaluateSum (g_list : list term) (x : ndarray) :
  known_terms g_list -> disjoint_ranges g_list ->
  exists r, apply_g_funcs g_list x = Ok r /\ ext_eq r (evaluateSum g_list x).
Proof.
  intros Hk Hdis. unfold apply_g_funcs, evaluateSum.
  destruct (g_fold_sum x g_list Hk Hdis (repeat (Fin 0) (length x)))
    as (y' & Hrun & Hsum).
  - apply repeat_length.
  - intros t i _ _ Hi. now apply lookup_repeat_ext.
  - rewrite Hrun. exists (ext_sum y'). split; [reflexivity |].
    rewrite Hsum. apply fold_term_value_proper.
    apply ext_sum_zero, Forall_repeat_ext. reflexivity.
Qed.

(** ** The proximal step lands in the domain of the functions *)

(** After the proximal step for terms with disjoint ranges and nonzero local
    scales, every term is satisfied at the unscaled point. *)
Lemma applyProximalAll_satisfied (rho : Q) (eqv xv : ndarray)
  (g_list : list term) :
  length eqv = length xv ->
  known_terms g_list -> disjoint_ranges g_list ->
  (forall t i d, t ∈ g_list -> Spec.covers t i -> eqv !! i = Some d ->
                 ~ d * arg_or 1 scale t == 0) ->
  Forall (fun t => term_satisfied t
                     (zip_with Qmult eqv (Spec.applyProximalAll rho eqv g_list xv)))
    g_list.
Proof.
  intros Hlen Hk Hdis Hnz. apply Forall_forall. intros t Ht.
  pose proof Ht as Hsplit. apply list_elem_of_split in Hsplit.
  destruct Hsplit as (pre & post & E).
  unfold known_terms in Hk. rewrite Forall_forall in Hk.
  destruct (Hk t Ht) as [k Hkind].
  unfold term_satisfied. rewrite Hkind.
  rewrite List.Forall_map. apply Forall_lookup. intros j z Hj.
  unfold slice in Hj.
  destruct (decide (j < snd (range t) - fst (range t))%nat) as [Hlt | Hge];
    [| rewrite lookup_take_ge in Hj by lia; discriminate].
  rewrite lookup_take_lt, lookup_drop in Hj by exact Hlt.
  set (i := (fst (range t) + j)%nat) in *.
  apply lookup_zip_with_Some in Hj. destruct Hj as (d & zi & -> & Hd & Hzi).
  assert (Hc : Spec.covers t i) by (unfold Spec.covers, i; lia).
  assert (Hi : (i < length xv)%nat).
  { rewrite <- Hlen. eapply lookup_lt_Some; exact Hd. }
  destruct (lookup_lt_is_Some_2 xv i Hi) as [y0 Hy0].
  assert (Hother : forall t', t' ∈ pre ++ post -> ~ Spec.covers t' i).
  { intros t' Ht' Hc'. now apply (Hdis pre t post E t' Ht' i). }
  pose proof (applyProximalAll_at rho eqv xv pre post t k i d y0
                Hlen Hkind Hc Hother Hd Hy0) as Hat.
  rewrite <- E in Hat. rewrite Hat in Hzi. injection Hzi as <-.
  pose proof (Hnz t i d Ht Hc Hd) as Hs.
  set (sc := arg_or 1 scale t) in *. set (c := arg_or 0 shift t) in *.
  set (s := d * sc) in *.
  set (p := Spec.proximal1 k (rho / (arg_or 1 weight t * s ^ 2)) (s * y0 - c)).
  apply (in_domain_Qeq k p); [| apply proximal1_in_domain].
  assert (E0 : p == s * ((p + c) / s) - c) by (field; exact Hs).
  change (Spec.proximal1 k (rho / (arg_or 1 weight t * (s * s))) (s * y0 - c))
    with p.
  rewrite E0 at 1. unfold s at 1. ring.
Qed.

Lemma unit_scale_nonzero (d : Q) (t : term) :
  d = 1 -> arg_or 1 scale t = 1 -> ~ d * arg_or 1 scale t == 0.
Proof. intros -> ->. discriminate. Qed.

Lemma apply_prox_ops_finite_run (rho : Q) (le lx : loc) (eqv xv : ndarray)
  (g_list : list term) (h : heap) :
  h !! le = Some eqv -> h !! lx = Some xv -> le <> lx ->
  length eqv = length xv ->
  known_terms g_list -> disjoint_ranges g_list ->
  (forall t i d, t ∈ g_list -> Spec.covers t i -> eqv !! i = Some d ->
                 ~ d * arg_or 1 scale t == 0) ->
  exists h' x' q,
    apply_prox_ops rho (Ref le) g_list (Ref lx) h = Ok (Ref lx, h')
    /\ h' !! lx = Some x'
    /\ apply_g_funcs g_list (zip_with Qmult eqv x') = Ok (Fin q)
    /\ (Forall (fun t => 0 <= arg_or 1 weight t) g_list -> 0 <= q).
Proof.
  intros He Hx Hne Hlen Hk Hdis Hnz.
  destruct (apply_prox_ops_run rho le lx eqv g_list Hk xv h He Hx Hne Hlen)
    as (h' & Hrun & Hx' & _).
  destruct (apply_g_funcs_finite_run g_list
              (zip_with Qmult eqv (Spec.applyProximalAll rho eqv g_list xv)))
    as (q & Hq & Hpos).
  { now apply applyProximalAll_satisfied. }
  exists h', (Spec.applyProximalAll rho eqv g_list xv), q. auto.
Qed.

Lemma positive_weights_nonneg (g_list : list term) :
  Forall (fun t => 0 < arg_or 1 weight t /\ arg_or 1 scale t = 1
                   /\ arg_or 0 shift t = 0) g_list ->
  Forall (fun t => 0 <= arg_or 1 weight t) g_list.
Proof.
  induction 1 as [| t l (Hw & _ & _) _ IH]; constructor;
    [now apply Qlt_le_weak | exact IH].
Qed.

(** With the scaling equal to one on the ranges of the terms and terms that
    keep the default scale [1] and shift [0], the proximal step lands in the
    domain of the functions: after [apply_prox_ops] for terms of known kinds
    with positive weights and disjoint ranges, [apply_g_funcs] at
    [equil_scaling * x] returns a finite, nonnegative number.  On this path
    the code only multiplies and divides by one, subtracts and adds zero, and
    clamps. *)
Theorem apply_prox_ops_feasible (rho : Q) (le lx : loc) (eqv xv : ndarray)
  (g_list : list term) (h : heap) :
  h !! le = Some eqv -> h !! lx = Some xv -> le <> lx ->
  length eqv = length xv ->
  known_terms g_list -> disjoint_ranges g_list ->
  Forall (fun t => 0 < arg_or 1 weight t /\ arg_or 1 scale t = 1
                   /\ arg_or 0 shift t = 0) g_list ->
  (forall t i d, t ∈ g_list -> Spec.covers t i -> eqv !! i = Some d -> d = 1) ->
  exists h' x' q,
    apply_prox_ops rho (Ref le) g_list (Ref lx) h = Ok (Ref lx, h')
    /\ h' !! lx = Some x'
    /\ apply_g_funcs g_list (zip_with Qmult eqv x') = Ok (Fin q)
    /\ 0 <= q.
Proof.
  intros He Hx Hne Hlen Hk Hdis Hdef Hone.
  destruct (apply_prox_ops_finite_run rho le lx eqv xv g_list h He Hx Hne Hlen
              Hk Hdis) as (h' & x' & q & Hrun & Hx' & Hq & Hpos).
  - intros t i d Ht Hc Hd. apply unit_scale_nonzero.
    + exact (Hone t i d Ht Hc Hd).
    + rewrite Forall_forall in Hdef. now destruct (Hdef t Ht) as (_ & Hs & _).
  - exists h', x', q. repeat (split; [assumption |]).
    now apply Hpos, positive_weights_nonneg.
Qed.

Section SolveFeasible.
Context {B : Backend}.

Lemma iteration_return_feasible (self : QSS) (e : env) (st : frame)
  (h h' : heap) (scaling : ndarray) (obj : Q) (l : loc) :
  loop_invariant self e st h scaling ->
  _polish self = false ->
  disjoint_ranges (g_list e) ->
  (forall t i d, t ∈ g_list e -> Spec.covers t i -> scaling !! i = Some d ->
                 ~ d * arg_or 1 scale t == 0) ->
  iteration self e st h = Ok (Return (obj, l), h') ->
  exists sol q,
    h' !! l = Some sol
    /\ apply_g_funcs (g_list e) sol = Ok (Fin q)
    /\ (Forall (fun t => 0 <= arg_or 1 weight t) (g_list e) -> 0 <= q).
Proof.
  intros Hinv Hpol Hdis Hnz Hit.
  pose proof Hinv as
    ((zv & Hz & Lz) & (uv & Hu & Lu) & He & Le & Lq & Hk & Hs & Hp & Hreg).
  destruct (admm_updates_run self e st h zv uv scaling Hs Hk Hz Hu He Lz Lu Le Lq)
    as (st1 & h1 & xv & z & u & Hrun & _ & Hz1 & _ & Ez & _ & _ & _ & _ & Lx & _ & _).
  destruct (iteration_run self e st h scaling Hinv)
    as (st1' & h1' & z' & Hrun' & Hz1' & s & h'' & Hit' & _ & Hs').
  rewrite Hrun in Hrun'. injection Hrun' as <- <-.
  rewrite Hz1 in Hz1'. injection Hz1' as <-.
  rewrite Hit in Hit'. injection Hit' as Es Eh. subst s h''.
  destruct Hs' as [_ Hl].
  unfold final_iterate in Hl. rewrite Hpol in Hl.
  destruct (apply_g_funcs_finite_run (g_list e) (zip_with Qmult scaling z))
    as (q & Hq & Hpos).
  { rewrite Ez. apply applyProximalAll_satisfied; try assumption.
    unfold Spec.vadd, Spec.vscale.
    rewrite !length_zip_with, !length_map. lia. }
  exists (zip_with Qmult scaling z), q. auto.
Qed.

Lemma main_loop_feasible (self : QSS) (e : env) (scaling : ndarray)
  (fuel : nat) :
  _polish self = false ->
  disjoint_ranges (g_list e) ->
  (forall t i d, t ∈ g_list e -> Spec.covers t i -> scaling !! i = Some d ->
                 ~ d * arg_or 1 scale t == 0) ->
  forall st h obj l h',
    loop_invariant self e st h scaling ->
    main_loop fuel self e st h = Ok (Some (obj, l), h') ->
    exists sol q,
      h' !! l = Some sol
      /\ apply_g_funcs (g_list e) sol = Ok (Fin q)
      /\ (Forall (fun t => 0 <= arg_or 1 weight t) (g_list e) -> 0 <= q).
Proof.
  intros Hpol Hdis Hnz.
  induction fuel as [| fuel IH]; intros st h obj l h' Hinv H; [discriminate |].
  simpl in H. apply bind_inv in H. destruct H as (s & h1 & Hit & H).
  destruct s as [[obj' l'] | st'].
  - injection H as <- <- <-.
    eapply iteration_return_feasible; eassumption.
  - destruct (iteration_run self e st h scaling Hinv)
      as (sa & ha & za & _ & _ & s & h'' & Hit' & _ & Hs').
    rewrite Hit in Hit'. injection Hit' as Es Eh. subst s h''.
    destruct Hs' as (Hinv' & _). eapply IH; eassumption.
Qed.

Lemma solve_finite_run (self : QSS) (fuel : nat) (obj : Q) (sol : ndarray) :
  well_shaped self ->
  _polish self = false ->
  disjoint_ranges (data_g (_data self)) ->
  (forall t i d, t ∈ data_g (_data self) -> Spec.covers t i ->
                 scaling_of self !! i = Some d ->
                 ~ d * arg_or 1 scale t == 0) ->
  solve fuel self = Ok (Some (obj, sol)) ->
  exists q,
    apply_g_funcs (data_g (_data self)) sol = Ok (Fin q)
    /\ (Forall (fun t => 0 <= arg_or 1 weight t) (data_g (_data self)) -> 0 <= q).
Proof.
  intros Hw Hpol Hdis Hnz H. apply solve_inv in H.
  destruct H as (l & h' & Hrun & Hl).
  unfold solve_in in Hrun. apply bind_inv in Hrun.
  destruct Hrun as ([e st] & h0 & Hsetup & Hloop). cbn [fst snd] in Hloop.
  destruct (well_shaped_env self Hw) as (Lq & Le & Hk & Hs & Hp).
  destruct (setup_run self)
    as (st0 & h00 & Hs0 & He & Hz & Hu & Hit & _ & Hreg & _).
  rewrite Hs0 in Hsetup. injection Hsetup as <- <- <-.
  assert (Hinv : loop_invariant self (initial_env self) st0 h00 (scaling_of self)).
  { unfold loop_invariant.
    split; [eexists; split;
            [exact Hz | rewrite initial_env_dim; apply repeat_length] |].
    split; [eexists; split;
            [exact Hu | rewrite initial_env_dim; apply repeat_length] |].
    tauto. }
  assert (Eg : g_list (initial_env self) = data_g (_data self)).
  { unfold initial_env.
    destruct (preconditioned self) as [[[[[[P' q'] r'] A'] b0] sc] c].
    reflexivity. }
  assert (Hdis' : disjoint_ranges (g_list (initial_env self)))
    by now rewrite Eg.
  assert (Hnz' : forall t i d,
             t ∈ g_list (initial_env self) -> Spec.covers t i ->
             scaling_of self !! i = Some d -> ~ d * arg_or 1 scale t == 0)
    by now rewrite Eg.
  destruct (main_loop_feasible self (initial_env self) (scaling_of self) fuel
              Hpol Hdis' Hnz' st0 h00 obj l h' Hinv Hloop)
    as (sol' & q & Hl' & Hq & Hpos).
  rewrite Hl in Hl'. injection Hl' as <-. rewrite Eg in Hq, Hpos. eauto.
Qed.

Lemma scaling_of_unpreconditioned (self : QSS) (i : nat) (d : Q) :
  _precond self = false -> scaling_of self !! i = Some d -> d = 1.
Proof.
  intros Hpre. unfold scaling_of, preconditioned. rewrite Hpre. simpl.
  intros Hd. pose proof (lookup_lt_Some _ _ _ Hd) as Hi.
  rewrite repeat_length in Hi. rewrite lookup_repeat in Hd by exact Hi.
  now injection Hd as <-.
Qed.

(** With preconditioning and polishing off and terms that keep the default
    scale [1] and shift [0], the solution [solve] returns is in the domain of
    every term, whichever iteration the loop stops at: for terms of known
    kinds with positive weights and disjoint ranges, [apply_g_funcs] at the
    returned solution is a finite, nonnegative number.  The scaling is then
    all ones, and from the proximal step to the returned array the code only
    multiplies and divides by one, subtracts and adds zero, and clamps. *)
Theorem solve_solution_feasible (self : QSS) (fuel : nat) (obj : Q)
  (sol : ndarray) :
  well_shaped self ->
  _precond self = false ->
  _polish self = false ->
  disjoint_ranges (data_g (_data self)) ->
  Forall (fun t => 0 < arg_or 1 weight t /\ arg_or 1 scale t = 1
                   /\ arg_or 0 shift t = 0) (data_g (_data self)) ->
  solve fuel self = Ok (Some (obj, sol)) ->
  exists q, apply_g_funcs (data_g (_data self)) sol = Ok (Fin q) /\ 0 <= q.
Proof.
  intros Hw Hpre Hpol Hdis Hdef H.
  destruct (solve_finite_run self fuel obj sol Hw Hpol Hdis) as (q & Hq & Hpos).
  - intros t i d Ht Hc Hd. apply unit_scale_nonzero.
    + exact (scaling_of_unpreconditioned self i d Hpre Hd).
    + rewrite Forall_forall in Hdef. now destruct (Hdef t Ht) as (_ & Hs & _).
  - exact H.
  - exists q. split; [exact Hq |]. now apply Hpos, positive_weights_nonneg.
Qed.

End SolveFeasible.

(** ** The further properties on concrete inputs *)

Lemma nonneg_solver_well_shaped (cap : iter_cap) : well_shaped (nonneg_solver cap).
Proof.
  unfold well_shaped. simpl.
  split; [reflexivity |]. split; [reflexivity |].
  split; [exact ex_solver_terms_known |].
  split; [exact diag_solves_preserve_length | discriminate].
Qed.

Lemma solve_iteration_count_witness :
  exists k,
    (1 <= k <= 1)%nat
    /\ solve k (nonneg_solver (Cap 1))
       = Ok (Some (-(3279584000000000000000000) # 3543122000000000000000000,
                   [14000 # 11000; 14000 # 11000]))
    /\ (forall j, (j < k)%nat -> solve j (nonneg_solver (Cap 1)) = Ok None)
    /\ (_max_iter (nonneg_solver (Cap 1)) = Cap (Z.of_nat k)
        \/ (Z.of_nat k mod 10)%Z = 0%Z).
Proof.
  apply (solve_iteration_count (nonneg_solver (Cap 1)) 1).
  reflexivity.
Defined.

Lemma penalty_frozen_between_tenths_witness :
  exists st' h',
    iteration ex_solver ex_env ex_frame ex_loop_heap = Ok (Continue st', h')
    /\ rho st' = rho ex_frame /\ quad_kkt st' = quad_kkt ex_frame
    /\ quad_kkt_reg st' = quad_kkt_reg ex_frame /\ F st' = F ex_frame.
Proof.
  destruct (iteration ex_solver ex_env ex_frame ex_loop_heap)
    as [[[res | st'] h'] | ex] eqn:E.
  - exfalso. vm_compute in E. discriminate E.
  - exists st', h'. split; [reflexivity |].
    apply (penalty_frozen_between_tenths ex_solver ex_env ex_frame st'
             ex_loop_heap h' E).
    vm_compute. discriminate.
  - exfalso. vm_compute in E. discriminate E.
Defined.

Lemma nonpositive_cap_is_unbounded_witness :
  solve 1 (with_max_iter (Cap 0) ex_solver)
  = solve 1 (with_max_iter Unbounded ex_solver).
Proof.
  apply (nonpositive_cap_is_unbounded ex_solver 0 1). lia.
Defined.

Lemma iter_refinement_unused_without_constraints_witness :
  solve 1 (with_iter_refinement false ex_solver) = solve 1 ex_solver.
Proof.
  apply (iter_refinement_unused_without_constraints ex_solver false 1).
  reflexivity.
Defined.

Lemma solve_solution_length_witness :
  length [14000 # 11000; 14000 # 11000]
  = shape0 (data_P (_data (nonneg_solver (Cap 1)))).
Proof.
  apply (solve_solution_length (nonneg_solver (Cap 1)) 1
           (-(3279584000000000000000000) # 3543122000000000000000000)
           [14000 # 11000; 14000 # 11000]).
  - exact (nonneg_solver_well_shaped (Cap 1)).
  - reflexivity.
Defined.

Lemma penalty_update_preserves_dual_witness :
  exists st' h' u',
    update_rho ex_env ex_tenth_frame 100 (1 # 10) ex_tenth_heap = Ok (st', h')
    /\ h' !! uk1 st' = Some u'
    /\ Forall2 (fun a a' => rho st' * a' == rho ex_tenth_frame * a) [2; 2] u'.
Proof.
  apply (penalty_update_preserves_dual ex_env ex_tenth_frame 100 (1 # 10)
           ex_tenth_heap [1; 1] [1; 1] [2; 2]).
  - reflexivity.
  - reflexivity.
  - reflexivity.
  - discriminate.
Defined.

Lemma ex_terms_within : ~ Exists (overruns ex_point) ex_terms.
Proof.
  intros H. apply Exists_exists in H. destruct H as (t & Hin & _ & _ & He).
  repeat (apply elem_of_cons in Hin; destruct Hin as [-> | Hin];
          [simpl in He; lia |]).
  now apply elem_of_nil in Hin.
Qed.

Lemma get_subdifferential_bounded_witness :
  Forall (fun o => -(1) <= o /\ o <= 1) [1; -(1 # 2); 0; 0].
Proof.
  apply (get_subdifferential_bounded ex_terms ex_point ex_target).
  reflexivity.
Defined.

Lemma get_subdifferential_errors_witness :
  (Exists (overruns ex_point) ex_terms ->
   get_subdifferential ex_terms ex_point ex_target = Raise IndexError)
  /\ (~ Exists (overruns ex_point) ex_terms ->
      exists out, get_subdifferential ex_terms ex_point ex_target = Ok out
                  /\ length out = length ex_point).
Proof.
  apply (get_subdifferential_errors ex_terms ex_point ex_target).
  reflexivity.
Defined.

Lemma get_subdifferential_subgradient_witness :
  exists out,
    get_subdifferential ex_terms ex_point ex_target = Ok out
    /\ forall i xi oi, abs_covered ex_terms i ->
         ex_point !! i = Some xi -> out !! i = Some oi ->
         forall y, Qabs xi + oi * (y - xi) <= Qabs y.
Proof.
  apply (get_subdifferential_subgradient ex_terms ex_point ex_target).
  - reflexivity.
  - exact ex_terms_within.
Defined.

Lemma get_subdifferential_certificate_witness :
  exists out,
    get_subdifferential ex_terms ex_point ex_target = Ok out
    /\ forall i xi ti oi, abs_covered ex_terms i ->
         ex_point !! i = Some xi -> ex_target !! i = Some ti ->
         out !! i = Some oi ->
         xi == 0 ->
         (forall s, -(1) <= s -> s <= 1 -> Qabs (oi + ti) <= Qabs (s + ti))
         /\ (oi + ti == 0 <-> -(1) <= ti /\ ti <= 1).
Proof.
  apply (get_subdifferential_certificate ex_terms ex_point ex_target).
  - reflexivity.
  - exact ex_terms_within.
Defined.

Lemma prox_abs_minimises_witness :
  exists out,
    prox_abs (Num 2) (Ref 0%nat) [[3; -(1 # 4); -2]]
      = Ok (Ref (length [[3; -(1 # 4); -2]]), [[3; -(1 # 4); -2]] ++ [out])
    /\ Forall2 (fun v p => forall x,
                  Qabs p + 2 / 2 * ((p - v) * (p - v))
                  <= Qabs x + 2 / 2 * ((x - v) * (x - v)))
         [3; -(1 # 4); -2] out.
Proof.
  apply (prox_abs_minimises 2 0%nat [3; -(1 # 4); -2] [[3; -(1 # 4); -2]]).
  - reflexivity.
  - reflexivity.
Defined.

Lemma projections_nearest_witness :
  (exists out,
      prox_indge0 (Num 1) (Ref 0%nat) [[3; 1 # 2; -2]]
        = Ok (Ref 0%nat, <[0%nat:=out]> [[3; 1 # 2; -2]])
      /\ Forall2 (fun a p => 0 <= p /\ forall x, 0 <= x ->
                    (p - a) * (p - a) <= (x - a) * (x - a)) [3; 1 # 2; -2] out)
  /\ (exists out,
      prox_indbox01 (Num 1) (Ref 0%nat) [[3; 1 # 2; -2]]
        = Ok (Ref 0%nat, <[0%nat:=out]> [[3; 1 # 2; -2]])
      /\ Forall2 (fun a p => (0 <= p /\ p <= 1) /\ forall x, 0 <= x -> x <= 1 ->
                    (p - a) * (p - a) <= (x - a) * (x - a)) [3; 1 # 2; -2] out).
Proof.
  apply (projections_nearest (Num 1) 0%nat [3; 1 # 2; -2] [[3; 1 # 2; -2]]).
  reflexivity.
Defined.

Lemma projections_idempotent_witness :
  (exists h1,
      prox_indge0 (Num 1) (Ref 0%nat) [[3; 1 # 2; -2]] = Ok (Ref 0%nat, h1)
      /\ prox_indge0 (Num 7) (Ref 0%nat) h1 = Ok (Ref 0%nat, h1))
  /\ (exists h1,
      prox_indbox01 (Num 1) (Ref 0%nat) [[3; 1 # 2; -2]] = Ok (Ref 0%nat, h1)
      /\ prox_indbox01 (Num 7) (Ref 0%nat) h1 = Ok (Ref 0%nat, h1)).
Proof.
  apply (projections_idempotent (Num 1) (Num 7) 0%nat [3; 1 # 2; -2]
           [[3; 1 # 2; -2]]).
  reflexivity.
Defined.

Lemma apply_prox_ops_errors_witness :
  (known_terms ex_terms ->
   exists h', apply_prox_ops 1 (Ref 0%nat) ex_terms (Ref 1%nat) ex_heap
              = Ok (Ref 1%nat, h'))
  /\ (~ known_terms ex_terms ->
      apply_prox_ops 1 (Ref 0%nat) ex_terms (Ref 1%nat) ex_heap = Raise KeyError).
Proof.
  apply (apply_prox_ops_errors 1 0%nat 1%nat ex_scaling ex_terms ex_x ex_heap).
  - reflexivity.
  - reflexivity.
  - discriminate.
  - reflexivity.
Defined.

Lemma apply_prox_ops_empty_range_witness :
  exists h',
    apply_prox_ops 1 (Ref 0%nat) [ex_empty_term] (Ref 1%nat) ex_heap
      = Ok (Ref 1%nat, h')
    /\ h' !! 1%nat = Some ex_x
    /\ (forall j, (j < length ex_heap)%nat -> h' !! j = ex_heap !! j).
Proof.
  apply (apply_prox_ops_empty_range 1 0%nat 1%nat ex_scaling ex_x ex_empty_term
           ex_heap).
  - reflexivity.
  - reflexivity.
  - discriminate.
  - reflexivity.
  - eexists. reflexivity.
  - left. simpl. lia.
Defined.

Lemma ex_terms_disjoint i : ~ (Spec.covers ex_abs_term i /\ Spec.covers ex_box_term i).
Proof. unfold Spec.covers. simpl. lia. Qed.

Lemma apply_prox_ops_swap_witness :
  exists h1 h2 x',
    apply_prox_ops 1 (Ref 0%nat) ([] ++ ex_abs_term :: ex_box_term :: [])
      (Ref 1%nat) ex_heap = Ok (Ref 1%nat, h1)
    /\ apply_prox_ops 1 (Ref 0%nat) ([] ++ ex_box_term :: ex_abs_term :: [])
         (Ref 1%nat) ex_heap = Ok (Ref 1%nat, h2)
    /\ h1 !! 1%nat = Some x' /\ h2 !! 1%nat = Some x'.
Proof.
  apply (apply_prox_ops_swap 1 0%nat 1%nat ex_scaling ex_x [] [] ex_abs_term
           ex_box_term ex_heap).
  - reflexivity.
  - reflexivity.
  - discriminate.
  - reflexivity.
  - exact ex_terms_known.
  - exact ex_terms_disjoint.
Defined.

Lemma ex_box_not_first (t' : term) :
  t' ∈ [] ++ [ex_box_term] -> ~ Spec.covers t' 0%nat.
Proof.
  intros Hin. apply list_elem_of_singleton in Hin. subst t'.
  unfold Spec.covers. simpl. lia.
Qed.

Lemma ex_abs_not_third (t' : term) :
  t' ∈ [ex_abs_term] ++ [] -> ~ Spec.covers t' 2%nat.
Proof.
  intros Hin. apply list_elem_of_singleton in Hin. subst t'.
  unfold Spec.covers. simpl. lia.
Qed.

Lemma apply_prox_ops_abs_minimises_witness :
  exists h' x' z,
    apply_prox_ops 1 (Ref 0%nat) ([] ++ ex_abs_term :: [ex_box_term]) (Ref 1%nat)
      ex_heap = Ok (Ref 1%nat, h')
    /\ h' !! 1%nat = Some x' /\ x' !! 0%nat = Some z
    /\ forall y,
         arg_or 1 weight ex_abs_term
           * Qabs (arg_or 1 scale ex_abs_term * (1 * z) - arg_or 0 shift ex_abs_term)
         + 1 / 2 * ((z - 3) * (z - 3))
         <= arg_or 1 weight ex_abs_term
              * Qabs (arg_or 1 scale ex_abs_term * (1 * y)
                      - arg_or 0 shift ex_abs_term)
            + 1 / 2 * ((y - 3) * (y - 3)).
Proof.
  apply (apply_prox_ops_abs_minimises 1 0%nat 1%nat ex_scaling ex_x []
           [ex_box_term] ex_abs_term 0%nat 1 3 ex_heap).
  - reflexivity.
  - reflexivity.
  - discriminate.
  - reflexivity.
  - exact ex_terms_known.
  - reflexivity.
  - unfold Spec.covers. simpl. lia.
  - exact ex_box_not_first.
  - reflexivity.
  - reflexivity.
  - reflexivity.
  - reflexivity.
  - vm_compute. discriminate.
Defined.


Lemma ex_unknown_not_known : ~ known_terms [ex_unknown_term].
Proof.
  intros H. inversion H as [| t l [k Hk] _]; subst. discriminate Hk.
Qed.

Lemma apply_g_funcs_errors_witness :
  (exists r, apply_g_funcs ex_terms ex_x = Ok r)
  /\ apply_g_funcs [ex_unknown_term] ex_x = Raise KeyError.
Proof.
  split.
  - apply (proj1 (apply_g_funcs_errors ex_terms ex_x)). exact ex_terms_known.
  - apply (proj2 (apply_g_funcs_errors [ex_unknown_term] ex_x)).
    exact ex_unknown_not_known.
Defined.

Lemma apply_g_funcs_shadowed_witness :
  apply_g_funcs ([] ++ ex_abs_term :: [ex_box_term] ++ ex_cover_term :: []) ex_x
  = apply_g_funcs ([] ++ [ex_box_term] ++ ex_cover_term :: []) ex_x.
Proof.
  apply (apply_g_funcs_shadowed [] [ex_box_term] [] ex_abs_term ex_cover_term ex_x).
  - eexists. reflexivity.
  - simpl. lia.
  - simpl. lia.
Defined.

Lemma ex_terms_satisfied : Forall (fun t => term_satisfied t ex_point) ex_terms.
Proof.
  repeat constructor; vm_compute; discriminate.
Qed.

Lemma apply_g_funcs_finite_witness :
  exists q, apply_g_funcs ex_terms ex_point = Ok (Fin q)
            /\ (Forall (fun t => 0 <= arg_or 1 weight t) ex_terms -> 0 <= q).
Proof.
  apply (apply_g_funcs_finite ex_terms ex_point). exact ex_terms_satisfied.
Defined.

Lemma ex_terms_disjoint_ranges : disjoint_ranges ex_terms.
Proof.
  intros pre t post E t' Ht' i. unfold ex_terms in E.
  destruct pre as [| a [| b [| c pre]]]; simpl in E.
  - injection E as <- <-. apply list_elem_of_singleton in Ht'. subst t'.
    unfold Spec.covers. simpl. lia.
  - injection E as <- <- <-. apply list_elem_of_singleton in Ht'. subst t'.
    unfold Spec.covers. simpl. lia.
  - discriminate E.
  - discriminate E.
Qed.

Lemma apply_g_funcs_evaluateSum_witness :
  exists r, apply_g_funcs ex_terms ex_x = Ok r
            /\ ext_eq r (evaluateSum ex_terms ex_x).
Proof.
  apply (apply_g_funcs_evaluateSum ex_terms ex_x).
  - exact ex_terms_known.
  - exact ex_terms_disjoint_ranges.
Defined.

Lemma ex_terms_default :
  Forall (fun t => 0 < arg_or 1 weight t /\ arg_or 1 scale t = 1
                   /\ arg_or 0 shift t = 0) ex_terms.
Proof. repeat constructor. Qed.

Lemma ex_unit_scaling (t : term) (i : nat) (d : Q) :
  t ∈ ex_terms -> Spec.covers t i -> [1; 1; 1; 1; 1] !! i = Some d -> d = 1.
Proof.
  intros _ _ Hd.
  destruct i as [| [| [| [| [| i]]]]]; simpl in Hd;
    try discriminate Hd; now injection Hd as <-.
Qed.

Lemma apply_prox_ops_feasible_witness :
  exists h' x' q,
    apply_prox_ops 1 (Ref 0%nat) ex_terms (Ref 1%nat) ex_unit_heap
    = Ok (Ref 1%nat, h')
    /\ h' !! 1%nat = Some x'
    /\ apply_g_funcs ex_terms (zip_with Qmult [1; 1; 1; 1; 1] x') = Ok (Fin q)
    /\ 0 <= q.
Proof.
  apply (apply_prox_ops_feasible 1 0%nat 1%nat [1; 1; 1; 1; 1] ex_x ex_terms
           ex_unit_heap).
  - reflexivity.
  - reflexivity.
  - discriminate.
  - reflexivity.
  - exact ex_terms_known.
  - exact ex_terms_disjoint_ranges.
  - exact ex_terms_default.
  - exact ex_unit_scaling.
Defined.

Lemma nonneg_qp_disjoint_ranges : disjoint_ranges (data_g nonneg_qp).
Proof.
  intros pre t post E t' Ht' i. simpl in E.
  destruct pre as [| a [| b pre]]; simpl in E.
  - injection E as <- <-. inversion Ht'.
  - discriminate E.
  - discriminate E.
Qed.

Lemma nonneg_qp_default :
  Forall (fun t => 0 < arg_or 1 weight t /\ arg_or 1 scale t = 1
                   /\ arg_or 0 shift t = 0) (data_g nonneg_qp).
Proof. repeat constructor. Qed.

Lemma solve_solution_feasible_witness :
  exists q,
    apply_g_funcs (data_g (_data (nonneg_solver (Cap 1))))
      [14000 # 11000; 14000 # 11000] = Ok (Fin q)
    /\ 0 <= q.
Proof.
  apply (solve_solution_feasible (nonneg_solver (Cap 1)) 1
           (-(3279584000000000000000000) # 3543122000000000000000000)
           [14000 # 11000; 14000 # 11000]).
  - exact (nonneg_solver_well_shaped (Cap 1)).
  - reflexivity.
  - reflexivity.
  - exact nonneg_qp_disjoint_ranges.
  - exact nonneg_qp_default.
  - reflexivity.
Defined.
